(** * go-hw: the product-search store, its bounded search, the seed loader,
    and the two concurrency experiments (sync.Map harness, atomic counter)

    Shallow embedding of the Go sources:
    - package [model]    : the [Product] record;
    - package [store]    : [ProductStore] ([sync.Map] + [atomic.Int64]);
    - package [search]   : [Execute], a bounded scan through [Iterate];
    - package [seeddata] : [Load], the conversion of the fetched catalog;
    - HW-3 harness       : goroutines storing into a shared [sync.Map];
    - atomic counter     : goroutines incrementing two counters.

    Go's [int] and [int64] are 64-bit two's-complement integers; they are
    embedded in [Z] and the additions the code performs are wrapped by
    [GoInt.wrap].  [uint64] is embedded in [Z] with [GoInt.wrapu].
    A [float64] is an IEEE 754 value, embedded as a [spec_float]. *)

From Stdlib Require Import ZArith List String Ascii Bool Lia SpecFloat.
From stdpp Require Import base gmap list.

Local Open Scope Z_scope.

(* ===================================================================== *)
(** * Definitions *)
(* ===================================================================== *)

(** ** Machine integers *)

Module GoInt.

Definition min_int : Z := - 2 ^ 63.
Definition max_int : Z := 2 ^ 63 - 1.

(** Signed 64-bit wrap-around, the result of an [int] addition. *)
Definition wrap (z : Z) : Z := (z + 2 ^ 63) mod 2 ^ 64 - 2 ^ 63.

(** Unsigned 64-bit wrap-around ([uint64], [atomic.Uint64]). *)
Definition wrapu (z : Z) : Z := z mod 2 ^ 64.

(** The values of type [int]. *)
Definition in_range (z : Z) : Prop := min_int <= z <= max_int.

End GoInt.

(** ** Floating-point numbers *)

Module GoFloat.

(** [float64]: the IEEE 754 values (zeros, infinities, NaN, finite
    numbers by sign, mantissa and exponent). *)
Definition float64 : Type := spec_float.

(** The zero value of [float64], [+0]. *)
Definition zero : float64 := S754_zero false.

End GoFloat.

(* ===================================================================== *)
(** ** package model *)
(* ===================================================================== *)

Module model.

(** [type Product struct { ID int; Name, Category, Description, Brand
    string; Price float64 }] *)
Record Product : Type := mkProduct {
  ID : Z;
  Name : string;
  Category : string;
  Description : string;
  Brand : string;
  Price : GoFloat.float64
}.

(** The zero value [model.Product{}]. *)
Definition zero : Product :=
  {| ID := 0; Name := EmptyString; Category := EmptyString;
     Description := EmptyString; Brand := EmptyString; Price := GoFloat.zero |}.

End model.

(* ===================================================================== *)
(** ** package store *)
(* ===================================================================== *)

Module store.
Import model.

(** [type ProductStore struct { data sync.Map; count atomic.Int64 }].
    The [sync.Map] only ever receives [Product] values under [int] keys
    (through [Put]), so it is a finite map from [Z] to [Product] and the
    type assertion [val.(model.Product)] cannot fail. *)
Record ProductStore : Type := mkStore {
  data : gmap Z Product;
  count : Z
}.

(** [func New() *ProductStore] *)
Definition New : ProductStore := {| data := ∅; count := 0 |}.

(** [func (s *ProductStore) Put(product model.Product)]:
    [s.data.Store(product.ID, product); s.count.Add(1)]. *)
Definition Put (s : ProductStore) (product : Product) : ProductStore :=
  {| data := <[ID product := product]> (data s);
     count := GoInt.wrap (count s + 1) |}.

(** [func (s *ProductStore) Get(id int) (model.Product, bool)] *)
Definition Get (s : ProductStore) (id : Z) : Product * bool :=
  match data s !! id with
  | None => (zero, false)
  | Some val => (val, true)
  end.

(** [func (s *ProductStore) Count() int]: [int(s.count.Load())]. *)
Definition Count (s : ProductStore) : Z := count s.

(** *** Method calls as transitions of the store object *)

Inductive call : Type :=
| CallPut (product : Product)
| CallGet (id : Z)
| CallCount.

Inductive reply : Type :=
| RetPut
| RetGet (product : Product) (found : bool)
| RetCount (n : Z).

(** One call: the reply and the store it leaves behind. *)
Definition exec (c : call) (s : ProductStore) : reply * ProductStore :=
  match c with
  | CallPut p => (RetPut, Put s p)
  | CallGet id => let '(p, found) := Get s id in (RetGet p found, s)
  | CallCount => (RetCount (Count s), s)
  end.

(** A client issuing the calls [cs] one after the other. *)
Fixpoint run (cs : list call) (s : ProductStore) : list reply * ProductStore :=
  match cs with
  | [] => ([], s)
  | c :: cs' =>
      let '(r, s1) := exec c s in
      let '(rs, s2) := run cs' s1 in
      (r :: rs, s2)
  end.

(** The call writes the key [k]. *)
Definition writes_key (k : Z) (c : call) : Prop :=
  match c with CallPut p => ID p = k | _ => False end.

(** The store after the [Put] calls [ps], oldest first. *)
Definition after_puts (ps : list Product) : ProductStore :=
  fold_left Put ps New.

(** The distinct keys written by a sequence of products. *)
Definition keys_written (ps : list Product) : gset Z :=
  list_to_set (map ID ps).

(** *** Iterate *)

Section Iterate.
Context {A : Type}.
(** The callback [fn]; [A] is the state of the variables its closure
    captures, threaded through the calls. *)
Variable fn : Product -> A -> bool * A.
Variable s : ProductStore.
Variables total maxCount : Z.

(** The loop
    [for id := startID; id <= total && visited < maxCount; id++],
    with [n] bounding the number of ids still to examine. *)
Fixpoint iterate_loop (n : nat) (id visited : Z) (st : A) : Z * A :=
  match n with
  | O => (visited, st)
  | S n' =>
      if (id <=? total) && (visited <? maxCount) then
        match data s !! id with
        | None => iterate_loop n' (GoInt.wrap (id + 1)) visited st
        | Some val =>
            let visited' := GoInt.wrap (visited + 1) in
            let '(continue, st') := fn val st in
            if continue
            then iterate_loop n' (GoInt.wrap (id + 1)) visited' st'
            else (visited', st')
        end
      else (visited, st)
  end.
End Iterate.

(** [func (s *ProductStore) Iterate(startID, maxCount int,
    fn func(model.Product) bool) int].  The loop examines the ids from
    [startID] to [total], that is [total - startID + 1] of them; while
    [total < GoInt.max_int] the increment [id++] cannot overflow and this
    bound is exactly the number of iterations the guard [id <= total]
    allows (lemma [store_facts.iterate_loop_unfold]). *)
Definition Iterate {A : Type} (s : ProductStore) (startID maxCount : Z)
    (fn : Product -> A -> bool * A) (st : A) : Z * A :=
  let total := count s in
  iterate_loop fn s total maxCount (Z.to_nat (total - startID + 1)) startID 0 st.

(** *** Vocabulary for stating what [Iterate] does *)

(** The entries stored under the ids [startID, ..., Count()], in
    increasing order of id; absent ids contribute nothing. *)
Definition present (s : ProductStore) (startID : Z) : list Product :=
  omap (fun id => data s !! id) (seqZ startID (count s - startID + 1)).

(** A callback instrumented to log every invocation: the product it
    received and the continue/stop signal it returned. *)
Definition recording {A : Type} (fn : Product -> A -> bool * A)
    (p : Product) (st : list (Product * bool) * A) : bool * (list (Product * bool) * A) :=
  let '(c, st') := fn p (snd st) in (c, (fst st ++ [(p, c)], st')).

(** Calling [fn] on the products of a list, in order, while fewer than
    [maxCount] were visited and [fn] asks to continue. *)
Fixpoint visit_upto {A : Type} (fn : Product -> A -> bool * A) (maxCount : Z)
    (l : list Product) (visited : Z) (st : A) : Z * A :=
  match l with
  | [] => (visited, st)
  | p :: l' =>
      if visited <? maxCount then
        let '(c, st') := fn p st in
        if c then visit_upto fn maxCount l' (visited + 1) st'
        else (visited + 1, st')
      else (visited, st)
  end.

(** *** Sample catalog entries *)

Definition widget : Product :=
  {| ID := 1; Name := "Widget"; Category := "tools"; Description := "a widget";
     Brand := "Acme"; Price := GoFloat.zero |}.

Definition widget_v2 : Product :=
  {| ID := 1; Name := "Widget v2"; Category := "tools"; Description := "a newer widget";
     Brand := "Acme"; Price := GoFloat.zero |}.

Definition gadget : Product :=
  {| ID := 2; Name := "Gadget"; Category := "toys"; Description := "a gadget";
     Brand := "Generic"; Price := GoFloat.zero |}.

Definition stray : Product :=
  {| ID := 9; Name := "Stray"; Category := "misc"; Description := "stored under id 9";
     Brand := "Generic"; Price := GoFloat.zero |}.

(** A callback that counts its calls and stops at the product named
    [name]. *)
Definition stop_at (name : string) (p : Product) (calls : nat) : bool * nat :=
  (negb (String.eqb (Name p) name), S calls).

End store.

(* ===================================================================== *)
(** ** package search *)
(* ===================================================================== *)

Module search.
Import model store.

(** [const MaxCheck = 100] *)
Definition MaxCheck : Z := 100.

(** [const MaxResults = 20] *)
Definition MaxResults : Z := 20.

(** [type Result struct { Products []model.Product; TotalFound int;
    SearchTime string; Checked int }] *)
Record Result : Type := mkResult {
  Products : list Product;
  TotalFound : Z;
  SearchTime : string;
  Checked : Z
}.

(** [strings.Contains(s, substr)]: [substr] occurs in [s] as a contiguous
    run of bytes. *)
Fixpoint Contains (s substr : string) : bool :=
  if String.prefix substr s then true
  else match s with
       | EmptyString => false
       | String _ s' => Contains s' substr
       end.

(** Lower-casing of the ASCII letters, the restriction of
    [strings.ToLower] to ASCII text. *)
Definition ascii_lower (c : ascii) : ascii :=
  let n := nat_of_ascii c in
  if (Nat.leb 65 n && Nat.leb n 90)%bool then ascii_of_nat (n + 32) else c.

Fixpoint ascii_ToLower (s : string) : string :=
  match s with
  | EmptyString => EmptyString
  | String c s' => String (ascii_lower c) (ascii_ToLower s')
  end.

Section Execute.
(** [strings.ToLower], Go's Unicode-aware lower-casing.  [Execute] is
    embedded for any such function; [ascii_ToLower] is its ASCII part. *)
Variable ToLower : string -> string.

(** The test made on each product: its lower-cased name or category
    contains the lower-cased query. *)
Definition is_match (queryLower : string) (p : Product) : bool :=
  Contains (ToLower (Name p)) queryLower
  || Contains (ToLower (Category p)) queryLower.

(** The closure passed to [Iterate]; its captured variables are
    [matches] and [totalFound]. *)
Definition callback (queryLower : string) (p : Product)
    (st : list Product * Z) : bool * (list Product * Z) :=
  let '(matches, totalFound) := st in
  if is_match queryLower p then
    let totalFound := GoInt.wrap (totalFound + 1) in
    let matches :=
      if Z.of_nat (length matches) <? MaxResults then matches ++ [p] else matches in
    (true, (matches, totalFound))
  else (true, (matches, totalFound)).

(** [func Execute(s *store.ProductStore, query string) Result].
    [searchTime] is the rendering of [time.Since(start)], read from the
    clock. *)
Definition Execute (s : ProductStore) (query : string) (searchTime : string) : Result :=
  let queryLower := ToLower query in
  let '(checked, (matches, totalFound)) :=
    Iterate s 1 MaxCheck (callback queryLower) ([], 0) in
  {| Products := matches; TotalFound := totalFound;
     SearchTime := searchTime; Checked := checked |}.

End Execute.

(** *** Vocabulary for stating what a match is *)

(** [sub] occurs in [s]: [s] is some text, then [sub], then some text. *)
Definition occurs (sub s : string) : Prop :=
  exists pre post, s = (pre ++ sub ++ post)%string.

(** A product matches a query case-insensitively: the lower-cased query
    occurs in its lower-cased name or in its lower-cased category. *)
Definition matches (ToLower : string -> string) (query : string) (p : Product) : Prop :=
  occurs (ToLower query) (ToLower (Name p)) \/
  occurs (ToLower query) (ToLower (Category p)).

(** [selected P l found]: [found] lists, in order and with repetitions,
    the elements of [l] that satisfy [P], and no other. *)
Inductive selected {X : Type} (P : X -> Prop) : list X -> list X -> Prop :=
| selected_nil : selected P [] []
| selected_keep x l found : P x -> selected P l found -> selected P (x :: l) (x :: found)
| selected_skip x l found : ~ P x -> selected P l found -> selected P (x :: l) found.

End search.

(* ===================================================================== *)
(** ** package seeddata *)
(* ===================================================================== *)

Module seeddata.

(** [type SeedProduct struct] *)
Record SeedProduct : Type := mkSeed {
  Name : string;
  Category : string;
  Description : string;
  Brand : string;
  Price : GoFloat.float64
}.

(** [type dummyJSONProduct struct] *)
Record dummyJSONProduct : Type := mkDummyProduct {
  p_Title : string;
  p_Description : string;
  p_Category : string;
  p_Price : GoFloat.float64;
  p_Brand : string
}.

(** [type dummyJSONResponse struct] *)
Record dummyJSONResponse : Type := mkDummyResponse {
  r_Products : list dummyJSONProduct;
  r_Total : Z
}.

(** What [http.Get(apiURL)] hands back when it does not fail: the status
    code and the outcome of [io.ReadAll(resp.Body)] ([None] on a read
    error). *)
Record response : Type := mkResponse {
  StatusCode : Z;
  Body : option string
}.

Definition StatusOK : Z := 200.

(** A call either returns or ends the process through [log.Fatal]. *)
Inductive outcome (A : Type) : Type :=
| Returned (a : A)
| Fatal (msg : string).
Arguments Returned {A} a.
Arguments Fatal {A} msg.

Definition is_empty (s : string) : bool :=
  match s with EmptyString => true | _ => false end.

(** The body of the loop [for _, p := range apiResp.Products]. *)
Definition seed_of (p : dummyJSONProduct) : SeedProduct :=
  let brand := p_Brand p in
  let brand := if is_empty brand then "Generic"%string else brand in
  {| Name := p_Title p; Category := p_Category p;
     Description := p_Description p; Brand := brand; Price := p_Price p |}.

(** [func Load() []SeedProduct].  The network and the JSON decoder are the
    environment: [get] is the result of [http.Get] ([None] when it returns
    an error) and [unmarshal] is [json.Unmarshal] into a
    [dummyJSONResponse] ([None] when it returns an error). *)
Definition Load (get : option response)
    (unmarshal : string -> option dummyJSONResponse) : outcome (list SeedProduct) :=
  match get with
  | None => Fatal "Failed to fetch from DummyJSON"
  | Some resp =>
      if negb (StatusCode resp =? StatusOK) then Fatal "DummyJSON returned status"
      else
        match Body resp with
        | None => Fatal "Failed to read response body"
        | Some body =>
            match unmarshal body with
            | None => Fatal "Failed to parse DummyJSON response"
            | Some apiResp =>
                let seeds := map seed_of (r_Products apiResp) in
                if (length seeds =? 0)%nat
                then Fatal "No seed products fetched"
                else Returned seeds
            end
        end
  end.

(** *** A sample catalog *)

(** A decoded catalog of two products, the second without a brand. *)
Definition sample_catalog : dummyJSONResponse :=
  {| r_Products :=
       [ {| p_Title := "Mascara"; p_Description := "black"; p_Category := "beauty";
            p_Price := GoFloat.zero; p_Brand := "Essence" |};
         {| p_Title := "Apple"; p_Description := "fresh"; p_Category := "groceries";
            p_Price := GoFloat.zero; p_Brand := EmptyString |} ];
     r_Total := 2 |}.

Definition sample_seeds : list SeedProduct :=
  [ {| Name := "Mascara"; Category := "beauty"; Description := "black";
       Brand := "Essence"; Price := GoFloat.zero |};
    {| Name := "Apple"; Category := "groceries"; Description := "fresh";
       Brand := "Generic"; Price := GoFloat.zero |} ].

End seeddata.

(* ===================================================================== *)
(** ** Goroutines under an arbitrary scheduler *)
(* ===================================================================== *)

(** Both experiments start [W] goroutines over shared variables and wait
    for them with a [sync.WaitGroup].  A goroutine is a private state
    ([local]) and a function giving its next atomic step on the shared
    variables; the scheduler picks, again and again, which goroutine moves
    next.  Every result below is proved for all such picks. *)
Module goroutines.

Section Scheduler.
Context {shared local : Type}.

(** [step1 g l sh]: the next atomic step of goroutine number [g], in
    private state [l], on the shared variables [sh]; [None] when the
    goroutine has returned or is blocked. *)
Variable step1 : nat -> local -> shared -> option (local * shared).

Record config : Type := mkConfig {
  mem : shared;
  threads : list local
}.

Definition step_thread (g : nat) (c : config) : option config :=
  match threads c !! g with
  | None => None
  | Some l =>
      match step1 g l (mem c) with
      | None => None
      | Some (l', sh') => Some {| mem := sh'; threads := <[g := l']> (threads c) |}
      end
  end.

(** The scheduler picks [g]; picking a goroutine that cannot move leaves
    the configuration as it is. *)
Definition sched_step (c : config) (g : nat) : config :=
  match step_thread g c with
  | Some c' => c'
  | None => c
  end.

Definition exec (schedule : list nat) (c : config) : config :=
  fold_left sched_step schedule c.

End Scheduler.

Arguments config : clear implicits.

End goroutines.

(* ===================================================================== *)
(** ** HW-3: the concurrent map harness *)
(* ===================================================================== *)

Module harness.
Import goroutines.

(** The three interchangeable synchronization strategies. *)
Inductive strategy : Type := SyncMap | Mutex | RWMutex.

(** [goroutineID*1000+i], computed on [int]. *)
Definition key (goroutineID i : Z) : Z :=
  GoInt.wrap (GoInt.wrap (goroutineID * 1000) + i).

(** Where a worker stands inside one [put]. *)
Inductive pc : Type :=
| AtLoop      (* at the loop head [i < I], before the put *)
| HasLock     (* lock acquired, map write not begun *)
| Writing     (* inside the map write *)
| Unlocking.  (* map write done, lock not yet released *)

Record worker : Type := mkWorker {
  w_i : Z;
  w_pc : pc
}.

(** A lock with one writer slot and a reader count; a [sync.Mutex] is the
    case where [readers] stays 0. *)
Record rwlock : Type := mkLock {
  writer : option nat;
  readers : nat
}.

Definition unlocked : rwlock := {| writer := None; readers := 0 |}.

Definition lock_free (l : rwlock) : bool :=
  match writer l with
  | None => (readers l =? 0)%nat
  | Some _ => false
  end.

(** The shared variables: the map [m]; for the lock-guarded variants the
    lock, the flag a plain Go map raises while a write is in progress, and
    whether the runtime aborted the process on seeing two writes overlap
    (the [Plain Map: Crashes] row of the experiment's comparison). *)
Record shared : Type := mkShared {
  m : gmap Z Z;
  lock : rwlock;
  writing : bool;
  crashed : bool
}.

Definition set_m (f : gmap Z Z -> gmap Z Z) (sh : shared) : shared :=
  {| m := f (m sh); lock := lock sh; writing := writing sh; crashed := crashed sh |}.
Definition set_lock (l : rwlock) (sh : shared) : shared :=
  {| m := m sh; lock := l; writing := writing sh; crashed := crashed sh |}.
Definition set_writing (b : bool) (sh : shared) : shared :=
  {| m := m sh; lock := lock sh; writing := b; crashed := crashed sh |}.
Definition set_crashed (sh : shared) : shared :=
  {| m := m sh; lock := lock sh; writing := writing sh; crashed := true |}.

Section Harness.
(** The strategy under test and the iterations per worker ([1000] in
    [main]). *)
Variable strat : strategy.
Variable I : Z.

(** The goroutine body of [main],
    [for i := 0; i < 1000; i++ { m.Store(goroutineID*1000+i, i) }]:
    one atomic [Store] per iteration. *)
Definition syncmap_step (g : nat) (w : worker) (sh : shared) : option (worker * shared) :=
  let i := w_i w in
  match w_pc w with
  | AtLoop =>
      if i <? I then
        Some ({| w_i := GoInt.wrap (i + 1); w_pc := AtLoop |},
              set_m (insert (key (Z.of_nat g) i) i) sh)
      else None
  | _ => None
  end.

(** Modelled from the spec: the harness programs of the exclusive-lock and
    shared/exclusive-lock variants are not among the sources.  Following
    section 4.1, their [put] acquires the lock exclusively, writes the
    plain map and releases the lock.  The write of a plain map is not
    atomic (it begins, then ends), and the runtime aborts the process when
    a write begins while another is in progress. *)
Definition locked_step (g : nat) (w : worker) (sh : shared) : option (worker * shared) :=
  let i := w_i w in
  match w_pc w with
  | AtLoop =>
      if i <? I then
        if lock_free (lock sh)
        then Some ({| w_i := i; w_pc := HasLock |},
                   set_lock {| writer := Some g; readers := 0 |} sh)
        else None
      else None
  | HasLock =>
      if writing sh then Some (w, set_crashed sh)
      else Some ({| w_i := i; w_pc := Writing |}, set_writing true sh)
  | Writing =>
      Some ({| w_i := i; w_pc := Unlocking |},
            set_writing false (set_m (insert (key (Z.of_nat g) i) i) sh))
  | Unlocking =>
      Some ({| w_i := GoInt.wrap (i + 1); w_pc := AtLoop |}, set_lock unlocked sh)
  end.

(** No goroutine moves once the process has been aborted. *)
Definition worker_step (g : nat) (w : worker) (sh : shared) : option (worker * shared) :=
  if crashed sh then None
  else match strat with
       | SyncMap => syncmap_step g w sh
       | Mutex | RWMutex => locked_step g w sh
       end.

(** A worker has returned (and called [wg.Done()]) when it is at the loop
    head with the guard [i < I] false. *)
Definition finished (w : worker) : bool :=
  match w_pc w with
  | AtLoop => negb (w_i w <? I)
  | _ => false
  end.

(** [wg.Wait()] returns: every worker has returned. *)
Definition all_done (c : config shared worker) : bool :=
  forallb finished (threads c).

End Harness.

(** The configuration after [main] has spawned [W] workers over an empty
    map. *)
Definition init (W : nat) : config shared worker :=
  {| mem := {| m := ∅; lock := unlocked; writing := false; crashed := false |};
     threads := replicate W {| w_i := 0; w_pc := AtLoop |} |}.

(** The configuration reached from [init W] under a schedule. *)
Definition run (strat : strategy) (W : nat) (I : Z) (schedule : list nat) : config shared worker :=
  exec (worker_step strat I) schedule (init W).

(** *** The measuring thread's operations, after the barrier *)

(** [m.Range(f)] over an enumeration of the entries; [f] reports whether
    to continue, and [A] is the state of its captured variables. *)
Fixpoint range_list {A : Type} (f : Z -> Z -> A -> bool * A) (l : list (Z * Z)) (st : A) : A :=
  match l with
  | [] => st
  | (k, v) :: l' =>
      let '(continue, st') := f k v st in
      if continue then range_list f l' st' else st'
  end.

(** [sync.Map.Range] leaves the order of enumeration open; [map_to_list]
    stands for the one it takes. *)
Definition Range {A : Type} (mp : gmap Z Z) (f : Z -> Z -> A -> bool * A) (st : A) : A :=
  range_list f (map_to_list mp) st.

(** Modelled from the spec: an operation of a lock-guarded variant runs
    under the lock (section 4.1); [None] when the lock is held and the
    call would block. *)
Definition under_lock {A : Type} (sh : shared) (result : A) : option A :=
  if lock_free (lock sh) then Some result else None.

(** [main]'s count of the entries,
    [m.Range(func(key, value interface{}) bool { count++; return true })]. *)
Definition range_count (mp : gmap Z Z) : Z :=
  Range mp (fun _ _ count => (true, GoInt.wrap (count + 1))) 0.

(** [len() -> count].  The sync.Map has no length and is counted with
    [Range]; the lock-guarded variants read [len] of the plain map. *)
Definition len (strat : strategy) (sh : shared) : option Z :=
  match strat with
  | SyncMap => Some (range_count (m sh))
  | Mutex | RWMutex => under_lock sh (Z.of_nat (size (m sh)))
  end.

(** [forEach(visit) -> visitedCount]: [Range] with a counter of the
    entries visited. *)
Definition forEach {A : Type} (strat : strategy) (sh : shared)
    (visit : Z -> Z -> A -> bool * A) (st : A) : option (Z * A) :=
  let counting k v (cst : Z * A) :=
    let '(c, st') := visit k v (snd cst) in (c, (GoInt.wrap (fst cst + 1), st')) in
  match strat with
  | SyncMap => Some (Range (m sh) counting (0, st))
  | Mutex | RWMutex => under_lock sh (Range (m sh) counting (0, st))
  end.

(** [get(key) -> (value, found)]; the zero value of [int] when absent. *)
Definition get (strat : strategy) (sh : shared) (k : Z) : option (Z * bool) :=
  let load := match m sh !! k with Some v => (v, true) | None => (0, false) end in
  match strat with
  | SyncMap => Some load
  | Mutex | RWMutex => under_lock sh load
  end.

(** *** The report [main] prints *)

(** The values handed to [fmt.Printf], by the static type of the
    argument: an [int], a [time.Duration], or a key or value of the map
    (an [interface{}] holding an [int]). *)
Inductive value : Type :=
| VInt (n : Z)
| VDuration (nanoseconds : Z)
| VAny (n : Z).

(** One call [fmt.Printf(format, args...)]. *)
Record printf : Type := Printf {
  format : string;
  args : list value
}.

Definition nl : string := String (ascii_of_nat 10) EmptyString.

(** The callback of the second [Range]: print while [entryCount < 5],
    then stop. *)
Definition print_entry (k v : Z) (st : Z * list printf) : bool * (Z * list printf) :=
  let '(entryCount, out) := st in
  if entryCount <? 5 then
    (true, (GoInt.wrap (entryCount + 1),
            out ++ [Printf ("  Key: %v, Value: %v" ++ nl) [VAny k; VAny v]]))
  else (false, (entryCount, out)).

(** The measurements [main] prints once [wg.Wait()] has returned:
    [count] comes from the counting [Range], [elapsed] is
    [time.Since(startTime)]. *)
Definition summary (mp : gmap Z Z) (elapsed : Z) : list printf :=
  let count := range_count mp in
  [ Printf ("Length of map: %d" ++ nl) [VInt count];
    Printf ("Total time taken: %v" ++ nl) [VDuration elapsed] ].

(** The sample of entries printed after the measurements. *)
Definition examples (mp : gmap Z Z) : list printf :=
  Printf (nl ++ "Example: First few entries:" ++ nl) []
  :: snd (Range mp print_entry (0, [])).

(** Everything [main] prints. *)
Definition report (mp : gmap Z Z) (elapsed : Z) : list printf :=
  summary mp elapsed ++ examples mp.

(** A value is stated by some output when one of its lines prints it. *)
Definition states (out : list printf) (v : value) : Prop :=
  exists line, In line out /\ In v (args line).

(** The number a value carries, whatever its type. *)
Definition number_of (v : value) : Z :=
  match v with VInt n => n | VDuration n => n | VAny n => n end.

(** A number is printed by some output when one of its lines prints a
    value that carries it, in whatever role. *)
Definition prints_number (out : list printf) (n : Z) : Prop :=
  exists line v, In line out /\ In v (args line) /\ number_of v = n.

(** Everything [main] prints when the two calls of [Range] hand out the
    entries in the order [enum]; [report] is the case of the order
    [map_to_list]. *)
Definition report_enumerated (enum : list (Z * Z)) (elapsed : Z) : list printf :=
  [ Printf ("Length of map: %d" ++ nl)
      [VInt (range_list (fun _ _ count => (true, GoInt.wrap (count + 1))) enum 0)];
    Printf ("Total time taken: %v" ++ nl) [VDuration elapsed];
    Printf (nl ++ "Example: First few entries:" ++ nl) [] ]
  ++ snd (range_list print_entry enum (0, [])).

(** [main]: 50 goroutines, 1000 iterations each, on a [sync.Map]. *)
Definition main_workers : nat := 50.
Definition main_iterations : Z := 1000.
Definition main_run (schedule : list nat) : config shared worker :=
  run SyncMap main_workers main_iterations schedule.

(** *** The steps of a worker as a relation, and the invariants of the
    write phase *)

Section Invariants.
Variable strat : strategy.
Variable W : nat.
Variable I : Z.

(** The moves [worker_step] allows, one constructor per move. *)
Inductive wstep (g : nat) : worker -> shared -> worker -> shared -> Prop :=
| step_store i sh :
    strat = SyncMap -> i < I ->
    wstep g (mkWorker i AtLoop) sh
            (mkWorker (GoInt.wrap (i + 1)) AtLoop)
            (set_m (insert (key (Z.of_nat g) i) i) sh)
| step_acquire i sh :
    strat <> SyncMap -> i < I -> lock_free (lock sh) = true ->
    wstep g (mkWorker i AtLoop) sh
            (mkWorker i HasLock) (set_lock {| writer := Some g; readers := 0 |} sh)
| step_abort i sh :
    strat <> SyncMap -> writing sh = true ->
    wstep g (mkWorker i HasLock) sh (mkWorker i HasLock) (set_crashed sh)
| step_begin i sh :
    strat <> SyncMap -> writing sh = false ->
    wstep g (mkWorker i HasLock) sh (mkWorker i Writing) (set_writing true sh)
| step_end i sh :
    strat <> SyncMap ->
    wstep g (mkWorker i Writing) sh
            (mkWorker i Unlocking)
            (set_writing false (set_m (insert (key (Z.of_nat g) i) i) sh))
| step_release i sh :
    strat <> SyncMap ->
    wstep g (mkWorker i Unlocking) sh
            (mkWorker (GoInt.wrap (i + 1)) AtLoop) (set_lock unlocked sh).

(** The number of map writes a worker has completed. *)
Definition written (w : worker) : Z :=
  w_i w + match w_pc w with Unlocking => 1 | _ => 0 end.

Fixpoint total_written (ws : list worker) : Z :=
  match ws with
  | [] => 0
  | w :: ws' => written w + total_written ws'
  end.

Definition worker_ok (w : worker) : Prop :=
  0 <= w_i w <= I /\ (w_pc w <> AtLoop -> w_i w < I /\ strat <> SyncMap).

(** The map holds exactly the entries written so far, one per write. *)
Definition map_ok (c : config shared worker) : Prop :=
  (forall k v, m (mem c) !! k = Some v <->
     exists g w j, threads c !! g = Some w /\ 0 <= j < written w /\
                   k = key (Z.of_nat g) j /\ v = j) /\
  Z.of_nat (size (m (mem c))) = total_written (threads c).

(** The lock is held exactly by the worker that is inside its [put]. *)
Definition lock_ok (c : config shared worker) : Prop :=
  readers (lock (mem c)) = 0%nat /\
  (forall g, writer (lock (mem c)) = Some g -> is_Some (threads c !! g)) /\
  (forall g w, threads c !! g = Some w ->
     (w_pc w <> AtLoop <-> writer (lock (mem c)) = Some g)).

(** The process has not been aborted, and a map write in progress belongs
    to some worker. *)
Definition writing_ok (c : config shared worker) : Prop :=
  crashed (mem c) = false /\
  (writing (mem c) = true ->
     exists g w, threads c !! g = Some w /\ w_pc w = Writing).

Record inv (c : config shared worker) : Prop := mkInv {
  inv_length : length (threads c) = W;
  inv_workers : forall g w, threads c !! g = Some w -> worker_ok w;
  inv_map : map_ok c;
  inv_lock : lock_ok c;
  inv_writing : writing_ok c
}.

(** The atomic steps worker [w] still has to take. *)
Definition remaining (w : worker) : Z :=
  4 * (I - w_i w) - match w_pc w with
                    | AtLoop => 0 | HasLock => 1 | Writing => 2 | Unlocking => 3
                    end.

Fixpoint total_remaining (ws : list worker) : Z :=
  match ws with
  | [] => 0
  | w :: ws' => remaining w + total_remaining ws'
  end.

End Invariants.

(** Each worker in turn takes [steps] steps. *)
Definition sequential (W steps : nat) : list nat :=
  flat_map (fun g => repeat g steps) (seq 0 W).

End harness.

(* ===================================================================== *)
(** ** The atomic counter experiment *)
(* ===================================================================== *)

Module atomic_counter.
Import goroutines.

(** Where a goroutine stands inside one pass of [for range 1000]. *)
Inductive pc : Type :=
| AtAdd      (* at the loop head, before [atomicOps.Add(1)] *)
| AtRead     (* before reading [nonAtomicOps] *)
| AtWrite.   (* holding the value read, before writing it back plus one *)

Record worker : Type := mkWorker {
  w_n : Z;       (* passes completed *)
  w_pc : pc;
  w_reg : Z      (* the value of [nonAtomicOps] last read *)
}.

(** [var atomicOps atomic.Uint64] and [var nonAtomicOps uint64]. *)
Record shared : Type := mkShared {
  atomicOps : Z;
  nonAtomicOps : Z
}.

Section Counter.
(** Passes per goroutine ([1000] in [main]). *)
Variable I : Z.

(** The goroutine body
    [for range 1000 { atomicOps.Add(1); nonAtomicOps++ }].
    [Add] is one atomic step; [nonAtomicOps++] is a read followed by a
    write, which other goroutines may interleave. *)
Definition worker_step (g : nat) (w : worker) (sh : shared) : option (worker * shared) :=
  match w_pc w with
  | AtAdd =>
      if w_n w <? I then
        Some ({| w_n := w_n w; w_pc := AtRead; w_reg := w_reg w |},
              {| atomicOps := GoInt.wrapu (atomicOps sh + 1); nonAtomicOps := nonAtomicOps sh |})
      else None
  | AtRead =>
      Some ({| w_n := w_n w; w_pc := AtWrite; w_reg := nonAtomicOps sh |}, sh)
  | AtWrite =>
      Some ({| w_n := GoInt.wrap (w_n w + 1); w_pc := AtAdd; w_reg := w_reg w |},
            {| atomicOps := atomicOps sh; nonAtomicOps := GoInt.wrapu (w_reg w + 1) |})
  end.

Definition finished (w : worker) : bool :=
  match w_pc w with
  | AtAdd => negb (w_n w <? I)
  | _ => false
  end.

(** [wg.Wait()] returns. *)
Definition all_done (c : config shared worker) : bool :=
  forallb finished (threads c).

End Counter.

Definition init (W : nat) : config shared worker :=
  {| mem := {| atomicOps := 0; nonAtomicOps := 0 |};
     threads := replicate W {| w_n := 0; w_pc := AtAdd; w_reg := 0 |} |}.

Definition run (W : nat) (I : Z) (schedule : list nat) : config shared worker :=
  exec (worker_step I) schedule (init W).

(** [for range 500 { wg.Go(...) }] and [for range 1000]. *)
Definition goroutines_started : nat := 500.
Definition increments_each : Z := 1000.

(** [expected := uint64(500000)] *)
Definition expected : Z := 500000.

Definition main_run (schedule : list nat) : config shared worker :=
  run goroutines_started increments_each schedule.

(** [atomicLost := expected - atomicOps.Load()] *)
Definition atomicLost (sh : shared) : Z := GoInt.wrapu (expected - atomicOps sh).

(** [nonAtomicLost := expected - nonAtomicOps] *)
Definition nonAtomicLost (sh : shared) : Z := GoInt.wrapu (expected - nonAtomicOps sh).

(** *** The steps of a goroutine as a relation, and the invariants *)

(** Sums over the goroutines. *)
Fixpoint sum_of (f : worker -> Z) (ws : list worker) : Z :=
  match ws with
  | [] => 0
  | w :: ws' => f w + sum_of f ws'
  end.

Section CounterInvariants.
Variable W : nat.
Variable I : Z.

(** The steps of a goroutine, as a relation. *)
Inductive wstep : worker -> shared -> worker -> shared -> Prop :=
| step_add n r sh :
    n < I ->
    wstep (mkWorker n AtAdd r) sh (mkWorker n AtRead r)
          {| atomicOps := GoInt.wrapu (atomicOps sh + 1); nonAtomicOps := nonAtomicOps sh |}
| step_read n r sh :
    wstep (mkWorker n AtRead r) sh (mkWorker n AtWrite (nonAtomicOps sh)) sh
| step_write n r sh :
    wstep (mkWorker n AtWrite r) sh (mkWorker (GoInt.wrap (n + 1)) AtAdd r)
          {| atomicOps := atomicOps sh; nonAtomicOps := GoInt.wrapu (r + 1) |}.

(** Calls of [atomicOps.Add(1)] made by a goroutine, and increments of
    [nonAtomicOps] it has completed. *)
Definition adds (w : worker) : Z :=
  w_n w + match w_pc w with AtAdd => 0 | _ => 1 end.

Definition worker_ok (w : worker) : Prop :=
  0 <= w_n w <= I /\ (w_pc w <> AtAdd -> w_n w < I).

Record inv (c : config shared worker) : Prop := mkInv {
  inv_length : length (threads c) = W;
  inv_workers : forall g w, threads c !! g = Some w -> worker_ok w;
  (** no call of [Add] is lost *)
  inv_atomic : atomicOps (mem c) = sum_of adds (threads c);
  (** the plain counter never exceeds the number of completed increments *)
  inv_plain : 0 <= nonAtomicOps (mem c) <= sum_of w_n (threads c);
  (** nor does a value read from it and not yet written back *)
  inv_reg : forall g w, threads c !! g = Some w -> w_pc w = AtWrite ->
            0 <= w_reg w <= sum_of w_n (threads c)
}.

(** The atomic steps goroutine [w] still has to take. *)
Definition remaining (w : worker) : Z :=
  3 * (I - w_n w) - match w_pc w with AtAdd => 0 | AtRead => 1 | AtWrite => 2 end.

End CounterInvariants.

End atomic_counter.

From Stdlib Require Import DecimalString Sorted.

(* ===================================================================== *)
(** ** Histories of the store *)
(* ===================================================================== *)

Module store_history.
Import model store.

(** The last product of a history of [Put] calls that carries the id. *)
Definition last_put (id : Z) (ps : list Product) : option Product :=
  last (List.filter (fun p => ID p =? id) ps).

(** The products are numbered 1, 2, 3, ... in the order of the list, as
    [generator.Populate] numbers them. *)
Definition numbered (ps : list Product) : Prop :=
  forall k p, ps !! k = Some p -> ID p = Z.of_nat k + 1.

(** The page of at most [maxCount] products starting at the id
    [startID]. *)
Definition page (ps : list Product) (startID maxCount : Z) : list Product :=
  take (Z.to_nat maxCount) (drop (Z.to_nat (startID - 1)) ps).

(** A callback that counts its calls and never stops. *)
Definition count_calls (p : Product) (calls : nat) : bool * nat := (true, S calls).

End store_history.

(* ===================================================================== *)
(** ** package generator *)
(* ===================================================================== *)

(** Formatting and float64 arithmetic of the Go runtime. *)
Module GoFmt.

(** The verb [%d] of [fmt.Sprintf] and [strconv.Itoa]: the decimal
    digits, with a leading [-] for a negative number. *)
Definition Itoa (z : Z) : string := NilZero.string_of_int (Z.to_int z).

(** [float64] multiplication and addition: IEEE 754 binary64, each
    operation rounded to nearest even on its own (the compiler does not
    fuse a multiplication with an addition, as is the case on amd64). *)
Definition fmul (x y : GoFloat.float64) : GoFloat.float64 := SFmul 53 1024 x y.
Definition fadd (x y : GoFloat.float64) : GoFloat.float64 := SFadd 53 1024 x y.

(** The conversion [float64(n)] of an [int]. *)
Definition float64_of_int (n : Z) : GoFloat.float64 := binary_normalize 53 1024 n 0 false.

(** The constants [1.0] and [0.01] as binary64 values
    ([2^52 * 2^-52] and [5764607523034235 * 2^-59]). *)
Definition one : GoFloat.float64 := S754_finite false 4503599627370496 (-52).
Definition hundredth : GoFloat.float64 := S754_finite false 5764607523034235 (-59).

End GoFmt.

Module generator.
Import model store.

(** [const TotalProducts = 100000] *)
Definition TotalProducts : Z := 100000.

(** How a call of [Populate] ends: it returns, leaving the store filled;
    the process exits through [log.Fatal] (inside [seeddata.Load]); or
    the runtime panics (integer division by zero, index out of range). *)
Inductive outcome : Type :=
| Completed (s : ProductStore)
| Fatal (msg : string)
| Panic (msg : string).

(** The body of the loop up to the call of [Put]: the product number
    [i], built from the seed [seeds[(i-1)%numSeeds]].  [Z.rem] and
    [Z.quot] are Go's [%] and [/] on [int]; [None] stands for the
    run-time panic of a division by zero or of an index out of range. *)
Definition variant (seeds : list seeddata.SeedProduct) (numSeeds i : Z) : option Product :=
  if numSeeds =? 0 then None
  else
    let idx := Z.rem (GoInt.wrap (i - 1)) numSeeds in
    if (idx <? 0) || (Z.of_nat (length seeds) <=? idx) then None
    else
      match seeds !! Z.to_nat idx with
      | None => None
      | Some seed =>
          let variantNum := GoInt.wrap (Z.quot (GoInt.wrap (i - 1)) numSeeds + 1) in
          let name := seeddata.Name seed in
          let name :=
            if 1 <? variantNum
            then (seeddata.Name seed ++ " Edition " ++ GoFmt.Itoa variantNum)%string
            else name in
          let price :=
            GoFmt.fmul (seeddata.Price seed)
              (GoFmt.fadd GoFmt.one
                 (GoFmt.fmul (GoFmt.float64_of_int (GoInt.wrap (variantNum - 1)))
                             GoFmt.hundredth)) in
          Some {| ID := i; Name := name; Category := seeddata.Category seed;
                  Description := seeddata.Description seed;
                  Brand := seeddata.Brand seed; Price := price |}
      end.

(** The loop [for i := 1; i <= TotalProducts; i++ { ...; s.Put(...) }],
    with [n] bounding the number of iterations left. *)
Fixpoint populate_loop (seeds : list seeddata.SeedProduct) (numSeeds total : Z)
    (n : nat) (i : Z) (s : ProductStore) : option ProductStore :=
  match n with
  | O => Some s
  | S n' =>
      if i <=? total then
        match variant seeds numSeeds i with
        | None => None
        | Some p => populate_loop seeds numSeeds total n' (GoInt.wrap (i + 1)) (Put s p)
        end
      else Some s
  end.

(** The loop of [Populate] over given seeds, for [total] products. *)
Definition populate_with (seeds : list seeddata.SeedProduct) (total : Z)
    (s : ProductStore) : option ProductStore :=
  populate_loop seeds (Z.of_nat (length seeds)) total (Z.to_nat total) 1 s.

(** [func Populate(s *store.ProductStore)].  [get] and [unmarshal] are
    the environment of [seeddata.Load]. *)
Definition Populate (get : option seeddata.response)
    (unmarshal : string -> option seeddata.dummyJSONResponse)
    (s : ProductStore) : outcome :=
  match seeddata.Load get unmarshal with
  | seeddata.Fatal msg => Fatal msg
  | seeddata.Returned seeds =>
      match populate_with seeds TotalProducts s with
      | Some s' => Completed s'
      | None => Panic "runtime error"
      end
  end.

(** *** Vocabulary for stating what [Populate] builds *)

(** The product [Populate] stores under the id [i], for a catalog of
    seeds: the seed number [(i-1) mod n], in its edition [(i-1)/n + 1]. *)
Definition seed_index (seeds : list seeddata.SeedProduct) (i : Z) : nat :=
  Z.to_nat ((i - 1) mod Z.of_nat (length seeds)).

Definition edition (seeds : list seeddata.SeedProduct) (i : Z) : Z :=
  (i - 1) / Z.of_nat (length seeds) + 1.

(** The product number [i] made of a seed in its edition [ed]: the seed's
    name (with [" Edition ed"] appended from the second edition on), its
    category, description and brand, and its price raised by one percent
    per further edition. *)
Definition edition_of (seed : seeddata.SeedProduct) (i ed : Z) : Product :=
  {| ID := i;
     Name := if 1 <? ed
             then (seeddata.Name seed ++ " Edition " ++ GoFmt.Itoa ed)%string
             else seeddata.Name seed;
     Category := seeddata.Category seed;
     Description := seeddata.Description seed;
     Brand := seeddata.Brand seed;
     Price := GoFmt.fmul (seeddata.Price seed)
                (GoFmt.fadd GoFmt.one
                   (GoFmt.fmul (GoFmt.float64_of_int (ed - 1)) GoFmt.hundredth)) |}.

(** The products [Populate] stores for the ids 1 to [total], in order. *)
Definition catalog (seeds : list seeddata.SeedProduct) (total : Z) : list Product :=
  omap (variant seeds (Z.of_nat (length seeds))) (seqZ 1 total).

End generator.

(* ===================================================================== *)
(** ** package handler *)
(* ===================================================================== *)

Module handler.
Import model store.

(** The part of an [*http.Request] the handlers read: the method and the
    parsed query string, as the list of its key/value pairs in order. *)
Record Request : Type := mkRequest {
  Method : string;
  Query : list (string * string)
}.

(** [r.URL.Query().Get(key)]: the first value given for the key, or the
    empty string. *)
Fixpoint query_get (q : list (string * string)) (key : string) : string :=
  match q with
  | [] => EmptyString
  | (k, v) :: q' => if String.eqb k key then v else query_get q' key
  end.

(** What a handler passes to [json.NewEncoder(w).Encode]: a
    [map[string]string], or a [search.Result]. *)
Inductive body : Type :=
| JSONMap (fields : list (string * string))
| JSONResult (r : search.Result).

(** The [http.ResponseWriter]: the header set so far, the status code
    once it is written, and the values encoded to the body. *)
Record ResponseWriter : Type := mkWriter {
  header : list (string * string);
  status : option Z;
  written : list body
}.

Definition new_writer : ResponseWriter :=
  {| header := []; status := None; written := [] |}.

(** [w.Header().Set(key, value)]: replaces the values of the key; setting
    the header after the status line is sent has no effect. *)
Definition Header_Set (key value : string) (w : ResponseWriter) : ResponseWriter :=
  match status w with
  | Some _ => w
  | None =>
      {| header := (key, value) :: List.filter (fun kv => negb (String.eqb (fst kv) key)) (header w);
         status := status w; written := written w |}
  end.

(** [w.WriteHeader(code)]: sends the status line, once. *)
Definition WriteHeader (code : Z) (w : ResponseWriter) : ResponseWriter :=
  match status w with
  | Some _ => w
  | None => {| header := header w; status := Some code; written := written w |}
  end.

(** The [float64] values [encoding/json] encodes: it refuses the
    infinities and NaN with an [UnsupportedValueError]. *)
Definition finite (x : GoFloat.float64) : bool :=
  match x with
  | S754_zero _ | S754_finite _ _ _ => true
  | S754_infinity _ | S754_nan => false
  end.

(** Whether [json.Marshal] succeeds on the value: always on a
    [map[string]string]; on a [search.Result] when the price of every
    product in it is finite. *)
Definition encodable (v : body) : bool :=
  match v with
  | JSONMap _ => true
  | JSONResult r => forallb (fun p => finite (model.Price p)) (search.Products r)
  end.

(** [json.NewEncoder(w).Encode(v)]: the value is marshalled first, and
    written only then; the first write sends status 200 when none was
    sent.  When marshalling fails [Encode] returns the error, which the
    handlers drop, and nothing is written. *)
Definition Encode (v : body) (w : ResponseWriter) : ResponseWriter :=
  if encodable v then
    {| header := header w;
       status := match status w with Some c => Some c | None => Some 200 end;
       written := written w ++ [v] |}
  else w.

(** The status the server sends once the handler has returned: the one
    the handler wrote, and 200 when it wrote none. *)
Definition sent_status (w : ResponseWriter) : Z :=
  match status w with Some c => c | None => 200 end.

Definition StatusOK : Z := 200.
Definition StatusBadRequest : Z := 400.
Definition StatusMethodNotAllowed : Z := 405.
Definition MethodGet : string := "GET".

Section Handlers.
(** [strings.ToLower], as in [search.Execute]. *)
Variable ToLower : string -> string.

(** [func (h *ProductHandler) Search(w http.ResponseWriter, r *http.Request)];
    [searchTime] is the clock reading [search.Execute] reports. *)
Definition Search (h : ProductStore) (searchTime : string)
    (w : ResponseWriter) (r : Request) : ResponseWriter :=
  if negb (String.eqb (Method r) MethodGet) then
    Encode (JSONMap [("error"%string, "only GET is supported"%string)])
      (WriteHeader StatusMethodNotAllowed
         (Header_Set "Content-Type" "application/json" w))
  else
    let query := query_get (Query r) "q" in
    if String.eqb query EmptyString then
      Encode (JSONMap [("error"%string, "query parameter 'q' is required"%string)])
        (WriteHeader StatusBadRequest
           (Header_Set "Content-Type" "application/json" w))
    else
      let result := search.Execute ToLower h query searchTime in
      Encode (JSONResult result) (Header_Set "Content-Type" "application/json" w).

End Handlers.

(** [func (h *ProductHandler) Health(w http.ResponseWriter, r *http.Request)] *)
Definition Health (h : ProductStore) (w : ResponseWriter) (r : Request) : ResponseWriter :=
  Encode (JSONMap [("status"%string, "healthy"%string); ("products"%string, GoFmt.Itoa (Count h))])
    (WriteHeader StatusOK (Header_Set "Content-Type" "application/json" w)).

End handler.

(* ===================================================================== *)
(** ** HW-5: the product API *)
(* ===================================================================== *)

Module api.

(** The fields of [Product] the handlers read; the integer fields are
    compared with constants only and are kept as integers. *)
Record Product : Type := mkProduct {
  ProductId : Z;
  Sku : string;
  Manufacturer : string;
  CategoryId : Z;
  Weight : Z;
  SomeOtherId : Z
}.

(** [Error{Error: ..., Message: ..., Details: ...}]; [Details] is a
    [*string], [None] standing for [nil]. *)
Record Error : Type := mkError {
  error : string;
  Message : string;
  Details : option string
}.

(** [type ProductServer struct { products sync.Map }]: the map only ever
    receives [Product] values under [int32] keys (through
    [AddProductDetails]). *)
Record ProductServer : Type := mkServer {
  products : gmap Z Product
}.

(** [func NewProductServer() *ProductServer] *)
Definition NewProductServer : ProductServer := {| products := ∅ |}.

(** What a handler sends: [ctx.JSON(code, v)] with an [Error] or a
    [Product], or [ctx.NoContent(code)]. *)
Inductive payload : Type :=
| JSONError (e : Error)
| JSONProduct (p : Product)
| NoContent.

Record response : Type := mkResponse {
  code : Z;
  body : payload
}.

Definition StatusOK : Z := 200.
Definition StatusNoContent : Z := 204.
Definition StatusBadRequest : Z := 400.
Definition StatusNotFound : Z := 404.
Definition StatusNotImplemented : Z := 501.

(** [len(s)] of a Go string: its number of bytes. *)
Definition len (s : string) : Z := Z.of_nat (String.length s).

(** [func validateProduct(p Product) *Error]; [None] is [nil]. *)
Definition validateProduct (p : Product) : option Error :=
  if ProductId p <? 1 then
    Some {| error := "INVALID_INPUT"; Message := "Invalid product_id";
            Details := Some "product_id must be >= 1"%string |}
  else if len (Sku p) =? 0 then
    Some {| error := "INVALID_INPUT"; Message := "Missing sku";
            Details := Some "sku is required"%string |}
  else if 100 <? len (Sku p) then
    Some {| error := "INVALID_INPUT"; Message := "Invalid sku";
            Details := Some "sku must be at most 100 characters"%string |}
  else if len (Manufacturer p) =? 0 then
    Some {| error := "INVALID_INPUT"; Message := "Missing manufacturer";
            Details := Some "manufacturer is required"%string |}
  else if 200 <? len (Manufacturer p) then
    Some {| error := "INVALID_INPUT"; Message := "Invalid manufacturer";
            Details := Some "manufacturer must be at most 200 characters"%string |}
  else if CategoryId p <? 1 then
    Some {| error := "INVALID_INPUT"; Message := "Invalid category_id";
            Details := Some "category_id must be >= 1"%string |}
  else if Weight p <? 0 then
    Some {| error := "INVALID_INPUT"; Message := "Invalid weight";
            Details := Some "weight must be >= 0"%string |}
  else if SomeOtherId p <? 1 then
    Some {| error := "INVALID_INPUT"; Message := "Invalid some_other_id";
            Details := Some "some_other_id must be >= 1"%string |}
  else None.

(** [func (s *ProductServer) GetProduct(ctx echo.Context, productId int32) error] *)
Definition GetProduct (s : ProductServer) (productId : Z) : response :=
  if productId <? 1 then
    {| code := StatusBadRequest;
       body := JSONError {| error := "INVALID_INPUT";
                            Message := "Product ID must be a positive integer";
                            Details := None |} |}
  else
    match products s !! productId with
    | None =>
        {| code := StatusNotFound;
           body := JSONError {| error := "NOT_FOUND"; Message := "Product not found";
                                Details := None |} |}
    | Some product => {| code := StatusOK; body := JSONProduct product |}
    end.

(** [func (s *ProductServer) AddProductDetails(ctx echo.Context, productId int32) error].
    [bound] is the outcome of [ctx.Bind(&product)] on the request body:
    the decoded product, or [None] when [Bind] returns an error.  The
    result is the response and the server's store after the call. *)
Definition AddProductDetails (s : ProductServer) (bound : option Product) (productId : Z)
    : response * ProductServer :=
  if productId <? 1 then
    ({| code := StatusBadRequest;
        body := JSONError {| error := "INVALID_INPUT";
                             Message := "Product ID must be a positive integer";
                             Details := None |} |}, s)
  else
    match bound with
    | None =>
        ({| code := StatusBadRequest;
            body := JSONError {| error := "INVALID_INPUT";
                                 Message := "Invalid JSON in request body";
                                 Details := None |} |}, s)
    | Some product =>
        match validateProduct product with
        | Some err => ({| code := StatusBadRequest; body := JSONError err |}, s)
        | None =>
            if negb (ProductId product =? productId) then
              ({| code := StatusBadRequest;
                  body := JSONError
                            {| error := "INVALID_INPUT"; Message := "Product ID mismatch";
                               Details := Some "Product ID in body does not match URL path"%string |} |},
               s)
            else
              ({| code := StatusNoContent; body := NoContent |},
               {| products := <[productId := product]> (products s) |})
        end
    end.

(** The stub endpoints: [ProcessPayment], [CreateShoppingCart],
    [CheckoutCart], [AddItemsToCart], [ReserveInventory], [ShipProduct]. *)
Definition not_implemented (message : string) : response :=
  {| code := StatusNotImplemented;
     body := JSONError {| error := "NOT_IMPLEMENTED"; Message := message; Details := None |} |}.

Definition ProcessPayment (s : ProductServer) : response :=
  not_implemented "Payment processing not implemented".
Definition CreateShoppingCart (s : ProductServer) : response :=
  not_implemented "Shopping cart not implemented".
Definition CheckoutCart (s : ProductServer) (shoppingCartId : Z) : response :=
  not_implemented "Cart checkout not implemented".
Definition AddItemsToCart (s : ProductServer) (shoppingCartId : Z) : response :=
  not_implemented "Add items to cart not implemented".
Definition ReserveInventory (s : ProductServer) : response :=
  not_implemented "Reserve inventory not implemented".
Definition ShipProduct (s : ProductServer) : response :=
  not_implemented "Ship product not implemented".

(** *** The server over a sequence of requests *)

(** The requests the server routes to its handlers.  Each handler reads
    or writes the [sync.Map] in one atomic operation, so requests served
    concurrently act on the store in some order, one after the other. *)
Inductive request : Type :=
| ReqGetProduct (productId : Z)
| ReqAddProductDetails (productId : Z) (bound : option Product)
| ReqProcessPayment
| ReqCreateShoppingCart
| ReqCheckoutCart (shoppingCartId : Z)
| ReqAddItemsToCart (shoppingCartId : Z)
| ReqReserveInventory
| ReqShipProduct.

Definition serve (req : request) (s : ProductServer) : response * ProductServer :=
  match req with
  | ReqGetProduct id => (GetProduct s id, s)
  | ReqAddProductDetails id bound => AddProductDetails s bound id
  | ReqProcessPayment => (ProcessPayment s, s)
  | ReqCreateShoppingCart => (CreateShoppingCart s, s)
  | ReqCheckoutCart id => (CheckoutCart s id, s)
  | ReqAddItemsToCart id => (AddItemsToCart s id, s)
  | ReqReserveInventory => (ReserveInventory s, s)
  | ReqShipProduct => (ShipProduct s, s)
  end.

(** The responses to the requests [reqs], oldest first, and the store
    they leave. *)
Fixpoint serve_all (reqs : list request) (s : ProductServer) : list response * ProductServer :=
  match reqs with
  | [] => ([], s)
  | req :: reqs' =>
      let '(r, s1) := serve req s in
      let '(rs, s2) := serve_all reqs' s1 in
      (r :: rs, s2)
  end.

(** The constraints [validateProduct] checks. *)
Definition valid (p : Product) : Prop :=
  1 <= ProductId p /\
  1 <= len (Sku p) <= 100 /\
  1 <= len (Manufacturer p) <= 200 /\
  1 <= CategoryId p /\
  0 <= Weight p /\
  1 <= SomeOtherId p.

(** Every product held meets the constraints and is stored under its
    own product_id. *)
Definition store_ok (s : ProductServer) : Prop :=
  forall id p, products s !! id = Some p -> valid p /\ ProductId p = id.

(** The product of the README's example request. *)
Definition example_product : Product :=
  {| ProductId := 1; Sku := "ABC-123-XYZ"; Manufacturer := "Acme Corporation";
     CategoryId := 456; Weight := 1250; SomeOtherId := 789 |}.

End api.

(* ===================================================================== *)
(** ** The text splitter service *)
(* ===================================================================== *)

Module split.

(** [c.GetQuery(key)]: the first value given for the key in the query
    string, when there is one. *)
Fixpoint GetQuery (q : list (string * string)) (key : string) : option string :=
  match q with
  | [] => None
  | (k, v) :: q' => if String.eqb k key then Some v else GetQuery q' key
  end.

(** [c.Query(key)] and [c.DefaultQuery(key, defaultValue)]. *)
Definition Query (q : list (string * string)) (key : string) : string :=
  match GetQuery q key with Some v => v | None => EmptyString end.

Definition DefaultQuery (q : list (string * string)) (key defaultValue : string) : string :=
  match GetQuery q key with Some v => v | None => defaultValue end.

(** [strconv.Atoi]: an optional sign followed by one or more decimal
    digits, denoting a number that fits in an [int]; [None] when it
    returns an error. *)
Definition digit (c : ascii) : option Z :=
  let n := nat_of_ascii c in
  if (48 <=? n)%nat && (n <=? 57)%nat then Some (Z.of_nat n - 48) else None.

Fixpoint digits (s : string) (acc : Z) : option Z :=
  match s with
  | EmptyString => Some acc
  | String c s' =>
      match digit c with
      | None => None
      | Some d => digits s' (10 * acc + d)
      end
  end.

Definition Atoi (s : string) : option Z :=
  let '(neg, ds) :=
    match s with
    | String "-"%char s' => (true, s')
    | String "+"%char s' => (false, s')
    | _ => (false, s)
    end in
  match ds with
  | EmptyString => None
  | _ =>
      match digits ds 0 with
      | None => None
      | Some n =>
          let v := if neg then - n else n in
          if (GoInt.min_int <=? v) && (v <=? GoInt.max_int) then Some v else None
      end
  end.

(** [strings.Join(elems, sep)] *)
Fixpoint Join (elems : list string) (sep : string) : string :=
  match elems with
  | [] => EmptyString
  | x :: rest =>
      match rest with
      | [] => x
      | _ => (x ++ sep ++ Join rest sep)%string
      end
  end.

(** The slice expression [l[lo:hi]]; [None] is the run-time panic for
    bounds out of range.  The capacity is taken to be the length, the
    least it can be. *)
Definition slice {X : Type} (l : list X) (lo hi : Z) : option (list X) :=
  if (0 <=? lo) && (lo <=? hi) && (hi <=? Z.of_nat (length l))
  then Some (take (Z.to_nat (hi - lo)) (drop (Z.to_nat lo) l))
  else None.

(** The body [gin.H{...}] of a response: an error message, or the
    summary of a completed split. *)
Inductive H : Type :=
| H_error (error : string)
| H_split (message : string) (chunks : list string) (num_chunks : Z) (bucket : string).

Record response : Type := mkResponse {
  status : Z;
  body : H
}.

(** An object written by [s3Client.PutObject]. *)
Record upload : Type := mkUpload {
  up_bucket : string;
  up_key : string;
  up_body : string
}.

(** What [GetObject] followed by [io.ReadAll] and [string(body)] yields:
    an error of either call, the text, or the end of the process when the
    runtime cannot allocate the memory to hold the body
    ([fatal error: out of memory], which cannot be recovered). *)
Inductive fetched : Type :=
| GetFailed (err : string)
| ReadFailed (err : string)
| Text (text : string)
| Exhausted.

(** The points past the reading of the object at which the handler
    allocates memory in proportion to the text or to [num_chunks]. *)
Inductive allocation : Type :=
| SplitWords            (* strings.Fields(text) *)
| AppendChunk (i : Z)   (* strings.Join(...) and append(chunks, ...) for chunk i *)
| UploadChunk (i : Z)   (* the key and the PutObject request of chunk i *)
| AppendURL (i : Z)     (* the URL of chunk i and append(chunkURLs, ...) *)
| EncodeAnswer.         (* c.JSON of the answer that lists the URLs *)

(** A call of the handler ends with a response, having written some
    objects; with a run-time panic; or with the end of the process for
    lack of memory, having written some objects and sent no response. *)
Inductive outcome : Type :=
| Responded (r : response) (uploads : list upload)
| Panic
| OutOfMemory (uploads : list upload).

(** The objects written in the course of a call. *)
Definition written_objects (o : outcome) : list upload :=
  match o with
  | Responded _ uploads | OutOfMemory uploads => uploads
  | Panic => []
  end.

(** How the loop that builds the chunks ends. *)
Inductive chunking : Type :=
| Chunked (chunks : list string)
| BoundsPanic
| ChunksExhausted.

(** How the loop that uploads the chunks ends. *)
Inductive uploading : Type :=
| Uploaded (chunkURLs : list string) (uploads : list upload)
| UploadFailed (r : response) (uploads : list upload)
| UploadExhausted (uploads : list upload).

Definition StatusOK : Z := 200.
Definition StatusBadRequest : Z := 400.
Definition StatusInternalServerError : Z := 500.

(** [fmt.Sprintf("chunks/chunk_%d.txt", i)] and
    [fmt.Sprintf("s3://%s/%s", bucket, chunkKey)]. *)
Definition chunkKey (i : Z) : string :=
  ("chunks/chunk_" ++ GoFmt.Itoa i ++ ".txt")%string.

Definition chunkURL (bucket : string) (i : Z) : string :=
  ("s3://" ++ bucket ++ "/" ++ chunkKey i)%string.

(** The loop
    [for i := 0; i < numChunks; i++ { ...; chunks = append(chunks, strings.Join(words[start:end], " ")) }],
    with [n] bounding the iterations left. *)
Fixpoint chunk_loop (words : list string) (numChunks chunkSize totalWords : Z)
    (n : nat) (i : Z) (chunks : list string) : option (list string) :=
  match n with
  | O => Some chunks
  | S n' =>
      if i <? numChunks then
        let start := GoInt.wrap (i * chunkSize) in
        let end_ := GoInt.wrap (GoInt.wrap (i + 1) * chunkSize) in
        let end_ := if i =? GoInt.wrap (numChunks - 1) then totalWords else end_ in
        match slice words start end_ with
        | None => None
        | Some ws =>
            chunk_loop words numChunks chunkSize totalWords n' (GoInt.wrap (i + 1))
              (chunks ++ [Join ws " "])
        end
      else Some chunks
  end.


Section Handler.
(** The environment of a request: the object store read through
    [GetObject] and [io.ReadAll]; [strings.Fields]; the outcome of the
    [i]-th [PutObject] call of the request, [Some err] when it fails; and
    whether the runtime finds the memory for each allocation. *)
Variable GetObject : string -> string -> fetched.
Variable Fields : string -> list string.
Variable PutObject : Z -> upload -> option string.
Variable heap : allocation -> bool.

(** The loop
    [for i := 0; i < numChunks; i++ { ...; chunks = append(chunks, strings.Join(words[start:end], " ")) }]
    as the handler runs it: the slice expression is evaluated first, then
    the chunk is joined and appended, for which memory is needed.  It is
    [chunk_loop] in a process that can run out of memory. *)
Fixpoint chunk_loop_heap (words : list string) (numChunks chunkSize totalWords : Z)
    (n : nat) (i : Z) (chunks : list string) : chunking :=
  match n with
  | O => Chunked chunks
  | S n' =>
      if i <? numChunks then
        let start := GoInt.wrap (i * chunkSize) in
        let end_ := GoInt.wrap (GoInt.wrap (i + 1) * chunkSize) in
        let end_ := if i =? GoInt.wrap (numChunks - 1) then totalWords else end_ in
        match slice words start end_ with
        | None => BoundsPanic
        | Some ws =>
            if heap (AppendChunk i) then
              chunk_loop_heap words numChunks chunkSize totalWords n' (GoInt.wrap (i + 1))
                (chunks ++ [Join ws " "])
            else ChunksExhausted
        end
      else Chunked chunks
  end.

(** The loop [for i, chunk := range chunks], from index [i] on. *)
Fixpoint upload_loop (bucket : string) (chunks : list string) (i : Z)
    (chunkURLs : list string) (uploads : list upload) : uploading :=
  match chunks with
  | [] => Uploaded chunkURLs uploads
  | chunk :: rest =>
      if heap (UploadChunk i) then
        let obj := {| up_bucket := bucket; up_key := chunkKey i; up_body := chunk |} in
        match PutObject i obj with
        | Some err =>
            UploadFailed
              {| status := StatusInternalServerError;
                 body := H_error ("failed to upload chunk " ++ GoFmt.Itoa i ++ ": " ++ err) |}
              uploads
        | None =>
            if heap (AppendURL i) then
              upload_loop bucket rest (i + 1) (chunkURLs ++ [chunkURL bucket i])
                (uploads ++ [obj])
            else UploadExhausted (uploads ++ [obj])
        end
      else UploadExhausted uploads
  end.

(** [func splitHandler(c *gin.Context)], on the parsed query string. *)
Definition splitHandler (query : list (string * string)) : outcome :=
  let bucket := Query query "bucket" in
  let key := Query query "key" in
  if String.eqb bucket EmptyString || String.eqb key EmptyString then
    Responded {| status := StatusBadRequest;
                 body := H_error "bucket and key query params required" |} []
  else
    match GetObject bucket key with
    | GetFailed err =>
        Responded {| status := StatusInternalServerError;
                     body := H_error ("failed to get S3 object: " ++ err) |} []
    | ReadFailed err =>
        Responded {| status := StatusInternalServerError;
                     body := H_error ("failed to read body: " ++ err) |} []
    | Exhausted => OutOfMemory []
    | Text text =>
        let numChunksStr := DefaultQuery query "num_chunks" "3" in
        match Atoi numChunksStr with
        | None =>
            Responded {| status := StatusBadRequest;
                         body := H_error "num_chunks must be a positive integer" |} []
        | Some numChunks =>
            if numChunks <? 1 then
              Responded {| status := StatusBadRequest;
                           body := H_error "num_chunks must be a positive integer" |} []
            else if negb (heap SplitWords) then OutOfMemory []
            else
              let words := Fields text in
              let totalWords := Z.of_nat (length words) in
              let chunkSize := Z.quot totalWords numChunks in
              match chunk_loop_heap words numChunks chunkSize totalWords
                      (Z.to_nat numChunks) 0 [] with
              | BoundsPanic => Panic
              | ChunksExhausted => OutOfMemory []
              | Chunked chunks =>
                  match upload_loop bucket chunks 0 [] [] with
                  | UploadFailed r uploads => Responded r uploads
                  | UploadExhausted uploads => OutOfMemory uploads
                  | Uploaded chunkURLs uploads =>
                      if heap EncodeAnswer then
                        Responded
                          {| status := StatusOK;
                             body := H_split "split complete" chunkURLs
                                       (Z.of_nat (length chunks)) bucket |}
                          uploads
                      else OutOfMemory uploads
                  end
              end
        end
    end.

End Handler.

(** A process with memory to spare, and one that cannot hold more than
    [limit] chunks. *)
Definition ample : allocation -> bool := fun _ => true.

Definition chunks_limit (limit : Z) : allocation -> bool :=
  fun a => match a with AppendChunk i => i <? limit | _ => true end.

(** *** Vocabulary for stating what the chunks are *)

(** The [k]-th of [numChunks] parts of a list of words: the words from
    position [k * chunkSize] up to [(k + 1) * chunkSize], or up to the end
    for the last part, where [chunkSize] is the quotient of the number of
    words by [numChunks]. *)
Definition part (words : list string) (numChunks k : Z) : list string :=
  let totalWords := Z.of_nat (length words) in
  let chunkSize := totalWords / numChunks in
  let lo := k * chunkSize in
  let hi := if k =? numChunks - 1 then totalWords else (k + 1) * chunkSize in
  take (Z.to_nat (hi - lo)) (drop (Z.to_nat lo) words).

Definition parts (words : list string) (numChunks : Z) : list (list string) :=
  map (part words numChunks) (seqZ 0 numChunks).

(** The objects the upload loop writes for a list of chunks, numbered
    from [i] on. *)
Fixpoint objects (bucket : string) (chunks : list string) (i : Z) : list upload :=
  match chunks with
  | [] => []
  | chunk :: rest =>
      {| up_bucket := bucket; up_key := chunkKey i; up_body := chunk |}
      :: objects bucket rest (i + 1)
  end.

(** A query and words for examples. *)
Definition sample_query : list (string * string) :=
  [("bucket", "texts"); ("key", "poem.txt"); ("num_chunks", "3")]%string.

Definition sample_words : list string :=
  ["a"; "b"; "c"; "d"; "e"; "f"; "g"]%string.

End split.

(* ===================================================================== *)
(** ** Lost updates of the plain counter *)
(* ===================================================================== *)

Module atomic_counter_history.
Import goroutines atomic_counter.

(** The interleaving in which goroutines 0 and 1 both read the plain
    counter before either writes it back: each makes its [Add], each
    reads, each writes. *)
Definition race : list nat := [0; 1; 0; 1; 0; 1]%nat.

(** The plain counter, and every value read from it and not yet written
    back, is at least [d] behind the number of increments completed. *)
Definition behind (d : Z) (c : config shared worker) : Prop :=
  nonAtomicOps (mem c) + d <= sum_of w_n (threads c) /\
  forall g w, threads c !! g = Some w -> w_pc w = AtWrite ->
    w_reg w + d <= sum_of w_n (threads c).

End atomic_counter_history.

(* ===================================================================== *)
(** ** The store under concurrent callers *)
(* ===================================================================== *)

(** Goroutines calling [Put] on one store.  A call is two atomic
    operations, [s.data.Store(product.ID, product)] and
    [s.count.Add(1)], and the operations of different goroutines
    interleave. *)
Module store_concurrent.
Import model store goroutines.

(** Where a goroutine stands inside a call of [Put]. *)
Inductive pc : Type :=
| AtStore   (* before [s.data.Store] *)
| AtAdd.    (* the entry stored, before [s.count.Add(1)] *)

Record putter : Type := mkPutter {
  done : nat;    (* calls of [Put] completed *)
  at_pc : pc
}.

Section Putters.
(** Goroutine [g] calls [Put] on the products of [jobs !! g], in order. *)
Variable jobs : list (list Product).

Definition putter_step (g : nat) (w : putter) (s : ProductStore)
    : option (putter * ProductStore) :=
  match jobs !! g with
  | None => None
  | Some job =>
      match job !! done w with
      | None => None
      | Some product =>
          match at_pc w with
          | AtStore =>
              Some ({| done := done w; at_pc := AtAdd |},
                    {| data := <[ID product := product]> (data s); count := count s |})
          | AtAdd =>
              Some ({| done := S (done w); at_pc := AtStore |},
                    {| data := data s; count := GoInt.wrap (count s + 1) |})
          end
      end
  end.

(** A goroutine has returned when it has completed all its calls. *)
Definition returned (w : putter) (job : list Product) : Prop :=
  (length job <= done w)%nat.

#[local] Instance returned_dec (w : putter) (job : list Product) : Decision (returned w job) :=
  le_dec (length job) (done w).

Definition all_done (c : config ProductStore putter) : bool :=
  bool_decide (Forall2 returned (threads c) jobs).

Definition init : config ProductStore putter :=
  {| mem := New; threads := replicate (length jobs) {| done := 0; at_pc := AtStore |} |}.

Definition run (schedule : list nat) : config ProductStore putter :=
  exec putter_step schedule init.

(** The entries a goroutine has stored, and the calls completed by all. *)
Definition stored (w : putter) : nat :=
  (done w + match at_pc w with AtAdd => 1 | AtStore => 0 end)%nat.

Fixpoint completed (ws : list putter) : Z :=
  match ws with
  | [] => 0
  | w :: ws' => Z.of_nat (done w) + completed ws'
  end.

Fixpoint stores_made (ws : list putter) : Z :=
  match ws with
  | [] => 0
  | w :: ws' => Z.of_nat (stored w) + stores_made ws'
  end.

(** The product [p] is the [k]-th of goroutine [g], and [g] has stored
    it. *)
Definition has_stored (c : config ProductStore putter) (p : Product) : Prop :=
  exists g w job k,
    threads c !! g = Some w /\ jobs !! g = Some job /\
    job !! k = Some p /\ (k < stored w)%nat.

Record inv (c : config ProductStore putter) : Prop := mkInv {
  inv_length : length (threads c) = length jobs;
  inv_bounds : forall g w job,
      threads c !! g = Some w -> jobs !! g = Some job -> (stored w <= length job)%nat;
  (** no [Add] is lost *)
  inv_count : count (mem c) = completed (threads c);
  (** every entry was stored by some goroutine, under its id *)
  inv_entries : forall id p,
      data (mem c) !! id = Some p -> ID p = id /\ has_stored c p;
  (** and the id of every product stored holds an entry *)
  inv_present : forall p, has_stored c p -> is_Some (data (mem c) !! ID p)
}.

(** The atomic steps still to be taken. *)
Definition steps_left (c : config ProductStore putter) : Z :=
  2 * Z.of_nat (length (concat jobs)) - completed (threads c) - stores_made (threads c).

End Putters.

End store_concurrent.

(* ===================================================================== *)
(** * Properties *)
(* ===================================================================== *)

(** ** Machine integers *)

Module GoInt_facts.
Import GoInt.

Lemma wrap_id z : in_range z -> wrap z = z.
Proof.
  unfold in_range, min_int, max_int, wrap. intros H.
  rewrite Z.mod_small; lia.
Qed.

Lemma wrap_in_range z : in_range (wrap z).
Proof.
  unfold in_range, min_int, max_int, wrap.
  pose proof (Z.mod_pos_bound (z + 2 ^ 63) (2 ^ 64) ltac:(lia)). lia.
Qed.

Lemma wrap_succ z : min_int <= z < max_int -> wrap (z + 1) = z + 1.
Proof.
  intros H. apply wrap_id. unfold in_range, min_int, max_int in *. lia.
Qed.

Lemma wrapu_id z : 0 <= z < 2 ^ 64 -> wrapu z = z.
Proof. intros H. unfold wrapu. apply Z.mod_small. exact H. Qed.

Lemma max_int_val : max_int = 9223372036854775807.
Proof. reflexivity. Qed.

Lemma min_int_val : min_int = -9223372036854775808.
Proof. reflexivity. Qed.

End GoInt_facts.

(* ===================================================================== *)
(** ** The store *)
(* ===================================================================== *)

Module store_facts.
Import model store GoInt_facts.

(** *** Sequences of calls *)

Lemma Get_Put_same s p : Get (Put s p) (ID p) = (p, true).
Proof. unfold Get, Put. simpl. by rewrite lookup_insert_eq. Qed.

Lemma Get_Put_other s p id : ID p <> id -> Get (Put s p) id = Get s id.
Proof. intros Hne. unfold Get, Put. simpl. by rewrite lookup_insert_ne. Qed.

Lemma exec_keeps_key k c s :
  ~ writes_key k c -> Get (snd (exec c s)) k = Get s k.
Proof.
  destruct c as [p | id |]; simpl; intros Hw.
  - apply Get_Put_other. exact Hw.
  - destruct (Get s id). reflexivity.
  - reflexivity.
Qed.

Lemma run_keeps_key k cs : forall s,
  (forall c, In c cs -> ~ writes_key k c) ->
  Get (snd (run cs s)) k = Get s k.
Proof.
  induction cs as [| c cs IH]; intros s Hcs; simpl.
  - reflexivity.
  - destruct (exec c s) as [r s1] eqn:E1.
    destruct (run cs s1) as [rs s2] eqn:E2. simpl.
    assert (Hs1 : s1 = snd (exec c s)) by (rewrite E1; reflexivity).
    assert (Hs2 : s2 = snd (run cs s1)) by (rewrite E2; reflexivity).
    rewrite Hs2, IH.
    + rewrite Hs1. apply exec_keeps_key. apply Hcs. left. reflexivity.
    + intros c' Hin. apply Hcs. right. exact Hin.
Qed.

(** *** The counter and the map after a sequence of [Put] calls *)

Lemma count_fold_Put ps : forall s,
  0 <= count s ->
  count s + Z.of_nat (length ps) <= GoInt.max_int ->
  count (fold_left Put ps s) = count s + Z.of_nat (length ps).
Proof.
  induction ps as [| p ps IH]; intros s H0 Hmax; simpl fold_left.
  - simpl. lia.
  - assert (Hc : count (Put s p) = count s + 1).
    { simpl. apply wrap_succ. unfold GoInt.min_int. simpl length in Hmax. lia. }
    rewrite IH; rewrite Hc; simpl length in *; lia.
Qed.

Lemma count_after_puts ps :
  Z.of_nat (length ps) <= GoInt.max_int ->
  Count (after_puts ps) = Z.of_nat (length ps).
Proof.
  intros H. unfold Count, after_puts.
  rewrite count_fold_Put; simpl; lia.
Qed.

Lemma data_fold_Put ps : forall s,
  (forall id p, data s !! id = Some p -> ID p = id) ->
  forall id p, data (fold_left Put ps s) !! id = Some p -> ID p = id.
Proof.
  induction ps as [| q ps IH]; intros s Hs id p; simpl fold_left.
  - apply Hs.
  - apply IH. intros id' p'. simpl.
    destruct (decide (ID q = id')) as [Heq | Hne].
    + rewrite <- Heq, lookup_insert_eq. by intros [= <-].
    + rewrite lookup_insert_ne by done. apply Hs.
Qed.

(** In a store built by [Put] calls every entry sits under its own ID. *)
Lemma data_after_puts ps id p :
  data (after_puts ps) !! id = Some p -> ID p = id.
Proof.
  apply data_fold_Put. intros id' p'. simpl. by rewrite lookup_empty.
Qed.

Lemma dom_fold_Put ps : forall s,
  dom (data (fold_left Put ps s)) = dom (data s) ∪ keys_written ps.
Proof.
  unfold keys_written.
  induction ps as [| q ps IH]; intros s; simpl fold_left.
  - simpl. by rewrite union_empty_r_L.
  - rewrite IH. simpl. rewrite dom_insert_L.
    rewrite (union_comm_L {[ID q]} (dom (data s))), <- union_assoc_L. reflexivity.
Qed.

(** The map itself holds one entry per distinct key written. *)
Lemma size_data_after_puts ps :
  size (data (after_puts ps)) = size (keys_written ps).
Proof.
  rewrite <- size_dom. unfold after_puts. rewrite dom_fold_Put.
  simpl. by rewrite dom_empty_L, union_empty_l_L.
Qed.

(** *** The loop of [Iterate] *)

Section IterateFacts.
Context {A : Type}.
Variable fn : Product -> A -> bool * A.
Variable s : ProductStore.
Variables total maxCount : Z.
Hypothesis total_small : total < GoInt.max_int.
Hypothesis maxCount_int : maxCount <= GoInt.max_int.

(** With the bound [Z.to_nat (total - id + 1)], [iterate_loop] satisfies
    the equation of the [for] loop: test the guard, run the body,
    increment [id], loop. *)
Lemma iterate_loop_unfold id visited st :
  GoInt.min_int <= id -> 0 <= visited ->
  iterate_loop fn s total maxCount (Z.to_nat (total - id + 1)) id visited st =
  if (id <=? total) && (visited <? maxCount) then
    match data s !! id with
    | None =>
        iterate_loop fn s total maxCount (Z.to_nat (total - (id + 1) + 1)) (id + 1) visited st
    | Some val =>
        let '(continue, st') := fn val st in
        if continue
        then iterate_loop fn s total maxCount (Z.to_nat (total - (id + 1) + 1)) (id + 1)
               (visited + 1) st'
        else (visited + 1, st')
    end
  else (visited, st).
Proof.
  intros Hid Hv.
  destruct (id <=? total) eqn:Hle; simpl andb.
  - apply Z.leb_le in Hle.
    replace (Z.to_nat (total - id + 1)) with (S (Z.to_nat (total - (id + 1) + 1))) by lia.
    simpl iterate_loop. apply Z.leb_le in Hle. rewrite Hle. simpl andb.
    apply Z.leb_le in Hle.
    destruct (visited <? maxCount) eqn:Hlt; [| reflexivity].
    apply Z.ltb_lt in Hlt.
    rewrite (wrap_succ id) by lia.
    rewrite (wrap_succ visited) by (unfold GoInt.min_int; lia).
    reflexivity.
  - apply Z.leb_gt in Hle.
    replace (Z.to_nat (total - id + 1)) with O by lia. reflexivity.
Qed.

Lemma visit_upto_full l visited (st : A) :
  ~ visited < maxCount -> visit_upto fn maxCount l visited st = (visited, st).
Proof.
  intros H. destruct l as [| p l]; simpl; [reflexivity |].
  destruct (visited <? maxCount) eqn:E; [| reflexivity].
  apply Z.ltb_lt in E. contradiction.
Qed.

(** The loop calls [fn] on the entries found under the ids
    [id, ..., total], in that order. *)
Lemma iterate_loop_visit n : forall id visited st,
  n = Z.to_nat (total - id + 1) ->
  GoInt.min_int <= id -> 0 <= visited ->
  iterate_loop fn s total maxCount n id visited st =
  visit_upto fn maxCount
    (omap (fun i => data s !! i) (seqZ id (total - id + 1))) visited st.
Proof.
  induction n as [| n IH]; intros id visited st Hn Hid Hv.
  - rewrite seqZ_nil by lia. reflexivity.
  - rewrite seqZ_cons by lia. simpl iterate_loop.
    assert (Hle : id <= total) by lia.
    apply Z.leb_le in Hle. rewrite Hle. simpl andb. apply Z.leb_le in Hle.
    replace (Z.pred (total - id + 1)) with (total - Z.succ id + 1) by lia.
    rewrite (wrap_succ id) by lia.
    destruct (visited <? maxCount) eqn:Hlt.
    + apply Z.ltb_lt in Hlt.
      rewrite (wrap_succ visited) by (unfold GoInt.min_int; lia).
      simpl omap. destruct (data s !! id) as [val |] eqn:Hd.
      * simpl visit_upto. apply Z.ltb_lt in Hlt. rewrite Hlt.
        destruct (fn val st) as [c st'].
        destruct c; [| reflexivity].
        apply IH; lia.
      * apply IH; lia.
    + apply Z.ltb_ge in Hlt. symmetry. apply visit_upto_full. lia.
Qed.

End IterateFacts.

Lemma Iterate_visit {A : Type} (fn : Product -> A -> bool * A) s startID maxCount st :
  count s < GoInt.max_int -> GoInt.min_int <= startID -> maxCount <= GoInt.max_int ->
  Iterate s startID maxCount fn st = visit_upto fn maxCount (present s startID) 0 st.
Proof.
  intros Hc Hs Hm. unfold Iterate, present.
  apply iterate_loop_visit; auto; lia.
Qed.

(** What the instrumented callback logs during a visit: the log grows by
    a prefix of the list, the count grows by as many, every call but the
    last asked to continue, and the visit ends only at the end of the
    list, at [maxCount], or on a stop signal. *)
Lemma visit_upto_recording {A : Type} (fn : Product -> A -> bool * A) maxCount l :
  forall visited tr st,
  exists ext st',
    visit_upto (recording fn) maxCount l visited (tr, st)
      = (visited + Z.of_nat (length ext), (tr ++ ext, st')) /\
    visit_upto fn maxCount l visited st = (visited + Z.of_nat (length ext), st') /\
    map fst ext `prefix_of` l /\
    (ext <> [] -> visited + Z.of_nat (length ext) <= maxCount) /\
    (forall i p, ext !! i = Some (p, false) -> S i = length ext) /\
    (map fst ext = l \/ maxCount <= visited + Z.of_nat (length ext)
     \/ exists p, last ext = Some (p, false)).
Proof.
  induction l as [| p l IH]; intros visited tr st.
  - exists [], st. simpl. rewrite app_nil_r, Z.add_0_r.
    split; [reflexivity |]. split; [reflexivity |].
    split; [apply prefix_nil |]. split; [done |]. split; [done |].
    by left.
  - simpl visit_upto.
    destruct (visited <? maxCount) eqn:Hlt.
    + apply Z.ltb_lt in Hlt.
      unfold recording at 1. simpl snd. simpl fst.
      destruct (fn p st) as [c st1].
      destruct c.
      * destruct (IH (visited + 1) (tr ++ [(p, true)]) st1)
          as (ext & st' & E1 & E2 & Hpre & Hmax & Hstop & Hend).
        exists ((p, true) :: ext), st'.
        rewrite E1, E2. simpl length. rewrite <- app_assoc. simpl app.
        replace (visited + 1 + Z.of_nat (length ext))
          with (visited + Z.of_nat (S (length ext))) by lia.
        repeat split.
        -- simpl map. by apply prefix_cons.
        -- intros _. destruct ext as [| e ext]; [simpl; lia |].
           specialize (Hmax ltac:(done)). lia.
        -- intros [| i] q Hq; simpl in Hq; [done |].
           f_equal. by apply (Hstop i q).
        -- destruct Hend as [Hall | [Hfull | [q Hq]]].
           ++ left. simpl. by rewrite Hall.
           ++ right; left. lia.
           ++ right; right. exists q. destruct ext; [done |]. exact Hq.
      * exists [(p, false)], st1. simpl length. simpl app.
        repeat split.
        -- simpl map. apply prefix_cons, prefix_nil.
        -- intros _. lia.
        -- intros [| i] q Hq; simpl in Hq; done.
        -- right; right. by exists p.
    + apply Z.ltb_ge in Hlt.
      exists [], st. simpl. rewrite app_nil_r, Z.add_0_r.
      split; [reflexivity |]. split; [reflexivity |].
      split; [apply prefix_nil |]. split; [done |]. split; [done |].
      right; left. lia.
Qed.

Lemma present_spec s startID p :
  In p (present s startID) ->
  exists id, startID <= id <= Count s /\ data s !! id = Some p.
Proof.
  unfold present. rewrite <- list_elem_of_In, list_elem_of_omap.
  intros (id & Hid & Hd). exists id. split; [| exact Hd].
  apply elem_of_seqZ in Hid. unfold Count. lia.
Qed.

(** *** Count *)

(** C2 (the code departs from it).  [Count] reports the number of [Put]
    calls, not the number of entries: after [Put(widget)] and
    [Put(widget_v2)], which share ID 1, the map holds one entry (the
    second product: last write wins) and one distinct key was written,
    yet [Count()] is 2. *)
Theorem Count_counts_calls_not_entries :
  let s := after_puts [widget; widget_v2] in
  Count s = 2 /\
  size (keys_written [widget; widget_v2]) = 1%nat /\
  size (data s) = 1%nat /\
  Get s 1 = (widget_v2, true) /\
  fst (run [CallPut widget; CallPut widget_v2; CallCount] New) = [RetPut; RetPut; RetCount 2].
Proof.
  split; [reflexivity |]. split; [reflexivity |].
  split; [| split; reflexivity].
  rewrite size_data_after_puts. reflexivity.
Qed.

(** *** Put then Get *)

(** C3.  After [Put(p)], and then any calls none of which is a [Put] of a
    product with the ID of [p], [Get(p.ID)] returns [(p, true)] (and
    leaves the store as it found it). *)
Theorem Get_after_Put (s : ProductStore) (p : Product) (cs : list call) :
  (forall c, In c cs -> ~ writes_key (ID p) c) ->
  let s1 := snd (exec (CallPut p) s) in
  let s2 := snd (run cs s1) in
  Get s2 (ID p) = (p, true) /\
  exec (CallGet (ID p)) s2 = (RetGet p true, s2).
Proof.
  intros Hcs s1 s2.
  assert (HG : Get s2 (ID p) = (p, true)).
  { unfold s2. rewrite run_keeps_key by exact Hcs.
    unfold s1. simpl. apply Get_Put_same. }
  split; [exact HG |]. simpl. rewrite HG. reflexivity.
Qed.

Lemma Get_after_Put_witness :
  (forall c, In c [CallGet 7; CallPut gadget; CallCount] -> ~ writes_key (ID widget) c) /\
  exec (CallGet 1)
    (snd (run [CallGet 7; CallPut gadget; CallCount] (snd (exec (CallPut widget) New))))
  = (RetGet widget true,
     snd (run [CallGet 7; CallPut gadget; CallCount] (snd (exec (CallPut widget) New)))).
Proof.
  assert (H : forall c, In c [CallGet 7; CallPut gadget; CallCount] ->
                        ~ writes_key (ID widget) c).
  { intros c [<- | [<- | [<- | []]]]; simpl; intros Hk; [exact Hk | discriminate Hk | exact Hk]. }
  split; [exact H |].
  exact (proj2 (Get_after_Put New widget [CallGet 7; CallPut gadget; CallCount] H)).
Defined.

(** *** Get on an absent key *)

(** C6.  [Get] on an id under which nothing is stored returns the zero
    product and [false]; as a call on the store object it returns that
    reply and leaves the store unchanged. *)
Theorem Get_absent (s : ProductStore) (id : Z) :
  data s !! id = None ->
  Get s id = (zero, false) /\
  exec (CallGet id) s = (RetGet zero false, s).
Proof.
  intros H. assert (HG : Get s id = (zero, false)).
  { unfold Get. rewrite H. reflexivity. }
  split; [exact HG |]. simpl. rewrite HG. reflexivity.
Qed.

Lemma Get_absent_witness :
  data (after_puts [widget; gadget]) !! 3 = None /\
  Get (after_puts [widget; gadget]) 3 = (zero, false) /\
  exec (CallGet 3) (after_puts [widget; gadget])
    = (RetGet zero false, after_puts [widget; gadget]).
Proof.
  assert (H : data (after_puts [widget; gadget]) !! 3 = None) by reflexivity.
  split; [exact H |].
  exact (Get_absent (after_puts [widget; gadget]) 3 H).
Defined.

(** *** Iterate *)

(** C8.  On the store built by the [Put] calls [ps], [Iterate] with the
    callback [fn] (instrumented to log its calls in [tr]):
    - returns the number of callback invocations, which is at most
      [maxCount] (and 0 when [maxCount] is negative);
    - invokes the callback on a prefix of the entries present under the
      ids [startID .. Count()], in increasing order of id, absent ids
      being skipped without being counted;
    - every visited entry has its ID in [[startID, Count()]], where
      [Count()] is the number of [Put] calls;
    - every callback invocation but the last returned [true]: a [false]
      ends the iteration at once;
    - the iteration ends only when the range is exhausted, [maxCount] is
      reached or the callback returned [false];
    - an entry whose ID exceeds the number of [Put] calls is never
      visited. *)
Theorem Iterate_examines_ids_up_to_Count {A : Type}
    (fn : Product -> A -> bool * A) (st : A)
    (ps : list Product) (startID maxCount : Z) :
  Z.of_nat (length ps) < GoInt.max_int ->
  GoInt.in_range startID ->
  GoInt.in_range maxCount ->
  exists (visited : Z) (tr : list (Product * bool)) (st' : A),
    Iterate (after_puts ps) startID maxCount (recording fn) ([], st) = (visited, (tr, st')) /\
    Iterate (after_puts ps) startID maxCount fn st = (visited, st') /\
    Count (after_puts ps) = Z.of_nat (length ps) /\
    visited = Z.of_nat (length tr) /\
    visited <= Z.max 0 maxCount /\
    (0 <= maxCount -> visited <= maxCount) /\
    map fst tr `prefix_of` present (after_puts ps) startID /\
    (forall p c, In (p, c) tr ->
       startID <= ID p <= Count (after_puts ps) /\ Get (after_puts ps) (ID p) = (p, true)) /\
    (forall i p, tr !! i = Some (p, false) -> S i = length tr) /\
    (map fst tr = present (after_puts ps) startID \/ maxCount <= visited
     \/ exists p, last tr = Some (p, false)) /\
    (forall q, Z.of_nat (length ps) < ID q -> ~ In q (map fst tr)).
Proof.
  intros Hlen [Hs1 Hs2] [Hm1 Hm2].
  assert (Hcount : Count (after_puts ps) = Z.of_nat (length ps))
    by (apply count_after_puts; lia).
  assert (Hc : count (after_puts ps) < GoInt.max_int)
    by (unfold Count in Hcount; rewrite Hcount; exact Hlen).
  destruct (visit_upto_recording fn maxCount (present (after_puts ps) startID) 0 [] st)
    as (tr & st' & E1 & E2 & Hpre & Hmax & Hstop & Hend).
  simpl app in E1. rewrite Z.add_0_l in *.
  assert (Hin : forall p c, In (p, c) tr ->
            startID <= ID p <= Count (after_puts ps) /\ data (after_puts ps) !! ID p = Some p).
  { intros p c Hp.
    assert (Hp' : In p (present (after_puts ps) startID)).
    { apply list_elem_of_In. eapply elem_of_prefix; [| exact Hpre].
      apply list_elem_of_In. apply (in_map fst) in Hp. exact Hp. }
    apply present_spec in Hp' as (id & Hid & Hd).
    pose proof (data_after_puts _ _ _ Hd) as Heq. rewrite Heq. split; [exact Hid | exact Hd]. }
  exists (Z.of_nat (length tr)), tr, st'.
  rewrite !Iterate_visit by assumption.
  split; [exact E1 |]. split; [exact E2 |]. split; [exact Hcount |].
  split; [reflexivity |].
  assert (Hcap : Z.of_nat (length tr) <= Z.max 0 maxCount)
    by (destruct tr; [simpl; lia | specialize (Hmax ltac:(done)); lia]).
  split; [exact Hcap |]. split; [lia |].
  split; [exact Hpre |].
  split.
  { intros p c Hp. destruct (Hin p c Hp) as [Hr Hd]. split; [exact Hr |].
    unfold Get. rewrite Hd. reflexivity. }
  split; [exact Hstop |]. split; [exact Hend |].
  intros q Hq Hqin. apply in_map_iff in Hqin as ([q' c] & Heq & Hqin). simpl in Heq. subst q'.
  destruct (Hin q c Hqin) as [Hr _]. rewrite Hcount in Hr. lia.
Qed.


Lemma Iterate_examines_ids_up_to_Count_witness :
  Z.of_nat (length [widget; stray; gadget]) < GoInt.max_int /\
  GoInt.in_range 1 /\ GoInt.in_range 10 /\
  exists visited tr st',
    Iterate (after_puts [widget; stray; gadget]) 1 10 (recording (stop_at "none")) ([], 0%nat)
      = (visited, (tr, st')) /\
    Iterate (after_puts [widget; stray; gadget]) 1 10 (stop_at "none") 0%nat = (visited, st') /\
    Count (after_puts [widget; stray; gadget]) = 3 /\
    (forall q, 3 < ID q -> ~ In q (map fst tr)).
Proof.
  assert (H1 : Z.of_nat (length [widget; stray; gadget]) < GoInt.max_int) by (vm_compute; reflexivity).
  assert (H2 : GoInt.in_range 1) by (split; vm_compute; discriminate).
  assert (H3 : GoInt.in_range 10) by (split; vm_compute; discriminate).
  split; [exact H1 |]. split; [exact H2 |]. split; [exact H3 |].
  destruct (Iterate_examines_ids_up_to_Count (stop_at "none") 0%nat
              [widget; stray; gadget] 1 10 H1 H2 H3)
    as (visited & tr & st' & E1 & E2 & E3 & _ & _ & _ & _ & _ & _ & _ & E4).
  exists visited, tr, st'. split; [exact E1 |]. split; [exact E2 |].
  split; [exact E3 |]. exact E4.
Defined.

(** The stray entry is in the map but [Iterate] passes over ids 1, 2, 3
    only. *)
Example Iterate_stray :
  Get (after_puts [widget; stray; gadget]) 9 = (stray, true) /\
  Iterate (after_puts [widget; stray; gadget]) 1 10 (recording (stop_at "none")) ([], 0%nat)
  = (2, ([(widget, true); (gadget, true)], 2%nat)).
Proof. split; reflexivity. Qed.

Example Iterate_stops :
  Iterate (after_puts [widget; stray; gadget]) 1 10 (recording (stop_at "Widget")) ([], 0%nat)
  = (1, ([(widget, false)], 1%nat)).
Proof. reflexivity. Qed.

End store_facts.

(* ===================================================================== *)
(** ** The bounded search *)
(* ===================================================================== *)

Module search_facts.
Import model store search GoInt_facts store_facts.

(** [Contains] is substring search. *)
Lemma prefix_split p : forall s,
  String.prefix p s = true <-> exists post, s = (p ++ post)%string.
Proof.
  induction p as [| a p IH]; intros s.
  - split; [intros _; exists s; reflexivity | intros _; destruct s; reflexivity].
  - destruct s as [| b s]; simpl.
    + split; [discriminate | intros [post H]; discriminate H].
    + destruct (ascii_dec a b) as [-> | Hne].
      * rewrite IH. split; intros [post H]; exists post.
        -- by rewrite H.
        -- by injection H.
      * split; [discriminate | intros [post H]; injection H as H1 H2; congruence].
Qed.

Lemma Contains_unfold s substr :
  Contains s substr =
  if String.prefix substr s then true
  else match s with
       | EmptyString => false
       | String _ s' => Contains s' substr
       end.
Proof. destruct s; reflexivity. Qed.

Lemma Contains_split s : forall substr,
  Contains s substr = true <-> exists pre post, s = (pre ++ substr ++ post)%string.
Proof.
  induction s as [| a s IH]; intros substr; rewrite Contains_unfold.
  - destruct (String.prefix substr EmptyString) eqn:E.
    + apply prefix_split in E as [post E].
      split; [intros _; exists EmptyString, post; exact E | reflexivity].
    + split; [discriminate |]. intros (pre & post & H).
      destruct pre; simpl in H; [| discriminate H].
      assert (String.prefix substr EmptyString = true) by (apply prefix_split; eauto).
      congruence.
  - destruct (String.prefix substr (String a s)) eqn:E.
    + apply prefix_split in E as [post E].
      split; [intros _; exists EmptyString, post; exact E | reflexivity].
    + rewrite IH. split.
      * intros (pre & post & H). exists (String a pre), post. simpl. by rewrite H.
      * intros (pre & post & H). destruct pre as [| b pre]; simpl in H.
        -- assert (String.prefix substr (String a s) = true) by (apply prefix_split; eauto).
           congruence.
        -- exists pre, post. by injection H.
Qed.

Lemma length_omap_le {X Y : Type} (f : X -> option Y) (l : list X) :
  (length (omap f l) <= length l)%nat.
Proof.
  induction l as [| x l IH]; [simpl; lia |].
  change (omap f (x :: l)) with (match f x with Some y => y :: omap f l | None => omap f l end).
  destruct (f x); simpl length; lia.
Qed.

Lemma length_present s startID :
  Z.of_nat (length (present s startID)) <= Z.max 0 (count s - startID + 1).
Proof.
  unfold present.
  pose proof (length_omap_le (fun id => data s !! id) (seqZ startID (count s - startID + 1))) as H.
  rewrite length_seqZ in H. lia.
Qed.

Section ExecuteFacts.
Variable ToLower : string -> string.
Variable queryLower : string.

(** The closure never stops the iteration: over a list it checks the
    first [maxCount - visited] products, counts the matches among them in
    [totalFound] and keeps the first matches up to [MaxResults]. *)
Lemma visit_callback maxCount l : forall visited matches totalFound,
  0 <= totalFound ->
  totalFound + Z.of_nat (length l) <= GoInt.max_int ->
  visit_upto (callback ToLower queryLower) maxCount l visited (matches, totalFound) =
  let checked := take (Z.to_nat (maxCount - visited)) l in
  (visited + Z.of_nat (length checked),
   (matches ++ take (Z.to_nat (MaxResults - Z.of_nat (length matches)))
                 (List.filter (is_match ToLower queryLower) checked),
    totalFound + Z.of_nat (length (List.filter (is_match ToLower queryLower) checked)))).
Proof.
  induction l as [| p l IH]; intros visited matches tf Htf Hmax; simpl visit_upto.
  - rewrite take_nil. simpl. rewrite take_nil, app_nil_r, !Z.add_0_r. reflexivity.
  - destruct (visited <? maxCount) eqn:Hlt.
    + apply Z.ltb_lt in Hlt.
      replace (Z.to_nat (maxCount - visited)) with (S (Z.to_nat (maxCount - (visited + 1)))) by lia.
      simpl length in Hmax.
      cbn zeta. rewrite firstn_cons. simpl List.filter. unfold callback at 1.
      destruct (is_match ToLower queryLower p) eqn:Hm.
      * rewrite (wrap_succ tf) by (unfold GoInt.min_int; lia).
        rewrite IH by lia. cbn zeta. simpl length.
        f_equal; [lia |]. f_equal; [| lia].
        destruct (Z.of_nat (length matches) <? MaxResults) eqn:Hfull.
        -- apply Z.ltb_lt in Hfull. rewrite length_app. simpl length.
           replace (Z.to_nat (MaxResults - Z.of_nat (length matches)))
             with (S (Z.to_nat (MaxResults - Z.of_nat (length matches + 1)))) by lia.
           rewrite firstn_cons, <- app_assoc. reflexivity.
        -- apply Z.ltb_ge in Hfull.
           replace (Z.to_nat (MaxResults - Z.of_nat (length matches))) with O by lia.
           rewrite !take_0. reflexivity.
      * rewrite IH by lia. cbn zeta. simpl length. f_equal. lia.
    + apply Z.ltb_ge in Hlt.
      replace (Z.to_nat (maxCount - visited)) with O by lia.
      rewrite take_0. simpl. rewrite take_nil, app_nil_r, !Z.add_0_r. reflexivity.
Qed.

End ExecuteFacts.

(** The closure's test decides the match. *)
Lemma is_match_matches ToLower query p :
  is_match ToLower (ToLower query) p = true <-> matches ToLower query p.
Proof.
  unfold is_match, matches, occurs. rewrite orb_true_iff, !Contains_split. reflexivity.
Qed.

Lemma selected_filter {X : Type} (P : X -> Prop) (f : X -> bool) (l : list X) :
  (forall x, f x = true <-> P x) -> selected P l (List.filter f l).
Proof.
  intros Hf. induction l as [| x l IH]; simpl; [constructor |].
  destruct (f x) eqn:E.
  - apply selected_keep; [apply Hf; exact E | exact IH].
  - apply selected_skip; [| exact IH]. intros HP. apply Hf in HP. congruence.
Qed.

(** [selected] determines the list it selects. *)
Lemma selected_unique {X : Type} (P : X -> Prop) (l found found' : list X) :
  selected P l found -> selected P l found' -> found = found'.
Proof.
  intros H. revert found'. induction H as [| x l found HP H IH | x l found HP H IH];
    intros found' H'; inversion H'; subst; try contradiction; try reflexivity.
  - f_equal. apply IH. assumption.
  - apply IH. assumption.
Qed.

(** C9.  While the store's counter is below the largest [int], the result
    of [Execute] is determined by the products checked, which are the
    first [MaxCheck] entries present under the ids [1 .. Count()].  Let
    [found] be the matches among them, in order: the checked products
    whose lower-cased name or lower-cased category contains the
    lower-cased query, and no other.  [Products] holds the first
    [MaxResults] of [found], so at most 20 products, each a checked
    product that matches; [TotalFound] is the length of [found], the
    number of all matches among the products checked, hence at least the
    number returned; [Checked] is the number of products checked, at most
    100. *)
Theorem Execute_bounded (ToLower : string -> string)
    (s : ProductStore) (query searchTime : string) :
  count s < GoInt.max_int ->
  let r := Execute ToLower s query searchTime in
  let checked := take (Z.to_nat MaxCheck) (present s 1) in
  exists found : list Product,
    selected (matches ToLower query) checked found /\
    Products r = take (Z.to_nat MaxResults) found /\
    Z.of_nat (length (Products r)) <= MaxResults /\
    MaxResults = 20 /\
    (forall p, In p (Products r) -> In p checked /\ matches ToLower query p) /\
    (forall p, In p checked -> matches ToLower query p -> In p found) /\
    TotalFound r = Z.of_nat (length found) /\
    Z.of_nat (length (Products r)) <= TotalFound r /\
    Checked r = Z.of_nat (length checked) /\
    Checked r <= MaxCheck /\
    MaxCheck = 100 /\
    (forall p, is_match ToLower (ToLower query) p = true <-> matches ToLower query p).
Proof.
  intros Hc r checked.
  set (q := ToLower query).
  assert (Hr : r = {| Products := take (Z.to_nat MaxResults) (List.filter (is_match ToLower q) checked);
                      TotalFound := Z.of_nat (length (List.filter (is_match ToLower q) checked));
                      SearchTime := searchTime;
                      Checked := Z.of_nat (length checked) |}).
  { unfold r, Execute. fold q.
    rewrite Iterate_visit
      by (try exact Hc; unfold GoInt.min_int, GoInt.max_int, MaxCheck; lia).
    rewrite visit_callback.
    - cbn zeta. simpl app. rewrite !Z.add_0_l.
      replace (MaxCheck - 0) with MaxCheck by lia.
      replace (MaxResults - Z.of_nat (length (@nil Product))) with MaxResults by (simpl; lia).
      reflexivity.
    - lia.
    - pose proof (length_present s 1). unfold GoInt.max_int in *. lia. }
  exists (List.filter (is_match ToLower q) checked).
  rewrite Hr. simpl Products. simpl TotalFound. simpl Checked.
  split; [apply selected_filter; intros p; apply is_match_matches |].
  split; [reflexivity |].
  split; [rewrite length_take; unfold MaxResults; lia |].
  split; [reflexivity |].
  split.
  { intros p Hp.
    assert (Hp' : In p (List.filter (is_match ToLower q) checked)).
    { apply list_elem_of_In. eapply elem_of_prefix; [| apply prefix_take].
      apply list_elem_of_In. exact Hp. }
    apply filter_In in Hp' as [Hin Hm]. split; [exact Hin |].
    apply is_match_matches. exact Hm. }
  split.
  { intros p Hin Hm. apply filter_In. split; [exact Hin |].
    apply is_match_matches. exact Hm. }
  split; [reflexivity |].
  split; [rewrite length_take; lia |].
  split; [reflexivity |].
  split; [unfold checked; rewrite length_take; unfold MaxCheck; lia |].
  split; [reflexivity |].
  intros p. apply is_match_matches.
Qed.

(** Three products are put, the third under id 9, beyond [Count()]; the
    query [WID] matches the name of the first, the query [TOY] the
    category of the second. *)
Lemma Execute_bounded_witness :
  count (after_puts [widget; gadget; stray]) < GoInt.max_int /\
  Execute ascii_ToLower (after_puts [widget; gadget; stray]) "WID" "1ms"
  = {| Products := [widget]; TotalFound := 1; SearchTime := "1ms"; Checked := 2 |} /\
  Execute ascii_ToLower (after_puts [widget; gadget; stray]) "TOY" "1ms"
  = {| Products := [gadget]; TotalFound := 1; SearchTime := "1ms"; Checked := 2 |} /\
  exists found : list Product,
    selected (matches ascii_ToLower "TOY")
      (take (Z.to_nat MaxCheck) (present (after_puts [widget; gadget; stray]) 1)) found /\
    TotalFound (Execute ascii_ToLower (after_puts [widget; gadget; stray]) "TOY" "1ms")
    = Z.of_nat (length found).
Proof.
  assert (H : count (after_puts [widget; gadget; stray]) < GoInt.max_int)
    by (vm_compute; reflexivity).
  split; [exact H |]. split; [vm_compute; reflexivity |]. split; [vm_compute; reflexivity |].
  destruct (Execute_bounded ascii_ToLower (after_puts [widget; gadget; stray]) "TOY" "1ms" H)
    as (found & Hsel & _ & _ & _ & _ & _ & Htotal & _).
  exists found. split; [exact Hsel | exact Htotal].
Defined.

End search_facts.

(* ===================================================================== *)
(** ** The seed loader *)
(* ===================================================================== *)

Module seeddata_facts.
Import seeddata.

Lemma is_empty_true s : is_empty s = true <-> s = EmptyString.
Proof. destruct s; simpl; split; congruence. Qed.

Lemma seed_of_Brand p :
  Brand (seed_of p) <> EmptyString /\
  (p_Brand p = EmptyString -> Brand (seed_of p) = "Generic"%string) /\
  (p_Brand p <> EmptyString -> Brand (seed_of p) = p_Brand p).
Proof.
  unfold seed_of. simpl. destruct (p_Brand p) as [| a b]; simpl.
  - repeat split; congruence.
  - repeat split; congruence.
Qed.

(** [Load] returns exactly when the fetch succeeds with status 200, the
    body is read and decoded, and the catalog is not empty; it then
    returns the seeds of the decoded products, in order. *)
Lemma Load_Returned get unmarshal seeds :
  Load get unmarshal = Returned seeds <->
  exists resp body apiResp,
    get = Some resp /\ StatusCode resp = StatusOK /\ Body resp = Some body /\
    unmarshal body = Some apiResp /\
    r_Products apiResp <> [] /\
    seeds = map seed_of (r_Products apiResp).
Proof.
  unfold Load. split.
  - destruct get as [resp |]; [| discriminate].
    destruct (StatusCode resp =? StatusOK) eqn:Hs; simpl; [| discriminate].
    apply Z.eqb_eq in Hs.
    destruct (Body resp) as [body |] eqn:Hb; [| discriminate].
    destruct (unmarshal body) as [apiResp |] eqn:Hu; [| discriminate].
    destruct (r_Products apiResp) as [| p ps] eqn:Hp; simpl; [discriminate |].
    intros [= <-]. exists resp, body, apiResp. rewrite Hp.
    repeat split; auto.
  - intros (resp & body & apiResp & -> & Hs & Hb & Hu & Hne & ->).
    apply Z.eqb_eq in Hs. rewrite Hs, Hb, Hu. simpl.
    destruct (r_Products apiResp); [contradiction | reflexivity].
Qed.

(** C10.  Whenever [Load] returns, every seed it returns has a non-empty
    [Brand]: the seeds are the fetched products converted one by one, a
    product with an empty brand becoming a seed of brand "Generic" and
    any other keeping its brand. *)
Theorem Load_Brand_nonempty (get : option response)
    (unmarshal : string -> option dummyJSONResponse) (seeds : list SeedProduct) :
  Load get unmarshal = Returned seeds ->
  Forall (fun sd => Brand sd <> EmptyString) seeds /\
  exists resp body apiResp,
    get = Some resp /\ Body resp = Some body /\ unmarshal body = Some apiResp /\
    Forall2 (fun p sd =>
               sd = seed_of p /\
               (p_Brand p = EmptyString -> Brand sd = "Generic"%string) /\
               (p_Brand p <> EmptyString -> Brand sd = p_Brand p))
            (r_Products apiResp) seeds.
Proof.
  intros H. apply Load_Returned in H
    as (resp & body & apiResp & Hg & _ & Hb & Hu & _ & ->).
  split.
  - apply List.Forall_forall. intros sd Hin. apply in_map_iff in Hin as (p & <- & _).
    apply seed_of_Brand.
  - exists resp, body, apiResp. repeat split; try assumption.
    induction (r_Products apiResp) as [| p ps IH]; simpl; constructor; [| exact IH].
    split; [reflexivity |]. apply seed_of_Brand.
Qed.


Lemma Load_Brand_nonempty_witness :
  Load (Some {| StatusCode := 200; Body := Some "{...}"%string |})
       (fun _ => Some sample_catalog) = Returned sample_seeds /\
  Forall (fun sd => Brand sd <> EmptyString) sample_seeds.
Proof.
  assert (H : Load (Some {| StatusCode := 200; Body := Some "{...}"%string |})
                   (fun _ => Some sample_catalog) = Returned sample_seeds) by reflexivity.
  split; [exact H |].
  exact (proj1 (Load_Brand_nonempty _ _ _ H)).
Defined.

Example Load_bad_status :
  Load (Some {| StatusCode := 503; Body := Some "unavailable"%string |}) (fun _ => Some sample_catalog)
  = Fatal "DummyJSON returned status".
Proof. reflexivity. Qed.

Example Load_empty_catalog :
  Load (Some {| StatusCode := 200; Body := Some "{}"%string |})
       (fun _ => Some {| r_Products := []; r_Total := 0 |})
  = Fatal "No seed products fetched".
Proof. reflexivity. Qed.

End seeddata_facts.

(* ===================================================================== *)
(** ** Schedules *)
(* ===================================================================== *)

Module goroutines_facts.
Import goroutines.

(** Looking up a list of goroutine states after one was replaced. *)
Lemma lookup_set {A : Type} (l : list A) (g : nat) (w w' : A) (g' : nat) (x : A) :
  l !! g = Some w ->
  <[g := w']> l !! g' = Some x <-> (g' = g /\ x = w') \/ (g' <> g /\ l !! g' = Some x).
Proof.
  intros Hg. rewrite list_lookup_insert_Some.
  apply lookup_lt_Some in Hg. split.
  - intros [(-> & -> & _) | [Hne Hl]]; [left | right]; auto.
  - intros [[-> ->] | [Hne Hl]]; [left | right]; auto.
Qed.

Section SchedulerFacts.
Context {shared local : Type}.
Variable step1 : nat -> local -> shared -> option (local * shared).

Lemma step_thread_inv g c c' :
  step_thread step1 g c = Some c' ->
  exists l l' sh',
    threads c !! g = Some l /\
    step1 g l (mem c) = Some (l', sh') /\
    c' = {| mem := sh'; threads := <[g := l']> (threads c) |}.
Proof.
  unfold step_thread. destruct (threads c !! g) as [l |]; [| discriminate].
  destruct (step1 g l (mem c)) as [[l' sh'] |] eqn:E; [| discriminate].
  intros [= <-]. exists l, l', sh'. auto.
Qed.

Lemma exec_app s1 s2 c :
  exec step1 (s1 ++ s2) c = exec step1 s2 (exec step1 s1 c).
Proof. unfold exec. apply fold_left_app. Qed.

(** A property of the initial configuration that every step of every
    goroutine preserves holds after every schedule. *)
Lemma exec_invariant (P : config shared local -> Prop) :
  (forall c g c', P c -> step_thread step1 g c = Some c' -> P c') ->
  forall schedule c, P c -> P (exec step1 schedule c).
Proof.
  intros Hstep schedule. unfold exec.
  induction schedule as [| g schedule IH]; intros c Hc; simpl.
  - exact Hc.
  - apply IH. unfold sched_step.
    destruct (step_thread step1 g c) as [c' |] eqn:E.
    + eapply Hstep; eauto.
    + exact Hc.
Qed.

(** If, while a property [inv] holds, an unfinished configuration always
    has a goroutine that can move, and every move keeps [inv] and uses up
    some of a bounded supply of steps, then some schedule finishes. *)
Lemma exec_reaches (inv : config shared local -> Prop)
    (steps_left : config shared local -> Z) (done : config shared local -> bool) :
  (forall c, inv c -> 0 <= steps_left c) ->
  (forall c, inv c -> done c = false -> exists g c', step_thread step1 g c = Some c') ->
  (forall c g c', inv c -> step_thread step1 g c = Some c' ->
     inv c' /\ steps_left c' < steps_left c) ->
  forall c, inv c -> exists schedule, done (exec step1 schedule c) = true.
Proof.
  intros Hpos Hprog Hdec.
  assert (H : forall n c, inv c -> steps_left c < Z.of_nat n ->
            exists schedule, done (exec step1 schedule c) = true).
  { induction n as [| n IH]; intros c Hinv Hn.
    - specialize (Hpos c Hinv). lia.
    - destruct (done c) eqn:Hd; [exists []; exact Hd |].
      destruct (Hprog c Hinv Hd) as (g & c' & Hstep).
      destruct (Hdec c g c' Hinv Hstep) as [Hinv' Hlt].
      destruct (IH c' Hinv' ltac:(lia)) as [schedule Hs].
      exists (g :: schedule). unfold exec in *. simpl. unfold sched_step at 2.
      rewrite Hstep. exact Hs. }
  intros c Hinv. apply (H (S (Z.to_nat (steps_left c))) c Hinv).
  specialize (Hpos c Hinv). lia.
Qed.

End SchedulerFacts.

End goroutines_facts.

(* ===================================================================== *)
(** ** The concurrent map harness *)
(* ===================================================================== *)

Module harness_facts.
Import goroutines harness GoInt_facts goroutines_facts.

(** *** The key derivation *)

Lemma key_no_overflow W I g i :
  GoInt.in_range (1000 * W) -> I <= 1000 -> 0 <= g < W -> 0 <= i < I ->
  key g i = g * 1000 + i.
Proof.
  intros [_ HW] HI Hg Hi. unfold key.
  rewrite (wrap_id (g * 1000)) by (unfold GoInt.in_range, GoInt.min_int, GoInt.max_int in *; lia).
  apply wrap_id. unfold GoInt.in_range, GoInt.min_int, GoInt.max_int in *. lia.
Qed.

(** C5.  For any number of workers [W] such that [1000 * W] is
    representable as an [int], and any [I <= 1000], no two distinct pairs
    of a worker index in [[0, W)] and an iteration index in [[0, I)]
    produce the same key [workerIndex*1000 + iterationIndex]. *)
Theorem key_injective (W I w1 i1 w2 i2 : Z) :
  GoInt.in_range (1000 * W) ->
  I <= 1000 ->
  0 <= w1 < W -> 0 <= i1 < I ->
  0 <= w2 < W -> 0 <= i2 < I ->
  (w1, i1) <> (w2, i2) ->
  key w1 i1 <> key w2 i2.
Proof.
  intros HW HI Hw1 Hi1 Hw2 Hi2 Hne.
  rewrite (key_no_overflow W I w1 i1), (key_no_overflow W I w2 i2) by assumption.
  intros Heq. apply Hne.
  assert (w1 = w2) by lia. subst w2.
  assert (i1 = i2) by lia. subst i2. reflexivity.
Qed.

(** The last key of worker 0 and the first key of worker 1, in [main]'s
    configuration. *)
Lemma key_injective_witness :
  GoInt.in_range (1000 * 50) /\ 1000 <= 1000 /\
  0 <= 0 < 50 /\ 0 <= 999 < 1000 /\
  0 <= 1 < 50 /\ 0 <= 0 < 1000 /\
  (0, 999) <> (1, 0) /\
  key 0 999 = 999 /\ key 1 0 = 1000 /\
  key 0 999 <> key 1 0.
Proof.
  assert (HW : GoInt.in_range (1000 * 50)) by (split; vm_compute; discriminate).
  assert (HI : 1000 <= 1000) by lia.
  assert (Hw1 : 0 <= 0 < 50) by lia.
  assert (Hi1 : 0 <= 999 < 1000) by lia.
  assert (Hw2 : 0 <= 1 < 50) by lia.
  assert (Hi2 : 0 <= 0 < 1000) by lia.
  assert (Hne : (0, 999) <> (1, 0)) by discriminate.
  split; [exact HW |]. split; [exact HI |]. split; [exact Hw1 |]. split; [exact Hi1 |].
  split; [exact Hw2 |]. split; [exact Hi2 |]. split; [exact Hne |].
  split; [reflexivity |]. split; [reflexivity |].
  exact (key_injective 50 1000 0 999 1 0 HW HI Hw1 Hi1 Hw2 Hi2 Hne).
Defined.

(** With more than 1000 iterations per worker the keys of neighbouring
    workers collide. *)
Example key_collides_beyond_1000 : key 0 1000 = key 1 0.
Proof. reflexivity. Qed.

(** The hypothesis on [W] is the range of [int]: a worker index whose
    product with 1000 does not fit wraps around ([2^61 * 1000 = 125 * 2^64]). *)
Example key_wraps_beyond_int : key (2 ^ 61) 0 = key 0 0.
Proof. reflexivity. Qed.

(** *** The steps of a worker, as a relation *)

Section Invariants.
Variable strat : strategy.
Variable W : nat.
Variable I : Z.
Hypothesis W_int : GoInt.in_range (1000 * Z.of_nat W).
Hypothesis I_range : 0 <= I <= 1000.


Lemma worker_step_wstep g w sh w' sh' :
  worker_step strat I g w sh = Some (w', sh') <->
  crashed sh = false /\ wstep strat I g w sh w' sh'.
Proof.
  unfold worker_step, syncmap_step, locked_step. destruct w as [i p]. simpl.
  split.
  - destruct (crashed sh); [discriminate |]. intros H. split; [reflexivity |].
    destruct strat eqn:Es, p; simpl in H;
      repeat match type of H with
             | (if ?b then _ else _) = _ => destruct b eqn:?
             end;
      try discriminate H; injection H as <- <-;
      try match goal with Hlt : (_ <? _) = true |- _ => apply Z.ltb_lt in Hlt end;
      constructor; congruence || assumption.
  - intros [Hc H]. rewrite Hc.
    inversion H; subst; simpl;
      try match goal with Hlt : _ < _ |- _ => apply Z.ltb_lt in Hlt; rewrite Hlt end;
      try match goal with Hs : strat = SyncMap |- _ => rewrite Hs end;
      try reflexivity;
      destruct strat; try congruence;
      repeat match goal with Hb : _ = _ |- _ => rewrite Hb end; reflexivity.
Qed.

(** *** Invariants of the write phase *)

Lemma total_written_set l : forall g w w',
  l !! g = Some w ->
  total_written (<[g := w']> l) = total_written l - written w + written w'.
Proof.
  induction l as [| a l IH]; intros [| g] w w' Hg; simpl in *; try discriminate.
  - injection Hg as ->. lia.
  - rewrite (IH g w w' Hg). lia.
Qed.

Lemma total_written_all l n :
  (forall g w, l !! g = Some w -> written w = n) ->
  total_written l = Z.of_nat (length l) * n.
Proof.
  induction l as [| a l IH]; intros H; simpl total_written; simpl length.
  - lia.
  - rewrite (H 0%nat a eq_refl), IH; [lia |].
    intros g w Hg. apply (H (S g) w Hg).
Qed.

Lemma written_bounds w : worker_ok strat I w -> 0 <= written w <= I.
Proof.
  unfold worker_ok, written. intros [Hi Hp].
  destruct (w_pc w); try lia.
  specialize (Hp ltac:(discriminate)). lia.
Qed.

Lemma wrap_next i : 0 <= i < I -> GoInt.wrap (i + 1) = i + 1.
Proof.
  intros H. apply wrap_succ. unfold GoInt.min_int, GoInt.max_int. lia.
Qed.

Lemma wstep_worker_ok g w sh w' sh' :
  worker_ok strat I w -> wstep strat I g w sh w' sh' -> worker_ok strat I w'.
Proof.
  unfold worker_ok. intros [Hi Hp] Hstep.
  inversion Hstep; subst; simpl in *;
    try (specialize (Hp ltac:(discriminate)); destruct Hp as [Hlt Hs]);
    rewrite ?wrap_next by lia;
    (split; [lia | intros Hne; try congruence; (split; [lia | assumption])]).
Qed.

(** A step either leaves the map and the worker's tally alone, or adds
    the worker's next entry. *)
Lemma wstep_map g w sh w' sh' :
  worker_ok strat I w -> wstep strat I g w sh w' sh' ->
  (m sh' = m sh /\ written w' = written w) \/
  (m sh' = <[key (Z.of_nat g) (written w) := written w]> (m sh) /\
   written w' = written w + 1).
Proof.
  unfold worker_ok. intros [Hi Hp] Hstep.
  inversion Hstep; subst; unfold written; simpl in *;
    try (specialize (Hp ltac:(discriminate)); destruct Hp as [Hlt Hs]);
    rewrite ?wrap_next by lia; rewrite ?Z.add_0_r;
    first [ left; split; [reflexivity | lia] | right; split; [reflexivity | lia] ].
Qed.

Lemma map_ok_same c g w w' sh' :
  threads c !! g = Some w ->
  m sh' = m (mem c) -> written w' = written w ->
  map_ok c ->
  map_ok {| mem := sh'; threads := <[g := w']> (threads c) |}.
Proof.
  intros Hg Hm Hw [Hmap Hsize]. split; simpl.
  - intros k v. rewrite Hm, Hmap. split.
    + intros (g1 & w1 & j & Hl & Hj & Hk & Hv).
      destruct (decide (g1 = g)) as [-> | Hne].
      * exists g, w', j. rewrite (lookup_set _ g w) by exact Hg.
        assert (w1 = w) by congruence. subst w1.
        split; [left; auto |]. split; [lia | auto].
      * exists g1, w1, j. rewrite (lookup_set _ g w) by exact Hg.
        split; [right; auto |]. auto.
    + intros (g1 & w1 & j & Hl & Hj & Hk & Hv).
      apply (lookup_set _ g w) in Hl as [[-> ->] | [Hne Hl]]; [| | exact Hg].
      * exists g, w, j. split; [exact Hg |]. split; [lia | auto].
      * exists g1, w1, j. auto.
  - rewrite Hm, Hsize, (total_written_set _ g w w' Hg). lia.
Qed.

Lemma map_ok_insert c g w w' sh' :
  length (threads c) = W ->
  (forall g1 w1, threads c !! g1 = Some w1 -> worker_ok strat I w1) ->
  threads c !! g = Some w ->
  worker_ok strat I w' ->
  m sh' = <[key (Z.of_nat g) (written w) := written w]> (m (mem c)) ->
  written w' = written w + 1 ->
  map_ok c ->
  map_ok {| mem := sh'; threads := <[g := w']> (threads c) |}.
Proof.
  intros Hlen Hok Hg Hok' Hm Hw [Hmap Hsize].
  assert (Hinj : forall g1 w1 j, threads c !! g1 = Some w1 -> 0 <= j < written w1 ->
            key (Z.of_nat g1) j = key (Z.of_nat g) (written w) -> g1 = g /\ j = written w).
  { intros g1 w1 j Hl Hj Hk.
    pose proof (lookup_lt_Some _ _ _ Hl) as Hg1.
    pose proof (lookup_lt_Some _ _ _ Hg) as Hg0.
    pose proof (written_bounds _ (Hok _ _ Hl)) as Hb1.
    pose proof (written_bounds _ (Hok _ _ Hg)) as Hb.
    pose proof (written_bounds _ Hok') as Hb'.
    rewrite (key_no_overflow (Z.of_nat W) I (Z.of_nat g1) j) in Hk by (assumption || lia).
    rewrite (key_no_overflow (Z.of_nat W) I (Z.of_nat g) (written w)) in Hk
      by (assumption || lia).
    lia. }
  assert (Hfresh : m (mem c) !! key (Z.of_nat g) (written w) = None).
  { destruct (m (mem c) !! key (Z.of_nat g) (written w)) as [v |] eqn:E; [| reflexivity].
    apply Hmap in E as (g1 & w1 & j & Hl & Hj & Hk & Hv).
    symmetry in Hk. destruct (Hinj g1 w1 j Hl Hj Hk) as [-> ->].
    assert (w1 = w) by congruence. subst w1. lia. }
  split; simpl.
  - intros k v. rewrite Hm, lookup_insert_Some, Hmap. split.
    + intros [[<- <-] | [Hne (g1 & w1 & j & Hl & Hj & Hk & Hv)]].
      * exists g, w', (written w). rewrite (lookup_set _ g w) by exact Hg.
        pose proof (written_bounds _ (Hok _ _ Hg)).
        split; [left; auto |]. split; [lia | auto].
      * destruct (decide (g1 = g)) as [-> | Hne1].
        -- exists g, w', j. rewrite (lookup_set _ g w) by exact Hg.
           assert (w1 = w) by congruence. subst w1.
           split; [left; auto |]. split; [lia | auto].
        -- exists g1, w1, j. rewrite (lookup_set _ g w) by exact Hg.
           split; [right; auto |]. auto.
    + intros (g1 & w1 & j & Hl & Hj & Hk & Hv).
      apply (lookup_set _ g w) in Hl as [[-> ->] | [Hne Hl]]; [| | exact Hg].
      * destruct (decide (j = written w)) as [-> | Hnj].
        -- left. auto.
        -- right. split.
           ++ intros Heq. rewrite Hk in Heq.
              destruct (Hinj g w j Hg ltac:(lia) ltac:(congruence)) as [_ ?]. contradiction.
           ++ exists g, w, j. split; [exact Hg |]. split; [lia | auto].
      * right. split.
        -- intros Heq. rewrite Hk in Heq.
           destruct (Hinj g1 w1 j Hl Hj ltac:(congruence)) as [? _]. contradiction.
        -- exists g1, w1, j. auto.
  - rewrite Hm, map_size_insert_None by exact Hfresh.
    rewrite (total_written_set _ g w w' Hg). lia.
Qed.


Lemma lock_free_true l : lock_free l = true <-> writer l = None /\ readers l = 0%nat.
Proof.
  unfold lock_free. destruct (writer l); [split; [discriminate | intros [? _]; discriminate] |].
  rewrite Nat.eqb_eq. tauto.
Qed.

Lemma step_lock_ok c g w w' sh' :
  threads c !! g = Some w ->
  wstep strat I g w (mem c) w' sh' ->
  lock_ok c ->
  lock_ok {| mem := sh'; threads := <[g := w']> (threads c) |}.
Proof.
  intros Hg Hstep (Hr & Hex & Hpc).
  pose proof (Hpc g w Hg) as Hgw.
  unfold lock_ok. simpl mem. simpl threads.
  assert (Hlook : forall g1 w1, <[g := w']> (threads c) !! g1 = Some w1 ->
            (g1 = g /\ w1 = w') \/ (g1 <> g /\ threads c !! g1 = Some w1)).
  { intros g1 w1 Hl. apply (lookup_set _ g w); assumption. }
  inversion Hstep; subst; simpl in *;
    try match goal with H : lock_free _ = true |- _ => apply lock_free_true in H as [Hw0 Hr0] end;
    (split; [done |]); (split;
     [ intros g1 Hg1; apply list_lookup_insert_is_Some; try (apply Hex, Hg1); try (injection Hg1 as <-; eauto)
     | intros g1 w1 Hl; apply Hlook in Hl as [[-> ->] | [Hne Hl]]; simpl;
       [ | specialize (Hpc g1 w1 Hl)] ]).
  all: try tauto.
  all: try (split; [intros _ | intros; discriminate]; tauto).
  all: try (split; intros; [tauto | discriminate]).
  all: try (split; [intros Hx; apply Hpc in Hx; congruence | intros Hx; congruence]).
  all: try (split; [intros _; apply Hgw; discriminate | intros _; discriminate]).
  - discriminate Hg1.
  - assert (writer (lock (mem c)) = Some g) by (apply Hgw; discriminate).
    split; [intros Hx; apply Hpc in Hx; congruence | discriminate].
Qed.

Lemma step_writing_ok c g w w' sh' :
  threads c !! g = Some w ->
  crashed (mem c) = false ->
  wstep strat I g w (mem c) w' sh' ->
  lock_ok c -> writing_ok c ->
  writing_ok {| mem := sh'; threads := <[g := w']> (threads c) |}.
Proof.
  intros Hg Hc Hstep (Hr & Hex & Hpc) (_ & Hwr).
  pose proof (Hpc g w Hg) as Hgw.
  unfold writing_ok. simpl mem. simpl threads.
  assert (Hkeep : forall g1 w1, g1 <> g -> threads c !! g1 = Some w1 ->
            <[g := w']> (threads c) !! g1 = Some w1).
  { intros g1 w1 Hne Hl. apply (lookup_set _ g w); auto. }
  assert (Hself : <[g := w']> (threads c) !! g = Some w').
  { apply (lookup_set _ g w); auto. }
  assert (Hother : w_pc w <> Writing -> writing (mem c) = true ->
            exists g0 w0, <[g := w']> (threads c) !! g0 = Some w0 /\ w_pc w0 = Writing).
  { intros Hnw Ht. destruct (Hwr Ht) as (g0 & w0 & Hl0 & Hp0).
    exists g0, w0. split; [| exact Hp0]. apply Hkeep; [| exact Hl0].
    intros ->. congruence. }
  inversion Hstep; subst; simpl in *.
  - split; [exact Hc |]. apply Hother. discriminate.
  - split; [exact Hc |]. apply Hother. discriminate.
  - exfalso. destruct (Hwr ltac:(assumption)) as (g0 & w0 & Hl0 & Hp0).
    assert (Hh0 : writer (lock (mem c)) = Some g0) by (apply (Hpc g0 w0 Hl0); congruence).
    assert (Hh : writer (lock (mem c)) = Some g) by (apply Hgw; discriminate).
    assert (g0 = g) by congruence. subst g0.
    rewrite Hg in Hl0. injection Hl0 as <-. discriminate Hp0.
  - split; [exact Hc |]. intros _. eauto.
  - split; [exact Hc |]. discriminate.
  - split; [exact Hc |]. apply Hother. discriminate.
Qed.

Lemma inv_init : inv strat W I (init W).
Proof.
  unfold init. split; simpl.
  - apply length_replicate.
  - intros g w Hl. apply lookup_replicate in Hl as [-> _].
    unfold worker_ok. simpl. split; [lia | congruence].
  - split; simpl.
    + intros k v. rewrite lookup_empty. split; [discriminate |].
      intros (g & w & j & Hl & Hj & _). apply lookup_replicate in Hl as [-> _].
      unfold written in Hj. simpl in Hj. lia.
    + rewrite map_size_empty. symmetry.
      rewrite (total_written_all _ 0); [lia |].
      intros g w Hl. apply lookup_replicate in Hl as [-> _]. reflexivity.
  - split; [reflexivity |]. split; simpl; [discriminate |].
    intros g w Hl. apply lookup_replicate in Hl as [-> _]. simpl.
    split; [congruence | discriminate].
  - split; simpl; [reflexivity | discriminate].
Qed.

Lemma inv_step c g c' :
  inv strat W I c -> step_thread (worker_step strat I) g c = Some c' -> inv strat W I c'.
Proof.
  intros [Hlen Hok Hmap Hlock Hwr] Hstep.
  apply step_thread_inv in Hstep as (w & w' & sh' & Hg & Hstep & ->).
  apply worker_step_wstep in Hstep as [Hc Hstep].
  pose proof (wstep_worker_ok g w _ w' sh' (Hok g w Hg) Hstep) as Hok'.
  split; simpl threads.
  - rewrite length_insert. exact Hlen.
  - intros g1 w1 Hl. apply (lookup_set _ g w) in Hl as [[-> ->] | [Hne Hl]]; eauto.
  - destruct (wstep_map g w _ w' sh' (Hok g w Hg) Hstep) as [[Hm Hw] | [Hm Hw]].
    + apply (map_ok_same c g w); assumption.
    + apply (map_ok_insert c g w); assumption.
  - apply (step_lock_ok c g w); assumption.
  - apply (step_writing_ok c g w); assumption.
Qed.

(** Every configuration a schedule can reach satisfies the invariants. *)
Lemma inv_run schedule : inv strat W I (run strat W I schedule).
Proof.
  unfold run. apply exec_invariant; [| apply inv_init].
  intros c g c'. apply inv_step.
Qed.



(** *** After the barrier *)

Lemma all_done_workers c :
  all_done I c = true ->
  forall g w, threads c !! g = Some w -> w_pc w = AtLoop /\ I <= w_i w.
Proof.
  unfold all_done. rewrite forallb_forall. intros H g w Hl.
  assert (Hin : In w (threads c)).
  { apply list_elem_of_In. eapply list_elem_of_lookup_2. exact Hl. }
  specialize (H w Hin). unfold finished in H.
  destruct (w_pc w); try discriminate H.
  split; [reflexivity |]. apply negb_true_iff, Z.ltb_ge in H. exact H.
Qed.

(** Once every worker has returned, the lock is free, the process has not
    been aborted, and the map holds the entry [key g i := i] of every
    worker [g] and iteration [i], and nothing else. *)
Lemma final_state schedule :
  let c := run strat W I schedule in
  all_done I c = true ->
  crashed (mem c) = false /\
  lock_free (lock (mem c)) = true /\
  Z.of_nat (size (m (mem c))) = Z.of_nat W * I /\
  (forall g i, 0 <= g < Z.of_nat W -> 0 <= i < I -> m (mem c) !! key g i = Some i) /\
  (forall k v, m (mem c) !! k = Some v ->
     exists g i, 0 <= g < Z.of_nat W /\ 0 <= i < I /\ k = key g i /\ v = i).
Proof.
  intros c Hdone.
  destruct (inv_run schedule) as [Hlen Hok [Hmap Hsize] (Hr & Hex & Hpc) [Hc _]].
  fold c in Hlen, Hok, Hmap, Hsize, Hr, Hex, Hpc, Hc.
  pose proof (all_done_workers c Hdone) as Hall.
  assert (Hwr : forall g w, threads c !! g = Some w -> written w = I).
  { intros g w Hl. destruct (Hall g w Hl) as [Hp Hi].
    destruct (Hok g w Hl) as [Hb _]. unfold written. rewrite Hp. lia. }
  split; [exact Hc |]. split.
  { apply lock_free_true. split; [| exact Hr].
    destruct (writer (lock (mem c))) as [g |] eqn:Ew; [| reflexivity].
    destruct (Hex g eq_refl) as [w Hl].
    destruct (Hall g w Hl) as [Hp _].
    pose proof (proj2 (Hpc g w Hl) eq_refl) as Hne. contradiction. }
  split; [rewrite Hsize, (total_written_all _ I Hwr), Hlen; reflexivity |].
  split.
  - intros g i Hg Hi.
    destruct (lookup_lt_is_Some_2 (threads c) (Z.to_nat g)) as [w Hl]; [lia |].
    apply Hmap. exists (Z.to_nat g), w, i.
    rewrite (Hwr _ _ Hl), Z2Nat.id by lia. auto.
  - intros k v Hkv. apply Hmap in Hkv as (g & w & j & Hl & Hj & Hk & Hv).
    rewrite (Hwr _ _ Hl) in Hj. apply lookup_lt_Some in Hl.
    exists (Z.of_nat g), j. split; [lia | auto].
Qed.

(** *** No deadlock: the write phase can always run to the barrier *)


Lemma total_remaining_set l : forall g w w',
  l !! g = Some w ->
  total_remaining I (<[g := w']> l) = total_remaining I l - remaining I w + remaining I w'.
Proof.
  induction l as [| a l IH]; intros [| g] w w' Hg; simpl in *; try discriminate.
  - injection Hg as ->. lia.
  - rewrite (IH g w w' Hg). lia.
Qed.

Lemma total_remaining_nonneg l :
  (forall g w, l !! g = Some w -> worker_ok strat I w) -> 0 <= total_remaining I l.
Proof.
  induction l as [| a l IH]; intros H; simpl; [lia |].
  assert (0 <= remaining I a).
  { destruct (H 0%nat a eq_refl) as [Hi Hp]. unfold remaining.
    destruct (w_pc a); try lia; specialize (Hp ltac:(discriminate)); lia. }
  assert (0 <= total_remaining I l) by (apply IH; intros g w Hg; apply (H (S g) w Hg)).
  lia.
Qed.

Lemma not_all_done c :
  all_done I c = false ->
  exists g w, threads c !! g = Some w /\ finished I w = false.
Proof.
  unfold all_done. intros H.
  assert (Hex : Exists (fun w => finished I w = false) (threads c)).
  { induction (threads c) as [| a l IH]; simpl in H; [discriminate |].
    destruct (finished I a) eqn:E; [right; auto | left; exact E]. }
  apply List.Exists_exists in Hex as (w & Hin & Hw).
  apply list_elem_of_In, list_elem_of_lookup in Hin as [g Hg]. eauto.
Qed.

(** In a reachable configuration where some worker has not returned,
    some worker can take a step. *)
Lemma progress c :
  inv strat W I c -> all_done I c = false ->
  exists g c', step_thread (worker_step strat I) g c = Some c'.
Proof.
  intros [Hlen Hok Hmap (Hr & Hex & Hpc) [Hc Hwr]] Hnd.
  destruct (not_all_done c Hnd) as (g & w & Hg & Hf).
  assert (Hmove : forall g1 w1, threads c !! g1 = Some w1 -> w_pc w1 <> AtLoop ->
            exists c', step_thread (worker_step strat I) g1 c = Some c').
  { intros g1 w1 Hl Hp. destruct (Hok g1 w1 Hl) as [_ Hb]. destruct (Hb Hp) as [_ Hs].
    unfold step_thread. rewrite Hl. unfold worker_step. rewrite Hc.
    destruct strat; [congruence | |]; unfold locked_step;
      destruct (w_pc w1); try congruence; try (destruct (writing (mem c))); eauto. }
  destruct w as [i p]. destruct p; try (exists g; eapply Hmove; [exact Hg | discriminate]).
  unfold finished in Hf. simpl in Hf. apply negb_false_iff in Hf.
  destruct strat eqn:Es.
  - exists g. unfold step_thread. rewrite Hg. unfold worker_step. rewrite Hc.
    unfold syncmap_step. simpl. rewrite Hf. eauto.
  - destruct (lock_free (lock (mem c))) eqn:Ef.
    + exists g. unfold step_thread. rewrite Hg. unfold worker_step. rewrite Hc.
      unfold locked_step. simpl. rewrite Hf, Ef. eauto.
    + assert (Hh : exists h, writer (lock (mem c)) = Some h).
      { unfold lock_free in Ef. destruct (writer (lock (mem c))); [eauto |].
        rewrite Hr in Ef. discriminate Ef. }
      destruct Hh as [h Hh]. destruct (Hex h Hh) as [wh Hl].
      exists h. eapply Hmove; [exact Hl |]. apply (Hpc h wh Hl). exact Hh.
  - destruct (lock_free (lock (mem c))) eqn:Ef.
    + exists g. unfold step_thread. rewrite Hg. unfold worker_step. rewrite Hc.
      unfold locked_step. simpl. rewrite Hf, Ef. eauto.
    + assert (Hh : exists h, writer (lock (mem c)) = Some h).
      { unfold lock_free in Ef. destruct (writer (lock (mem c))); [eauto |].
        rewrite Hr in Ef. discriminate Ef. }
      destruct Hh as [h Hh]. destruct (Hex h Hh) as [wh Hl].
      exists h. eapply Hmove; [exact Hl |]. apply (Hpc h wh Hl). exact Hh.
Qed.

(** Every step of a reachable configuration uses up one of the remaining
    steps. *)
Lemma step_decreases c g c' :
  inv strat W I c -> step_thread (worker_step strat I) g c = Some c' ->
  total_remaining I (threads c') <= total_remaining I (threads c) - 1.
Proof.
  intros Hinv Hstep.
  pose proof (inv_step c g c' Hinv Hstep) as [_ _ _ _ [Hc' _]].
  destruct Hinv as [Hlen Hok _ _ _].
  apply step_thread_inv in Hstep as (w & w' & sh' & Hg & Hstep & ->).
  apply worker_step_wstep in Hstep as [Hc Hstep].
  simpl threads. rewrite (total_remaining_set _ g w w' Hg).
  destruct (Hok g w Hg) as [Hi Hp].
  inversion Hstep; subst; unfold remaining; simpl in *;
    try (specialize (Hp ltac:(discriminate)); destruct Hp as [Hlt Hs]);
    rewrite ?wrap_next by lia; try lia; try discriminate Hc'.
Qed.

(** The barrier is reachable: some schedule lets all workers return. *)
Lemma barrier_reachable :
  exists schedule, all_done I (run strat W I schedule) = true.
Proof.
  unfold run.
  apply (exec_reaches _ (inv strat W I) (fun c => total_remaining I (threads c))).
  - intros c [_ Hok _ _ _]. apply total_remaining_nonneg. exact Hok.
  - apply progress.
  - intros c g c' Hinv Hstep. split; [eapply inv_step; eauto |].
    pose proof (step_decreases c g c' Hinv Hstep). lia.
  - apply inv_init.
Qed.

End Invariants.

(** *** Counting with Range *)

Lemma range_list_count (l : list (Z * Z)) : forall n,
  0 <= n -> n + Z.of_nat (length l) <= GoInt.max_int ->
  range_list (fun _ _ count => (true, GoInt.wrap (count + 1))) l n = n + Z.of_nat (length l).
Proof.
  induction l as [| [k v] l IH]; intros n Hn Hmax; simpl in *.
  - lia.
  - rewrite wrap_succ by (unfold GoInt.min_int; lia). rewrite IH; lia.
Qed.

Lemma range_count_size (mp : gmap Z Z) :
  Z.of_nat (size mp) <= GoInt.max_int ->
  range_count mp = Z.of_nat (size mp).
Proof.
  intros H. unfold range_count, Range.
  rewrite range_list_count; rewrite ?length_map_to_list; lia.
Qed.

Lemma range_list_counting {A : Type} (visit : Z -> Z -> A -> bool * A) (l : list (Z * Z)) :
  (forall k v st, fst (visit k v st) = true) ->
  forall n st, 0 <= n -> n + Z.of_nat (length l) <= GoInt.max_int ->
  fst (range_list
         (fun k v (cst : Z * A) =>
            let '(c, st') := visit k v (snd cst) in (c, (GoInt.wrap (fst cst + 1), st')))
         l (n, st)) = n + Z.of_nat (length l).
Proof.
  intros Hv. induction l as [| [k v] l IH]; intros n st Hn Hmax; simpl in *.
  - lia.
  - specialize (Hv k v st). destruct (visit k v st) as [c st']. simpl in Hv. subst c.
    rewrite wrap_succ by (unfold GoInt.min_int; lia). rewrite IH; lia.
Qed.

(** The state of the shared variables after the barrier, for any number
    of workers whose keys fit in an [int] and up to 1000 iterations. *)
Lemma after_barrier strat (W : nat) (I : Z) schedule :
  GoInt.in_range (1000 * Z.of_nat W) -> 0 <= I <= 1000 ->
  all_done I (run strat W I schedule) = true ->
  let sh := mem (run strat W I schedule) in
  crashed sh = false /\
  len strat sh = Some (Z.of_nat W * I) /\
  (forall (A : Type) (visit : Z -> Z -> A -> bool * A) (st : A),
     (forall k v a, fst (visit k v a) = true) ->
     exists r, forEach strat sh visit st = Some r /\ fst r = Z.of_nat W * I) /\
  Z.of_nat (size (m sh)) = Z.of_nat W * I /\
  (forall g i, 0 <= g < Z.of_nat W -> 0 <= i < I ->
     get strat sh (key g i) = Some (i, true)) /\
  (forall k v, m sh !! k = Some v ->
     exists g i, 0 <= g < Z.of_nat W /\ 0 <= i < I /\ k = key g i /\ v = i).
Proof.
  intros HW HI Hdone sh.
  destruct (final_state strat W I HW HI schedule Hdone) as (Hc & Hfree & Hsize & Hall & Honly).
  fold sh in Hc, Hfree, Hsize, Hall, Honly.
  assert (Hmax : Z.of_nat (size (m sh)) <= GoInt.max_int).
  { rewrite Hsize. destruct HW as [_ HW]. nia. }
  split; [exact Hc |]. split.
  { unfold len, under_lock. rewrite Hfree, range_count_size, Hsize by exact Hmax.
    destruct strat; reflexivity. }
  split.
  { intros A visit st Hv.
    eexists. split.
    - unfold forEach, under_lock. rewrite Hfree.
      instantiate (1 := Range (m sh) _ (0, st)). destruct strat; reflexivity.
    - unfold Range. rewrite range_list_counting; rewrite ?length_map_to_list; try lia.
      exact Hv. }
  split; [exact Hsize |]. split; [| exact Honly].
  intros g i Hg Hi. unfold get, under_lock. rewrite Hfree, (Hall g i Hg Hi).
  destruct strat; reflexivity.
Qed.

(** C1.  For each of the three strategies, each [W] in {1, 10, 50} and
    each [I] in {1, 100, 1000}: some schedule lets all [W] workers return
    from their [I] puts, and under every schedule, once they all have,
    the process has not been aborted; [len()] returns [W*I]; [forEach]
    with a visitor that never stops visits [W*I] entries; the map holds
    [W*I] entries; [get] finds under the key of every worker [g] and
    iteration [i] the value [i] that was written; and the map holds no
    other entry. *)
Theorem entries_after_barrier (strat : strategy) (W : nat) (I : Z) :
  In W [1; 10; 50]%nat ->
  In I [1; 100; 1000] ->
  (exists schedule, all_done I (run strat W I schedule) = true) /\
  forall schedule,
    all_done I (run strat W I schedule) = true ->
    let sh := mem (run strat W I schedule) in
    crashed sh = false /\
    len strat sh = Some (Z.of_nat W * I) /\
    (forall (A : Type) (visit : Z -> Z -> A -> bool * A) (st : A),
       (forall k v a, fst (visit k v a) = true) ->
       exists r, forEach strat sh visit st = Some r /\ fst r = Z.of_nat W * I) /\
    Z.of_nat (size (m sh)) = Z.of_nat W * I /\
    (forall g i, 0 <= g < Z.of_nat W -> 0 <= i < I ->
       get strat sh (key g i) = Some (i, true)) /\
    (forall k v, m sh !! k = Some v ->
       exists g i, 0 <= g < Z.of_nat W /\ 0 <= i < I /\ k = key g i /\ v = i).
Proof.
  intros HW HI.
  assert (HW' : GoInt.in_range (1000 * Z.of_nat W)).
  { unfold GoInt.in_range, GoInt.min_int, GoInt.max_int.
    simpl in HW. destruct HW as [<- | [<- | [<- | []]]]; lia. }
  assert (HI' : 0 <= I <= 1000).
  { simpl in HI. destruct HI as [<- | [<- | [<- | []]]]; lia. }
  split.
  - apply barrier_reachable; assumption.
  - intros schedule. apply after_barrier; assumption.
Qed.

(** One worker, one iteration, under a mutex: acquire, begin the write,
    end it, release. *)
Lemma entries_after_barrier_witness :
  In 1%nat [1; 10; 50]%nat /\ In 1 [1; 100; 1000] /\
  all_done 1 (run Mutex 1 1 [0; 0; 0; 0]%nat) = true /\
  len Mutex (mem (run Mutex 1 1 [0; 0; 0; 0]%nat)) = Some (Z.of_nat 1 * 1).
Proof.
  assert (HW : In 1%nat [1; 10; 50]%nat) by (left; reflexivity).
  assert (HI : In 1 [1; 100; 1000]) by (left; reflexivity).
  assert (Hd : all_done 1 (run Mutex 1 1 [0; 0; 0; 0]%nat) = true) by reflexivity.
  split; [exact HW |]. split; [exact HI |]. split; [exact Hd |].
  exact (proj1 (proj2 (proj2 (entries_after_barrier Mutex 1 1 HW HI) [0; 0; 0; 0]%nat Hd))).
Defined.


(** Ten workers of a hundred iterations, run to the barrier one after the
    other (four steps per put under a lock) and interleaved round-robin
    (one [Store] per put on the sync.Map). *)
Example ten_by_hundred_mutex :
  all_done 100 (run Mutex 10 100 (sequential 10 400)) = true /\
  len Mutex (mem (run Mutex 10 100 (sequential 10 400))) = Some 1000 /\
  get Mutex (mem (run Mutex 10 100 (sequential 10 400))) 9099 = Some (99, true).
Proof. vm_compute. repeat split. Qed.

Example ten_by_hundred_syncmap :
  let schedule := concat (repeat (seq 0 10) 100) in
  all_done 100 (run SyncMap 10 100 schedule) = true /\
  len SyncMap (mem (run SyncMap 10 100 schedule)) = Some 1000 /\
  get SyncMap (mem (run SyncMap 10 100 schedule)) 4007 = Some (7, true) /\
  get SyncMap (mem (run SyncMap 10 100 schedule)) 4100 = Some (0, false).
Proof. vm_compute. repeat split. Qed.

(** A worker that finds the lock held does not move. *)
Example blocked_on_lock :
  run Mutex 2 1 [0; 1; 1; 0]%nat = run Mutex 2 1 [0; 0]%nat.
Proof. reflexivity. Qed.

(** *** The report *)

(** The sample of entries prints keys and values of the enumeration
    only. *)
Lemma print_entry_lines (l : list (Z * Z)) : forall n out line,
  In line (snd (range_list print_entry l (n, out))) ->
  In line out \/
  exists k v, In (k, v) l /\ line = Printf ("  Key: %v, Value: %v" ++ nl) [VAny k; VAny v].
Proof.
  induction l as [| [k v] l IH]; intros n out line Hin; simpl in Hin.
  - left. exact Hin.
  - destruct (n <? 5).
    + apply IH in Hin as [Hin | (k' & v' & Hl & ->)].
      * apply in_app_or in Hin as [Hin | [<- | []]]; [left; exact Hin |].
        right. exists k, v. split; [left; reflexivity | reflexivity].
      * right. exists k', v'. split; [right; exact Hl | reflexivity].
    + left. exact Hin.
Qed.

(** The counting [Range] does not depend on the order in which the
    entries are handed out. *)
Lemma range_list_count_length (l l' : list (Z * Z)) :
  length l = length l' -> forall n,
  range_list (fun _ _ count => (true, GoInt.wrap (count + 1))) l n
  = range_list (fun _ _ count => (true, GoInt.wrap (count + 1))) l' n.
Proof.
  revert l'. induction l as [| [k v] l IH]; intros [| [k' v'] l'] Hlen n;
    try discriminate Hlen; [reflexivity |].
  simpl. apply IH. simpl in Hlen. congruence.
Qed.

Lemma range_count_enumerated (mp : gmap Z Z) (enum : list (Z * Z)) :
  enum ≡ₚ map_to_list mp ->
  range_list (fun _ _ count => (true, GoInt.wrap (count + 1))) enum 0 = range_count mp.
Proof.
  intros Hperm. unfold range_count, Range.
  apply range_list_count_length, Permutation_length, Hperm.
Qed.

(** The lines of a report, for any order of enumeration of the map: the
    count, the elapsed time, the heading, and lines for entries of the
    map. *)
Lemma report_enumerated_lines (mp : gmap Z Z) (enum : list (Z * Z)) (elapsed : Z) line :
  enum ≡ₚ map_to_list mp ->
  In line (report_enumerated enum elapsed) ->
  line = Printf ("Length of map: %d" ++ nl) [VInt (range_count mp)] \/
  line = Printf ("Total time taken: %v" ++ nl) [VDuration elapsed] \/
  line = Printf (nl ++ "Example: First few entries:" ++ nl) [] \/
  exists k x, mp !! k = Some x /\
              line = Printf ("  Key: %v, Value: %v" ++ nl) [VAny k; VAny x].
Proof.
  intros Hperm Hin.
  unfold report_enumerated in Hin. rewrite (range_count_enumerated mp enum Hperm) in Hin.
  simpl in Hin.
  destruct Hin as [<- | [<- | [<- | Hin]]]; auto.
  apply print_entry_lines in Hin as [[] | (k & x & Hl & ->)].
  right; right; right. exists k, x. split; [| reflexivity].
  apply elem_of_map_to_list. rewrite <- Hperm. apply list_elem_of_In. exact Hl.
Qed.

(** C7 as stated fails.  The run of one worker and six iterations,
    reported after 2.87ms: [main] prints the observed count 6, the
    elapsed time and five entries of the map.  The discrepancy between
    the observed count and the expected count, [1*6 - 6 = 0], is not in
    the report: no line prints the number 0, in any role.  And in
    whatever order [Range] hands out the entries, a line that prints the
    number of the discrepancy is a line of the sample, printing the key
    and the value of an entry of the map. *)
Lemma report_omits_discrepancy :
  all_done 6 (run SyncMap 1 6 [0; 0; 0; 0; 0; 0]%nat) = true /\
  range_count (m (mem (run SyncMap 1 6 [0; 0; 0; 0; 0; 0]%nat))) = 6 /\
  report (m (mem (run SyncMap 1 6 [0; 0; 0; 0; 0; 0]%nat))) 2870000
  = [ Printf ("Length of map: %d" ++ nl) [VInt 6];
      Printf ("Total time taken: %v" ++ nl) [VDuration 2870000];
      Printf (nl ++ "Example: First few entries:" ++ nl) [];
      Printf ("  Key: %v, Value: %v" ++ nl) [VAny 5; VAny 5];
      Printf ("  Key: %v, Value: %v" ++ nl) [VAny 3; VAny 3];
      Printf ("  Key: %v, Value: %v" ++ nl) [VAny 4; VAny 4];
      Printf ("  Key: %v, Value: %v" ++ nl) [VAny 2; VAny 2];
      Printf ("  Key: %v, Value: %v" ++ nl) [VAny 1; VAny 1] ] /\
  ~ prints_number (report (m (mem (run SyncMap 1 6 [0; 0; 0; 0; 0; 0]%nat))) 2870000)
      (1 * 6 - range_count (m (mem (run SyncMap 1 6 [0; 0; 0; 0; 0; 0]%nat)))) /\
  ~ (prints_number (report (m (mem (run SyncMap 1 6 [0; 0; 0; 0; 0; 0]%nat))) 2870000) 2870000 /\
     prints_number (report (m (mem (run SyncMap 1 6 [0; 0; 0; 0; 0; 0]%nat))) 2870000)
       (range_count (m (mem (run SyncMap 1 6 [0; 0; 0; 0; 0; 0]%nat)))) /\
     prints_number (report (m (mem (run SyncMap 1 6 [0; 0; 0; 0; 0; 0]%nat))) 2870000)
       (1 * 6 - range_count (m (mem (run SyncMap 1 6 [0; 0; 0; 0; 0; 0]%nat))))) /\
  (forall enum line v,
     enum ≡ₚ map_to_list (m (mem (run SyncMap 1 6 [0; 0; 0; 0; 0; 0]%nat))) ->
     In line (report_enumerated enum 2870000) -> In v (args line) ->
     number_of v = 1 * 6 - 6 ->
     exists k x,
       m (mem (run SyncMap 1 6 [0; 0; 0; 0; 0; 0]%nat)) !! k = Some x /\
       line = Printf ("  Key: %v, Value: %v" ++ nl) [VAny k; VAny x]).
Proof.
  assert (Hcount : range_count (m (mem (run SyncMap 1 6 [0; 0; 0; 0; 0; 0]%nat))) = 6)
    by (vm_compute; reflexivity).
  assert (Hrep : report (m (mem (run SyncMap 1 6 [0; 0; 0; 0; 0; 0]%nat))) 2870000
    = [ Printf ("Length of map: %d" ++ nl) [VInt 6];
        Printf ("Total time taken: %v" ++ nl) [VDuration 2870000];
        Printf (nl ++ "Example: First few entries:" ++ nl) [];
        Printf ("  Key: %v, Value: %v" ++ nl) [VAny 5; VAny 5];
        Printf ("  Key: %v, Value: %v" ++ nl) [VAny 3; VAny 3];
        Printf ("  Key: %v, Value: %v" ++ nl) [VAny 4; VAny 4];
        Printf ("  Key: %v, Value: %v" ++ nl) [VAny 2; VAny 2];
        Printf ("  Key: %v, Value: %v" ++ nl) [VAny 1; VAny 1] ])
    by (vm_compute; reflexivity).
  assert (Hno : ~ prints_number
                    (report (m (mem (run SyncMap 1 6 [0; 0; 0; 0; 0; 0]%nat))) 2870000)
                    (1 * 6 - range_count (m (mem (run SyncMap 1 6 [0; 0; 0; 0; 0; 0]%nat))))).
  { rewrite Hcount, Hrep. intros (line & v & Hin & Hv & Hn).
    simpl in Hin.
    repeat (destruct Hin as [<- | Hin];
            [simpl in Hv; repeat (destruct Hv as [<- | Hv]; [discriminate Hn |]); exact Hv |]).
    exact Hin. }
  split; [reflexivity |]. split; [exact Hcount |]. split; [exact Hrep |].
  split; [exact Hno |]. split; [intros (_ & _ & H); exact (Hno H) |].
  intros enum line v Hperm Hin Hv Hn.
  apply (report_enumerated_lines _ enum 2870000 line Hperm) in Hin.
  rewrite Hcount in Hin.
  destruct Hin as [-> | [-> | [-> | Hin]]]; [| | | exact Hin].
  - simpl in Hv. destruct Hv as [<- | []]. discriminate Hn.
  - simpl in Hv. destruct Hv as [<- | []]. discriminate Hn.
  - destruct Hv.
Qed.

(** C7 (amended).  What [main] prints after the barrier includes the
    elapsed time of the write phase and the observed entry count,
    obtained by counting with [Range] (the sync.Map's [len()] and
    [forEach]): these are its first two lines, in whatever order [Range]
    hands out the entries, and the count is the number of entries of the
    map whenever an [int] can hold that number.  Beyond them the report
    prints only keys and values of entries of the map. *)
Theorem report_states_count_and_time (sh : shared) (elapsed : Z) (enum : list (Z * Z)) :
  enum ≡ₚ map_to_list (m sh) ->
  let out := report_enumerated enum elapsed in
  let count := range_count (m sh) in
  len SyncMap sh = Some count /\
  (Z.of_nat (size (m sh)) <= GoInt.max_int -> count = Z.of_nat (size (m sh))) /\
  take 2 out = [ Printf ("Length of map: %d" ++ nl) [VInt count];
                 Printf ("Total time taken: %v" ++ nl) [VDuration elapsed] ] /\
  states out (VDuration elapsed) /\
  states out (VInt count) /\
  prints_number out elapsed /\
  prints_number out count /\
  (forall v, states out v ->
     v = VInt count \/ v = VDuration elapsed \/
     exists k x, m sh !! k = Some x /\ (v = VAny k \/ v = VAny x)) /\
  report (m sh) elapsed = report_enumerated (map_to_list (m sh)) elapsed.
Proof.
  intros Hperm out count.
  assert (Hout : out = [ Printf ("Length of map: %d" ++ nl) [VInt count];
                         Printf ("Total time taken: %v" ++ nl) [VDuration elapsed];
                         Printf (nl ++ "Example: First few entries:" ++ nl) [] ]
                       ++ snd (range_list print_entry enum (0, []))).
  { unfold out, report_enumerated.
    rewrite (range_count_enumerated (m sh) enum Hperm). reflexivity. }
  split; [reflexivity |].
  split; [intros Hmax; apply range_count_size; exact Hmax |].
  split; [rewrite Hout; reflexivity |].
  split; [exists (Printf ("Total time taken: %v" ++ nl) [VDuration elapsed]);
          rewrite Hout; split; [right; left; reflexivity | left; reflexivity] |].
  split; [exists (Printf ("Length of map: %d" ++ nl) [VInt count]);
          rewrite Hout; split; [left; reflexivity | left; reflexivity] |].
  split; [exists (Printf ("Total time taken: %v" ++ nl) [VDuration elapsed]), (VDuration elapsed);
          rewrite Hout; split; [right; left; reflexivity | split; [left |]; reflexivity] |].
  split; [exists (Printf ("Length of map: %d" ++ nl) [VInt count]), (VInt count);
          rewrite Hout; split; [left; reflexivity | split; [left |]; reflexivity] |].
  split; [| reflexivity].
  intros v (line & Hin & Hv).
  apply (report_enumerated_lines (m sh) enum elapsed line Hperm) in Hin.
  destruct Hin as [-> | [-> | [-> | (k & x & Hkx & ->)]]]; simpl in Hv.
  - destruct Hv as [<- | []]. auto.
  - destruct Hv as [<- | []]. auto.
  - destruct Hv.
  - right; right. exists k, x. split; [exact Hkx |].
    destruct Hv as [<- | [<- | []]]; auto.
Qed.

(** Two goroutines of one iteration each, with the entries handed out in
    the order of the keys. *)
Lemma report_states_count_and_time_witness :
  [(0, 0); (1000, 0)] ≡ₚ map_to_list (m (mem (run SyncMap 2 1 [0; 1]%nat))) /\
  len SyncMap (mem (run SyncMap 2 1 [0; 1]%nat)) = Some 2 /\
  report_enumerated [(0, 0); (1000, 0)] 2870000
  = [ Printf ("Length of map: %d" ++ nl) [VInt 2];
      Printf ("Total time taken: %v" ++ nl) [VDuration 2870000];
      Printf (nl ++ "Example: First few entries:" ++ nl) [];
      Printf ("  Key: %v, Value: %v" ++ nl) [VAny 0; VAny 0];
      Printf ("  Key: %v, Value: %v" ++ nl) [VAny 1000; VAny 0] ] /\
  prints_number (report_enumerated [(0, 0); (1000, 0)] 2870000)
    (range_count (m (mem (run SyncMap 2 1 [0; 1]%nat)))).
Proof.
  assert (H1 : [(0, 0); (1000, 0)] ≡ₚ map_to_list (m (mem (run SyncMap 2 1 [0; 1]%nat)))).
  { apply (bool_decide_unpack _). vm_compute. exact I. }
  split; [exact H1 |].
  split; [vm_compute; reflexivity |].
  split; [vm_compute; reflexivity |].
  pose proof (report_states_count_and_time (mem (run SyncMap 2 1 [0; 1]%nat)) 2870000
                [(0, 0); (1000, 0)] H1) as H.
  exact (proj1 (proj2 (proj2 (proj2 (proj2 (proj2 (proj2 H))))))).
Defined.

(** After the barrier the count printed is [W*I]. *)
Lemma summary_after_barrier (W : nat) (I : Z) schedule elapsed :
  GoInt.in_range (1000 * Z.of_nat W) -> 0 <= I <= 1000 ->
  all_done I (run SyncMap W I schedule) = true ->
  summary (m (mem (run SyncMap W I schedule))) elapsed
  = [ Printf ("Length of map: %d" ++ nl) [VInt (Z.of_nat W * I)];
      Printf ("Total time taken: %v" ++ nl) [VDuration elapsed] ].
Proof.
  intros HW HI Hd.
  destruct (after_barrier SyncMap W I schedule HW HI Hd) as (_ & Hlen & _).
  unfold len in Hlen. injection Hlen as Hlen. unfold summary. rewrite Hlen. reflexivity.
Qed.

(** [main] itself: 50 workers of 1000 iterations can reach the barrier,
    and whenever they have, the first line printed is
    [Length of map: 50000]. *)
Corollary main_prints_50000 :
  (exists schedule, all_done main_iterations (main_run schedule) = true) /\
  forall schedule elapsed,
    all_done main_iterations (main_run schedule) = true ->
    summary (m (mem (main_run schedule))) elapsed
    = [ Printf ("Length of map: %d" ++ nl) [VInt 50000];
        Printf ("Total time taken: %v" ++ nl) [VDuration elapsed] ].
Proof.
  assert (HW : GoInt.in_range (1000 * Z.of_nat main_workers))
    by (split; vm_compute; discriminate).
  assert (HI : 0 <= main_iterations <= 1000) by (unfold main_iterations; lia).
  split.
  - apply barrier_reachable; assumption.
  - intros schedule elapsed Hd. unfold main_run.
    rewrite (summary_after_barrier main_workers main_iterations schedule elapsed HW HI Hd).
    reflexivity.
Qed.

(** The sample printed after the measurements stops after five entries:
    of the thousand entries of a ten-by-hundred run, the header and five
    lines are printed. *)
Example examples_of_run :
  length (examples (m (mem (run SyncMap 10 100 (concat (repeat (seq 0 10) 100)))))) = 6%nat.
Proof. vm_compute. reflexivity. Qed.

End harness_facts.

(* ===================================================================== *)
(** ** The atomic counter *)
(* ===================================================================== *)

Module atomic_counter_facts.
Import goroutines atomic_counter GoInt_facts goroutines_facts.


Lemma sum_of_set f l : forall g w w',
  l !! g = Some w ->
  sum_of f (<[g := w']> l) = sum_of f l - f w + f w'.
Proof.
  induction l as [| a l IH]; intros [| g] w w' Hg; simpl in *; try discriminate.
  - injection Hg as ->. lia.
  - rewrite (IH g w w' Hg). lia.
Qed.

Lemma sum_of_replicate f n w :
  sum_of f (replicate n w) = Z.of_nat n * f w.
Proof. induction n as [| n IH]; simpl replicate; simpl sum_of; [lia | rewrite IH; lia]. Qed.

Lemma sum_of_bounds f l lo hi :
  (forall g w, l !! g = Some w -> lo <= f w <= hi) ->
  Z.of_nat (length l) * lo <= sum_of f l <= Z.of_nat (length l) * hi.
Proof.
  induction l as [| a l IH]; intros H; simpl sum_of; simpl length.
  - lia.
  - pose proof (H 0%nat a eq_refl).
    assert (Z.of_nat (length l) * lo <= sum_of f l <= Z.of_nat (length l) * hi)
      by (apply IH; intros g w Hg; apply (H (S g) w Hg)).
    lia.
Qed.

Section CounterInvariants.
Variable W : nat.
Variable I : Z.
Hypothesis I_nonneg : 0 <= I.
Hypothesis total_small : Z.of_nat W * I < 2 ^ 63.


Lemma counter_worker_step_wstep g w sh w' sh' :
  worker_step I g w sh = Some (w', sh') <-> wstep I w sh w' sh'.
Proof.
  unfold worker_step. destruct w as [n p r]. simpl. split.
  - destruct p.
    + destruct (n <? I) eqn:E; [apply Z.ltb_lt in E | discriminate].
      intros [= <- <-]. constructor. exact E.
    + intros [= <- <-]. constructor.
    + intros [= <- <-]. constructor.
  - intros H. inversion H; subst; simpl; try reflexivity.
    match goal with Hlt : _ < _ |- _ => apply Z.ltb_lt in Hlt; rewrite Hlt end. reflexivity.
Qed.


Lemma sums_bounded c :
  inv W I c ->
  0 <= sum_of w_n (threads c) <= Z.of_nat W * I /\
  0 <= sum_of adds (threads c) <= Z.of_nat W * I.
Proof.
  intros [Hlen Hok _ _ _]. rewrite <- Hlen. split.
  - pose proof (sum_of_bounds w_n (threads c) 0 I) as H.
    rewrite Z.mul_0_r in H. apply H. intros g w Hl. apply (Hok g w Hl).
  - pose proof (sum_of_bounds adds (threads c) 0 I) as H.
    rewrite Z.mul_0_r in H. apply H. intros g w Hl.
    destruct (Hok g w Hl) as [Hn Hp]. unfold adds.
    destruct (w_pc w); try lia; specialize (Hp ltac:(discriminate)); lia.
Qed.

Lemma counter_inv_init : inv W I (init W).
Proof.
  unfold init. split; simpl.
  - apply length_replicate.
  - intros g w Hl. apply lookup_replicate in Hl as [-> _].
    unfold worker_ok. simpl. split; [lia | congruence].
  - rewrite sum_of_replicate. unfold adds. simpl. lia.
  - rewrite sum_of_replicate. simpl. lia.
  - intros g w Hl. apply lookup_replicate in Hl as [-> _]. discriminate.
Qed.

Lemma counter_inv_step c g c' :
  inv W I c -> step_thread (worker_step I) g c = Some c' -> inv W I c'.
Proof.
  intros Hinv Hstep. pose proof (sums_bounded c Hinv) as [Hbn Hba].
  destruct Hinv as [Hlen Hok Hat Hpl Hreg].
  apply step_thread_inv in Hstep as (w & w' & sh' & Hg & Hstep & ->).
  apply counter_worker_step_wstep in Hstep.
  destruct (Hok g w Hg) as [Hn Hp].
  assert (HW : 0 < Z.of_nat W) by (apply lookup_lt_Some in Hg; lia).
  assert (HI : I < 2 ^ 63) by nia.
  inversion Hstep; subst; simpl in *; split; simpl;
    rewrite ?length_insert, ?(sum_of_set _ _ g _ _ Hg);
    repeat match goal with
           | |- context [adds (mkWorker ?a ?b ?c)] =>
               change (adds (mkWorker a b c))
                 with (a + match b with AtAdd => 0 | _ => 1 end)
           end; simpl;
    try assumption; try reflexivity.
  - intros g1 w1 Hl. apply (lookup_set _ g _ _ _ _ Hg) in Hl as [[-> ->] | [Hne Hl]]; eauto.
    unfold worker_ok. simpl. split; [lia | intros _; lia].
  - rewrite wrapu_id; lia.
  - lia.
  - intros g1 w1 Hl Hw. apply (lookup_set _ g _ _ _ _ Hg) in Hl as [[-> ->] | [Hne Hl]].
    + discriminate Hw.
    + pose proof (Hreg g1 w1 Hl Hw). lia.
  - intros g1 w1 Hl. apply (lookup_set _ g _ _ _ _ Hg) in Hl as [[-> ->] | [Hne Hl]]; eauto.
    unfold worker_ok. simpl. specialize (Hp ltac:(discriminate)). split; [lia | intros _; lia].
  - lia.
  - lia.
  - intros g1 w1 Hl Hw. apply (lookup_set _ g _ _ _ _ Hg) in Hl as [[-> ->] | [Hne Hl]].
    + simpl. lia.
    + pose proof (Hreg g1 w1 Hl Hw). lia.
  - intros g1 w1 Hl. apply (lookup_set _ g _ _ _ _ Hg) in Hl as [[-> ->] | [Hne Hl]]; eauto.
    specialize (Hp ltac:(discriminate)).
    unfold worker_ok. simpl. rewrite wrap_succ by (unfold GoInt.min_int, GoInt.max_int; lia).
    split; [lia | congruence].
  - specialize (Hp ltac:(discriminate)).
    rewrite wrap_succ by (unfold GoInt.min_int, GoInt.max_int; lia). lia.
  - specialize (Hp ltac:(discriminate)). pose proof (Hreg g _ Hg eq_refl) as Hr. simpl in Hr.
    rewrite wrap_succ by (unfold GoInt.min_int, GoInt.max_int; lia).
    rewrite wrapu_id by lia. lia.
  - specialize (Hp ltac:(discriminate)).
    rewrite wrap_succ by (unfold GoInt.min_int, GoInt.max_int; lia).
    intros g1 w1 Hl Hw. apply (lookup_set _ g _ _ _ _ Hg) in Hl as [[-> ->] | [Hne Hl]].
    + discriminate Hw.
    + pose proof (Hreg g1 w1 Hl Hw). lia.
Qed.

Lemma counter_inv_run schedule : inv W I (run W I schedule).
Proof.
  unfold run. apply exec_invariant; [| apply counter_inv_init].
  intros c g c'. apply counter_inv_step.
Qed.

(** *** After [wg.Wait()] *)

Lemma counter_all_done_workers c :
  all_done I c = true ->
  forall g w, threads c !! g = Some w -> w_pc w = AtAdd /\ I <= w_n w.
Proof.
  unfold all_done. rewrite forallb_forall. intros H g w Hl.
  assert (Hin : In w (threads c)).
  { apply list_elem_of_In. eapply list_elem_of_lookup_2. exact Hl. }
  specialize (H w Hin). unfold finished in H.
  destruct (w_pc w); try discriminate H.
  split; [reflexivity |]. apply negb_true_iff, Z.ltb_ge in H. exact H.
Qed.

(** Once every goroutine has returned, the atomic counter equals the
    number of increments requested and the plain counter is at most
    that. *)
Lemma final_counters schedule :
  all_done I (run W I schedule) = true ->
  atomicOps (mem (run W I schedule)) = Z.of_nat W * I /\
  0 <= nonAtomicOps (mem (run W I schedule)) <= Z.of_nat W * I.
Proof.
  intros Hdone. pose proof (counter_inv_run schedule) as Hinv.
  set (c := run W I schedule) in *.
  pose proof (sums_bounded _ Hinv) as [Hbn _].
  destruct Hinv as [Hlen Hok Hat Hpl _].
  pose proof (counter_all_done_workers _ Hdone) as Hall.
  split; [| lia].
  rewrite Hat.
  pose proof (sum_of_bounds adds (threads c) I I) as H.
  rewrite Hlen in H. cut (Z.of_nat W * I <= sum_of adds (threads c) <= Z.of_nat W * I); [lia |].
  apply H. intros g w Hl. destruct (Hall g w Hl) as [Hp Hn].
  destruct (Hok g w Hl) as [Hb _]. unfold adds. rewrite Hp. lia.
Qed.

(** *** [wg.Wait()] can return *)


Lemma counter_progress c :
  inv W I c -> all_done I c = false ->
  exists g c', step_thread (worker_step I) g c = Some c'.
Proof.
  intros _ Hnd. unfold all_done in Hnd.
  assert (Hex : Exists (fun w => finished I w = false) (threads c)).
  { induction (threads c) as [| a l IH]; simpl in Hnd; [discriminate |].
    destruct (finished I a) eqn:E; [right; auto | left; exact E]. }
  apply List.Exists_exists in Hex as (w & Hin & Hw).
  apply list_elem_of_In, list_elem_of_lookup in Hin as [g Hg].
  exists g. unfold step_thread. rewrite Hg. unfold worker_step, finished in *.
  destruct (w_pc w); eauto.
  apply negb_false_iff in Hw. rewrite Hw. eauto.
Qed.

Lemma counter_step_decreases c g c' :
  inv W I c -> step_thread (worker_step I) g c = Some c' ->
  sum_of (remaining I) (threads c') < sum_of (remaining I) (threads c).
Proof.
  intros [Hlen Hok _ _ _] Hstep.
  apply step_thread_inv in Hstep as (w & w' & sh' & Hg & Hstep & ->).
  apply counter_worker_step_wstep in Hstep. simpl threads.
  rewrite (sum_of_set _ _ g w w' Hg).
  destruct (Hok g w Hg) as [Hn Hp].
  assert (HW : 0 < Z.of_nat W) by (apply lookup_lt_Some in Hg; lia).
  assert (HI : I < 2 ^ 63) by nia.
  inversion Hstep; subst; unfold remaining; simpl in *; try lia.
  specialize (Hp ltac:(discriminate)).
  rewrite wrap_succ by (unfold GoInt.min_int, GoInt.max_int; lia). lia.
Qed.

Lemma wait_returns :
  exists schedule, all_done I (run W I schedule) = true.
Proof.
  unfold run.
  apply (exec_reaches _ (inv W I) (fun c => sum_of (remaining I) (threads c))).
  - intros c [Hlen Hok _ _ _].
    pose proof (sum_of_bounds (remaining I) (threads c) 0 (3 * I)) as H.
    rewrite Z.mul_0_r in H. apply H. intros g w Hl.
    destruct (Hok g w Hl) as [Hn Hp]. unfold remaining.
    destruct (w_pc w); try lia; specialize (Hp ltac:(discriminate)); lia.
  - apply counter_progress.
  - intros c g c' Hinv Hstep. split; [eapply counter_inv_step; eauto |].
    apply (counter_step_decreases c g c'); assumption.
  - apply counter_inv_init.
Qed.

End CounterInvariants.

(** C4 (amended).  Both counters are updated by [W] goroutines of [I]
    passes each.  Once all have returned, the atomic counter holds [W*I]
    and the plain counter at most [W*I].  In [main] the scheme runs with
    500 goroutines and 1000 passes, and the expected value it prints and
    compares against is 500000 = 500 * 1000; with these, the atomic
    counter equals the expected value and no atomic increment is lost. *)
Theorem counters_after_wait (W : nat) (I : Z) (schedule : list nat) :
  0 <= I ->
  Z.of_nat W * I < 2 ^ 63 ->
  all_done I (run W I schedule) = true ->
  let sh := mem (run W I schedule) in
  atomicOps sh = Z.of_nat W * I /\
  0 <= nonAtomicOps sh <= Z.of_nat W * I /\
  goroutines_started = 500%nat /\ increments_each = 1000 /\
  expected = Z.of_nat goroutines_started * increments_each /\
  expected = 500000 /\
  (W = goroutines_started -> I = increments_each ->
   run W I schedule = main_run schedule /\
   atomicOps sh = expected /\ atomicLost sh = 0 /\
   nonAtomicLost sh = expected - nonAtomicOps sh).
Proof.
  intros HI Hsmall Hdone sh.
  destruct (final_counters W I HI Hsmall schedule Hdone) as [Hat Hpl].
  fold sh in Hat, Hpl.
  split; [exact Hat |]. split; [exact Hpl |].
  split; [reflexivity |]. split; [reflexivity |]. split; [reflexivity |].
  split; [reflexivity |].
  intros -> ->. split; [reflexivity |].
  assert (He : Z.of_nat goroutines_started * increments_each = expected) by reflexivity.
  rewrite He in Hat, Hpl.
  split; [exact Hat |]. unfold atomicLost, nonAtomicLost. rewrite Hat.
  split; [rewrite Z.sub_diag; reflexivity |].
  apply wrapu_id. unfold expected in *. lia.
Qed.

(** Two goroutines of one pass each: both read the plain counter before
    either writes it back, and one increment is lost. *)
Lemma counters_after_wait_witness :
  0 <= 1 /\ Z.of_nat 2 * 1 < 2 ^ 63 /\
  all_done 1 (run 2 1 [0; 1; 0; 1; 0; 1]%nat) = true /\
  mem (run 2 1 [0; 1; 0; 1; 0; 1]%nat) = {| atomicOps := 2; nonAtomicOps := 1 |} /\
  atomicOps (mem (run 2 1 [0; 1; 0; 1; 0; 1]%nat)) = Z.of_nat 2 * 1.
Proof.
  assert (H1 : 0 <= 1) by lia.
  assert (H2 : Z.of_nat 2 * 1 < 2 ^ 63) by (vm_compute; reflexivity).
  assert (H3 : all_done 1 (run 2 1 [0; 1; 0; 1; 0; 1]%nat) = true) by reflexivity.
  split; [exact H1 |]. split; [exact H2 |]. split; [exact H3 |].
  split; [reflexivity |].
  exact (proj1 (counters_after_wait 2 1 [0; 1; 0; 1; 0; 1]%nat H1 H2 H3)).
Defined.

(** C4 as stated fails.  [main] does not run the map harness's 50
    goroutines: it starts 500 and expects 500000, and whenever all
    goroutines have returned (which some schedule achieves) the atomic
    counter is 500000, not 50000. *)
Lemma main_expects_500000 :
  ~ (goroutines_started = 50%nat /\ increments_each = 1000 /\ expected = 50000) /\
  ~ (forall schedule,
       all_done increments_each (main_run schedule) = true ->
       atomicOps (mem (main_run schedule)) = 50000).
Proof.
  split.
  - intros (H & _). discriminate H.
  - intros H.
    assert (HI : 0 <= increments_each) by (unfold increments_each; lia).
    assert (Hs : Z.of_nat goroutines_started * increments_each < 2 ^ 63)
      by (vm_compute; reflexivity).
    destruct (wait_returns goroutines_started increments_each HI Hs) as [schedule Hd].
    pose proof (H schedule Hd) as H50.
    destruct (final_counters goroutines_started increments_each HI Hs schedule Hd) as [Hat _].
    unfold main_run in H50. rewrite Hat in H50. vm_compute in H50. discriminate H50.
Qed.

End atomic_counter_facts.

(* ===================================================================== *)
(** ** More on the store *)
(* ===================================================================== *)

Module store_extra.
Import model store store_history GoInt_facts store_facts.

Lemma after_puts_snoc ps p : after_puts (ps ++ [p]) = Put (after_puts ps) p.
Proof. unfold after_puts. rewrite fold_left_app. reflexivity. Qed.

Lemma data_Put s p id :
  data (Put s p) !! id = if decide (ID p = id) then Some p else data s !! id.
Proof.
  simpl. destruct (decide (ID p = id)) as [<- | Hne].
  - apply lookup_insert_eq.
  - apply lookup_insert_ne. exact Hne.
Qed.

(** X1.  [Count()] is the number of [Put] calls made so far; when the
    products put have pairwise distinct IDs it is also the number of
    entries the store holds. *)
Theorem Count_is_number_of_Puts (ps : list Product) :
  Z.of_nat (length ps) <= GoInt.max_int ->
  Count (after_puts ps) = Z.of_nat (length ps) /\
  (NoDup (map ID ps) -> Z.of_nat (size (data (after_puts ps))) = Count (after_puts ps)).
Proof.
  intros H. pose proof (count_after_puts ps H) as Hc. split; [exact Hc |].
  intros Hnd. rewrite Hc, size_data_after_puts. unfold keys_written.
  rewrite size_list_to_set by exact Hnd. rewrite length_map. reflexivity.
Qed.

Lemma Count_is_number_of_Puts_witness :
  Z.of_nat (length [widget; gadget; stray]) <= GoInt.max_int /\
  Count (after_puts [widget; gadget; stray]) = 3 /\
  Z.of_nat (size (data (after_puts [widget; gadget; stray]))) = 3.
Proof.
  assert (H : Z.of_nat (length [widget; gadget; stray]) <= GoInt.max_int)
    by (vm_compute; discriminate).
  destruct (Count_is_number_of_Puts [widget; gadget; stray] H) as [Hc Hs].
  split; [exact H |]. split; [exact Hc |].
  rewrite Hs; [exact Hc |].
  apply (bool_decide_unpack _). vm_compute. exact I.
Defined.

Lemma last_put_snoc id ps p :
  last_put id (ps ++ [p]) = if decide (ID p = id) then Some p else last_put id ps.
Proof.
  unfold last_put. rewrite List.filter_app. simpl.
  destruct (decide (ID p = id)) as [Heq | Hne].
  - apply Z.eqb_eq in Heq. rewrite Heq. apply last_snoc.
  - apply Z.eqb_neq in Hne. rewrite Hne. rewrite app_nil_r. reflexivity.
Qed.

Lemma data_last_put ps id : data (after_puts ps) !! id = last_put id ps.
Proof.
  induction ps as [| p ps IH] using rev_ind.
  - reflexivity.
  - rewrite after_puts_snoc, data_Put, last_put_snoc, IH. reflexivity.
Qed.

(** X2.  Last write wins over a whole history: after any sequence of
    [Put] calls, [Get(id)] returns the product of the last call that
    carried this id, and reports not found when no call did. *)
Theorem Get_last_write_wins (ps : list Product) (id : Z) :
  Get (after_puts ps) id =
  match last_put id ps with
  | Some p => (p, true)
  | None => (zero, false)
  end.
Proof. unfold Get. rewrite data_last_put. reflexivity. Qed.

(** *** Stores numbered 1, 2, 3, ... *)

Lemma numbered_snoc ps p :
  numbered (ps ++ [p]) -> numbered ps /\ ID p = Z.of_nat (length ps) + 1.
Proof.
  intros H. split.
  - intros k q Hk. apply H. rewrite lookup_app_l; [exact Hk |].
    eapply lookup_lt_Some. exact Hk.
  - apply H. rewrite lookup_app_r by lia. rewrite Nat.sub_diag. reflexivity.
Qed.

Lemma numbered_NoDup ps : numbered ps -> NoDup (map ID ps).
Proof.
  intros H. apply NoDup_alt. intros i j x Hi Hj.
  rewrite list_lookup_fmap in Hi, Hj.
  destruct (ps !! i) as [p |] eqn:Ei; [| discriminate].
  destruct (ps !! j) as [q |] eqn:Ej; [| discriminate].
  simpl in Hi, Hj. apply H in Ei, Ej. injection Hi as <-. injection Hj as Hj. lia.
Qed.

Lemma data_numbered ps : numbered ps -> forall id,
  data (after_puts ps) !! id =
  if (1 <=? id) && (id <=? Z.of_nat (length ps)) then ps !! Z.to_nat (id - 1) else None.
Proof.
  induction ps as [| p ps IH] using rev_ind; intros Hn id.
  - change (data (after_puts []) !! id) with (@lookup _ _ (gmap Z Product) _ id ∅).
    rewrite lookup_empty. destruct ((1 <=? id) && (id <=? Z.of_nat (length (@nil Product))));
      reflexivity.
  - apply numbered_snoc in Hn as [Hn Hp].
    rewrite after_puts_snoc, data_Put, IH by exact Hn.
    rewrite length_app. simpl length.
    destruct (decide (ID p = id)) as [Heq | Hne].
    + rewrite <- Heq, Hp.
      replace ((1 <=? Z.of_nat (length ps) + 1)
               && (Z.of_nat (length ps) + 1 <=? Z.of_nat (length ps + 1))) with true
        by (symmetry; apply andb_true_iff; split; apply Z.leb_le; lia).
      rewrite lookup_app_r by lia.
      replace (Z.to_nat (Z.of_nat (length ps) + 1 - 1) - length ps)%nat with 0%nat by lia.
      reflexivity.
    + destruct (1 <=? id) eqn:E1; simpl; [| reflexivity].
      apply Z.leb_le in E1.
      destruct (id <=? Z.of_nat (length ps)) eqn:E2.
      * apply Z.leb_le in E2.
        replace (id <=? Z.of_nat (length ps + 1)) with true by (symmetry; apply Z.leb_le; lia).
        rewrite lookup_app_l by lia. reflexivity.
      * apply Z.leb_gt in E2.
        replace (id <=? Z.of_nat (length ps + 1)) with false by (symmetry; apply Z.leb_gt; lia).
        reflexivity.
Qed.

Lemma omap_lookup_drop (ps : list Product) (f : Z -> option Product) (n : nat) : forall k,
  (forall j, (k <= j < length ps)%nat -> f (Z.of_nat j + 1) = ps !! j) ->
  n = (length ps - k)%nat ->
  omap f (seqZ (Z.of_nat k + 1) (Z.of_nat n)) = drop k ps.
Proof.
  induction n as [| n IH]; intros k Hf Hn.
  - rewrite seqZ_nil by lia. rewrite drop_ge by lia. reflexivity.
  - rewrite seqZ_cons by lia.
    destruct (lookup_lt_is_Some_2 ps k ltac:(lia)) as [x Hx].
    rewrite (drop_S _ _ _ Hx).
    change (omap f (?a :: ?l)) with (match f a with Some y => y :: omap f l | None => omap f l end).
    rewrite (Hf k) by lia. rewrite Hx. f_equal.
    replace (Z.succ (Z.of_nat k + 1)) with (Z.of_nat (S k) + 1) by lia.
    replace (Z.pred (Z.of_nat (S n))) with (Z.of_nat n) by lia.
    apply IH; [| lia]. intros j Hj. apply Hf. lia.
Qed.

(** The entries [Iterate] can see from [startID] on are the products
    from position [startID] to the end. *)
Lemma present_numbered ps startID :
  numbered ps -> Z.of_nat (length ps) <= GoInt.max_int -> 1 <= startID ->
  present (after_puts ps) startID = drop (Z.to_nat (startID - 1)) ps.
Proof.
  intros Hn Hlen Hs. unfold present.
  pose proof (count_after_puts ps Hlen) as Hc. unfold Count in Hc. rewrite Hc.
  destruct (Z_le_gt_dec startID (Z.of_nat (length ps))) as [Hle | Hgt].
  - replace startID with (Z.of_nat (Z.to_nat (startID - 1)) + 1) at 1 by lia.
    replace (Z.of_nat (length ps) - startID + 1)
      with (Z.of_nat (length ps - Z.to_nat (startID - 1))) by lia.
    apply omap_lookup_drop; [| reflexivity].
    intros j Hj. rewrite data_numbered by exact Hn.
    replace ((1 <=? Z.of_nat j + 1) && (Z.of_nat j + 1 <=? Z.of_nat (length ps))) with true
      by (symmetry; apply andb_true_iff; split; apply Z.leb_le; lia).
    f_equal. lia.
  - rewrite seqZ_nil by lia. rewrite drop_ge by lia. reflexivity.
Qed.

(** A callback that never stops is called on the first [maxCount]
    products of a list. *)
Lemma visit_upto_all {A : Type} (fn : Product -> A -> bool * A) maxCount l :
  (forall p a, fst (fn p a) = true) ->
  forall visited tr st,
  exists st',
    visit_upto (recording fn) maxCount l visited (tr, st)
    = (visited + Z.of_nat (length (take (Z.to_nat (maxCount - visited)) l)),
       (tr ++ map (fun p => (p, true)) (take (Z.to_nat (maxCount - visited)) l), st')) /\
    visit_upto fn maxCount l visited st
    = (visited + Z.of_nat (length (take (Z.to_nat (maxCount - visited)) l)), st').
Proof.
  intros Hfn. induction l as [| p l IH]; intros visited tr st.
  - exists st. rewrite take_nil. simpl. rewrite app_nil_r, Z.add_0_r. auto.
  - simpl visit_upto. destruct (visited <? maxCount) eqn:Hlt.
    + apply Z.ltb_lt in Hlt.
      replace (Z.to_nat (maxCount - visited)) with (S (Z.to_nat (maxCount - (visited + 1)))) by lia.
      rewrite firstn_cons. unfold recording at 1. simpl snd. simpl fst.
      specialize (Hfn p st). destruct (fn p st) as [c st1]. simpl in Hfn. subst c.
      destruct (IH (visited + 1) (tr ++ [(p, true)]) st1) as (st' & E1 & E2).
      exists st'. rewrite E1, E2. simpl length. simpl map. rewrite <- app_assoc. simpl app.
      split; f_equal; lia.
    + apply Z.ltb_ge in Hlt.
      replace (Z.to_nat (maxCount - visited)) with 0%nat by lia.
      exists st. rewrite take_0. simpl. rewrite app_nil_r, Z.add_0_r. auto.
Qed.

(** X3.  On a store filled with products numbered 1, 2, 3, ... (as the
    generator fills it), [Iterate(startID, maxCount, fn)] with a callback
    that never stops visits exactly the page of [maxCount] products that
    starts at [startID]: the products number [startID],
    [startID + 1], ..., in this order, cut at the end of the catalog; it
    returns their number. *)
Theorem Iterate_page {A : Type} (fn : Product -> A -> bool * A) (st : A)
    (ps : list Product) (startID maxCount : Z) :
  numbered ps ->
  Z.of_nat (length ps) < GoInt.max_int ->
  1 <= startID <= GoInt.max_int ->
  maxCount <= GoInt.max_int ->
  (forall p a, fst (fn p a) = true) ->
  exists st',
    Iterate (after_puts ps) startID maxCount (recording fn) ([], st)
    = (Z.of_nat (length (page ps startID maxCount)),
       (map (fun p => (p, true)) (page ps startID maxCount), st')) /\
    Iterate (after_puts ps) startID maxCount fn st
    = (Z.of_nat (length (page ps startID maxCount)), st') /\
    Z.of_nat (length (page ps startID maxCount))
    = Z.max 0 (Z.min maxCount (Z.of_nat (length ps) - startID + 1)).
Proof.
  intros Hn Hlen Hs Hm Hfn.
  assert (Hc : count (after_puts ps) < GoInt.max_int).
  { pose proof (count_after_puts ps ltac:(lia)) as Hc. unfold Count in Hc. lia. }
  rewrite !Iterate_visit by (try assumption; unfold GoInt.min_int; lia).
  rewrite present_numbered by (try assumption; lia).
  destruct (visit_upto_all fn maxCount (drop (Z.to_nat (startID - 1)) ps) Hfn 0 [] st)
    as (st' & E1 & E2).
  rewrite Z.sub_0_r, Z.add_0_l in E1, E2. simpl app in E1.
  exists st'. unfold page. split; [exact E1 |]. split; [exact E2 |].
  rewrite length_take, length_drop. lia.
Qed.

Lemma Iterate_page_witness :
  numbered [widget; gadget] /\
  Z.of_nat (length [widget; gadget]) < GoInt.max_int /\
  1 <= 2 <= GoInt.max_int /\ 5 <= GoInt.max_int /\
  (forall p a, fst (count_calls p a) = true) /\
  page [widget; gadget] 2 5 = [gadget] /\
  exists st',
    Iterate (after_puts [widget; gadget]) 2 5 (recording count_calls) ([], 0%nat)
    = (Z.of_nat (length (page [widget; gadget] 2 5)),
       (map (fun p => (p, true)) (page [widget; gadget] 2 5), st')).
Proof.
  assert (H1 : numbered [widget; gadget]).
  { intros [| [| k]] p Hk; simpl in Hk; try discriminate Hk; injection Hk as <-; reflexivity. }
  assert (H2 : Z.of_nat (length [widget; gadget]) < GoInt.max_int) by (vm_compute; reflexivity).
  assert (H3 : 1 <= 2 <= GoInt.max_int) by (split; vm_compute; discriminate).
  assert (H4 : 5 <= GoInt.max_int) by (vm_compute; discriminate).
  assert (H5 : forall p a, fst (count_calls p a) = true) by (intros p a; reflexivity).
  split; [exact H1 |]. split; [exact H2 |]. split; [exact H3 |]. split; [exact H4 |].
  split; [exact H5 |]. split; [reflexivity |].
  destruct (Iterate_page count_calls 0%nat [widget; gadget] 2 5 H1 H2 H3 H4 H5)
    as (st' & E & _).
  exists st'. exact E.
Defined.

End store_extra.

(* ===================================================================== *)
(** ** The generator *)
(* ===================================================================== *)

Module generator_facts.
Import model store store_history generator GoInt_facts store_facts store_extra.

Section Seeds.
Variable seeds : list seeddata.SeedProduct.
Hypothesis seeds_nonempty : seeds <> [].

Lemma numSeeds_pos : 0 < Z.of_nat (length seeds).
Proof. destruct seeds; [contradiction | simpl; lia]. Qed.

Lemma seed_index_lt i : (seed_index seeds i < length seeds)%nat.
Proof.
  unfold seed_index. pose proof numSeeds_pos.
  pose proof (Z.mod_pos_bound (i - 1) (Z.of_nat (length seeds)) ltac:(lia)). lia.
Qed.

(** The loop body never panics: with at least one seed the index
    [(i-1)%numSeeds] is within the slice, and the product built is the
    seed at that index in the edition [(i-1)/numSeeds + 1]. *)
Lemma variant_Some i :
  1 <= i <= GoInt.max_int ->
  exists seed,
    seeds !! seed_index seeds i = Some seed /\
    variant seeds (Z.of_nat (length seeds)) i = Some (edition_of seed i (edition seeds i)).
Proof.
  intros Hi. pose proof numSeeds_pos as Hn.
  destruct (lookup_lt_is_Some_2 seeds (seed_index seeds i) (seed_index_lt i)) as [seed Hseed].
  exists seed. split; [exact Hseed |].
  unfold variant.
  replace (Z.of_nat (length seeds) =? 0) with false by (symmetry; apply Z.eqb_neq; lia).
  rewrite (wrap_id (i - 1)) by (unfold GoInt.in_range, GoInt.min_int, GoInt.max_int in *; lia).
  rewrite Z.rem_mod_nonneg by lia. rewrite Z.quot_div_nonneg by lia.
  pose proof (Z.mod_pos_bound (i - 1) (Z.of_nat (length seeds)) Hn) as Hm.
  replace ((i - 1) mod Z.of_nat (length seeds) <? 0) with false
    by (symmetry; apply Z.ltb_ge; lia).
  replace (Z.of_nat (length seeds) <=? (i - 1) mod Z.of_nat (length seeds)) with false
    by (symmetry; apply Z.leb_gt; lia).
  simpl orb. fold (seed_index seeds i). rewrite Hseed.
  assert (Hq : 0 <= (i - 1) / Z.of_nat (length seeds) <= i - 1).
  { split; [apply Z.div_pos; lia |]. apply Z.div_le_upper_bound; nia. }
  rewrite (wrap_id ((i - 1) / Z.of_nat (length seeds) + 1))
    by (unfold GoInt.in_range, GoInt.min_int, GoInt.max_int in *; lia).
  fold (edition seeds i).
  rewrite (wrap_id (edition seeds i - 1))
    by (unfold edition, GoInt.in_range, GoInt.min_int, GoInt.max_int in *; lia).
  reflexivity.
Qed.

Lemma populate_loop_spec total (n : nat) : forall i s,
  n = Z.to_nat (total - i + 1) -> 1 <= i -> total < GoInt.max_int ->
  populate_loop seeds (Z.of_nat (length seeds)) total n i s
  = Some (fold_left Put
            (omap (variant seeds (Z.of_nat (length seeds))) (seqZ i (total - i + 1))) s).
Proof.
  induction n as [| n IH]; intros i s Hn Hi Ht.
  - rewrite seqZ_nil by lia. reflexivity.
  - rewrite seqZ_cons by lia. simpl populate_loop.
    replace (i <=? total) with true by (symmetry; apply Z.leb_le; lia).
    destruct (variant_Some i ltac:(lia)) as (seed & _ & Hv).
    change (omap ?f (?a :: ?l)) with (match f a with Some y => y :: omap f l | None => omap f l end).
    rewrite Hv. simpl fold_left.
    rewrite wrap_succ by (unfold GoInt.min_int; lia).
    replace (Z.pred (total - i + 1)) with (total - Z.succ i + 1) by lia.
    apply IH; lia.
Qed.

Lemma populate_with_spec total s :
  total < GoInt.max_int ->
  populate_with seeds total s = Some (fold_left Put (catalog seeds total) s).
Proof.
  intros Ht. unfold populate_with, catalog.
  rewrite (populate_loop_spec total) by lia.
  replace (total - 1 + 1) with total by lia. reflexivity.
Qed.

(** The catalog, position by position. *)
Lemma catalog_lookup total (k : nat) :
  total < GoInt.max_int ->
  catalog seeds total !! k =
  if Z.of_nat k <? total
  then option_map (fun seed => edition_of seed (Z.of_nat k + 1) (edition seeds (Z.of_nat k + 1)))
         (seeds !! seed_index seeds (Z.of_nat k + 1))
  else None.
Proof.
  intros Ht. unfold catalog.
  assert (H : forall (n : nat) (i : Z) (k : nat), 1 <= i -> i + Z.of_nat n <= GoInt.max_int ->
            omap (variant seeds (Z.of_nat (length seeds))) (seqZ i (Z.of_nat n)) !! k =
            if (k <? n)%nat
            then option_map (fun seed => edition_of seed (i + Z.of_nat k)
                                           (edition seeds (i + Z.of_nat k)))
                   (seeds !! seed_index seeds (i + Z.of_nat k))
            else None).
  { induction n as [| n IH]; intros i j Hi Hmax.
    - rewrite seqZ_nil by lia. destruct (j <? 0)%nat eqn:E; [apply Nat.ltb_lt in E; lia |].
      apply lookup_nil.
    - rewrite seqZ_cons by lia.
      change (omap ?f (?a :: ?l))
        with (match f a with Some y => y :: omap f l | None => omap f l end).
      destruct (variant_Some i ltac:(lia)) as (seed & Hs & Hv). rewrite Hv.
      destruct j as [| j].
      + simpl. rewrite Z.add_0_r, Hs. reflexivity.
      + simpl lookup. replace (Z.pred (Z.of_nat (S n))) with (Z.of_nat n) by lia.
        rewrite IH by lia.
        replace (Z.succ i + Z.of_nat j) with (i + Z.of_nat (S j)) by lia.
        reflexivity. }
  destruct (Z_le_gt_dec 0 total) as [Hpos | Hneg].
  - replace total with (Z.of_nat (Z.to_nat total)) at 1 by lia.
    rewrite H by lia.
    replace (1 + Z.of_nat k) with (Z.of_nat k + 1) by lia.
    destruct (Z.of_nat k <? total) eqn:E.
    + apply Z.ltb_lt in E. replace (k <? Z.to_nat total)%nat with true
        by (symmetry; apply Nat.ltb_lt; lia). reflexivity.
    + apply Z.ltb_ge in E. replace (k <? Z.to_nat total)%nat with false
        by (symmetry; apply Nat.ltb_ge; lia). reflexivity.
  - rewrite seqZ_nil by lia.
    replace (Z.of_nat k <? total) with false by (symmetry; apply Z.ltb_ge; lia).
    apply lookup_nil.
Qed.

Lemma catalog_length total :
  0 <= total < GoInt.max_int -> Z.of_nat (length (catalog seeds total)) = total.
Proof.
  intros Ht.
  assert (Hlt : forall k, (k < length (catalog seeds total))%nat <-> Z.of_nat k < total).
  { intros k. rewrite <- lookup_lt_is_Some, catalog_lookup by lia.
    destruct (Z.of_nat k <? total) eqn:E.
    - apply Z.ltb_lt in E.
      destruct (lookup_lt_is_Some_2 seeds _ (seed_index_lt (Z.of_nat k + 1))) as [seed ->].
      simpl. split; [intros _; exact E | intros _; eauto].
    - apply Z.ltb_ge in E. split; [intros [x Hx]; discriminate Hx | lia]. }
  destruct (Z_lt_le_dec (Z.of_nat (length (catalog seeds total))) total) as [H | H].
  - apply Hlt in H. lia.
  - destruct (Z.eq_dec (Z.of_nat (length (catalog seeds total))) total) as [E | E]; [exact E |].
    assert (Hk : (Z.to_nat total < length (catalog seeds total))%nat) by lia.
    apply Hlt in Hk. lia.
Qed.

Lemma catalog_numbered total : total < GoInt.max_int -> numbered (catalog seeds total).
Proof.
  intros Ht k p Hk. rewrite catalog_lookup in Hk by exact Ht.
  destruct (Z.of_nat k <? total); [| discriminate].
  destruct (seeds !! seed_index seeds (Z.of_nat k + 1)); [| discriminate].
  simpl in Hk. injection Hk as <-. reflexivity.
Qed.

End Seeds.

Lemma TotalProducts_small : 0 <= TotalProducts < GoInt.max_int.
Proof. split; vm_compute; congruence. Qed.

Lemma Load_nonempty get unmarshal seeds :
  seeddata.Load get unmarshal = seeddata.Returned seeds -> seeds <> [].
Proof.
  intros H. apply seeddata_facts.Load_Returned in H
    as (resp & body & apiResp & _ & _ & _ & _ & Hne & ->).
  destruct (seeddata.r_Products apiResp); [contradiction | discriminate].
Qed.

(** How [Populate] ends, by the outcome of [Load]. *)
Lemma Populate_cases get unmarshal s :
  match Populate get unmarshal s with
  | Panic _ => False
  | Fatal msg => seeddata.Load get unmarshal = seeddata.Fatal msg
  | Completed s' =>
      exists seeds,
        seeddata.Load get unmarshal = seeddata.Returned seeds /\ seeds <> [] /\
        s' = fold_left Put (catalog seeds TotalProducts) s
  end.
Proof.
  unfold Populate. destruct (seeddata.Load get unmarshal) as [seeds | msg] eqn:HL.
  - pose proof (Load_nonempty _ _ _ HL) as Hne.
    rewrite (populate_with_spec seeds Hne) by apply TotalProducts_small.
    exists seeds. auto.
  - reflexivity.
Qed.

(** X4.  [Populate] never panics: it divides by the number of seeds and
    indexes the seeds, but [Load] exits the process rather than return an
    empty catalog.  [Populate] ends the process exactly when [Load] does,
    with the same message; otherwise it returns, having put the 100000
    products of the catalog into the store in the order of their ids. *)
Theorem Populate_never_panics (get : option seeddata.response)
    (unmarshal : string -> option seeddata.dummyJSONResponse) (s : ProductStore) :
  (forall msg, Populate get unmarshal s <> Panic msg) /\
  (forall msg, Populate get unmarshal s = Fatal msg <->
               seeddata.Load get unmarshal = seeddata.Fatal msg) /\
  (forall s', Populate get unmarshal s = Completed s' <->
     exists seeds,
       seeddata.Load get unmarshal = seeddata.Returned seeds /\ seeds <> [] /\
       s' = fold_left Put (catalog seeds TotalProducts) s).
Proof.
  pose proof (Populate_cases get unmarshal s) as H.
  split; [| split].
  - intros msg E. rewrite E in H. exact H.
  - intros msg. split.
    + intros E. rewrite E in H. exact H.
    + intros E. destruct (Populate get unmarshal s) as [s' | msg' | msg'].
      * destruct H as (seeds & HL & _). congruence.
      * congruence.
      * contradiction.
  - intros s'. split.
    + intros E. rewrite E in H. exact H.
    + intros (seeds & HL & Hne & ->).
      destruct (Populate get unmarshal s) as [s' | msg' | msg'].
      * destruct H as (seeds' & HL' & _ & ->). congruence.
      * congruence.
      * contradiction.
Qed.

(** The store [Populate] leaves when it starts from an empty one. *)
Lemma Populate_New get unmarshal seeds :
  seeddata.Load get unmarshal = seeddata.Returned seeds ->
  Populate get unmarshal New = Completed (after_puts (catalog seeds TotalProducts)).
Proof.
  intros HL. unfold Populate. rewrite HL.
  rewrite (populate_with_spec seeds (Load_nonempty _ _ _ HL)) by apply TotalProducts_small.
  unfold after_puts. generalize (catalog seeds TotalProducts). reflexivity.
Qed.

Lemma Get_catalog seeds total id :
  seeds <> [] -> 0 <= total < GoInt.max_int ->
  Get (after_puts (catalog seeds total)) id =
  if (1 <=? id) && (id <=? total)
  then match seeds !! seed_index seeds id with
       | Some seed => (edition_of seed id (edition seeds id), true)
       | None => (zero, false)
       end
  else (zero, false).
Proof.
  intros Hne Ht. unfold Get.
  rewrite data_numbered by (apply catalog_numbered; [exact Hne | lia]).
  rewrite (catalog_length seeds Hne total Ht).
  destruct ((1 <=? id) && (id <=? total)) eqn:E; [| reflexivity].
  apply andb_true_iff in E as [E1 E2]. apply Z.leb_le in E1, E2.
  rewrite catalog_lookup by (assumption || lia).
  replace (Z.of_nat (Z.to_nat (id - 1)) <? total) with true by (symmetry; apply Z.ltb_lt; lia).
  replace (Z.of_nat (Z.to_nat (id - 1)) + 1) with id by lia.
  destruct (seeds !! seed_index seeds id); reflexivity.
Qed.

(** X5.  When [Load] returns the seeds, [Populate] on an empty store
    returns a store where [Count()] is 100000, the map holds 100000
    entries, and [Get(id)] finds, for each id from 1 to 100000, the
    product numbered [id] made of the seed at index [(id-1) mod n] in its
    edition [(id-1)/n + 1] ([n] the number of seeds), its price being the
    seed's price times [1.0 + float64(edition-1)*0.01] with every
    [float64] operation rounded on its own; under any other id nothing is
    found. *)
Theorem Populate_fills_store (get : option seeddata.response)
    (unmarshal : string -> option seeddata.dummyJSONResponse)
    (seeds : list seeddata.SeedProduct) :
  seeddata.Load get unmarshal = seeddata.Returned seeds ->
  exists s,
    Populate get unmarshal New = Completed s /\
    Count s = TotalProducts /\ TotalProducts = 100000 /\
    Z.of_nat (size (data s)) = TotalProducts /\
    (forall id, 1 <= id <= TotalProducts ->
       exists seed,
         seeds !! seed_index seeds id = Some seed /\
         Get s id = (edition_of seed id (edition seeds id), true)) /\
    (forall id, ~ (1 <= id <= TotalProducts) -> Get s id = (zero, false)).
Proof.
  intros HL. pose proof (Load_nonempty _ _ _ HL) as Hne.
  pose proof TotalProducts_small as Ht.
  pose proof (catalog_length seeds Hne TotalProducts Ht) as Hlen.
  exists (after_puts (catalog seeds TotalProducts)).
  split; [apply Populate_New; exact HL |].
  split; [rewrite count_after_puts; lia |]. split; [reflexivity |].
  split.
  { rewrite size_data_after_puts. unfold keys_written.
    rewrite size_list_to_set by (apply numbered_NoDup, catalog_numbered; [exact Hne | lia]).
    rewrite length_map. exact Hlen. }
  split.
  - intros id Hid. rewrite Get_catalog by assumption.
    replace ((1 <=? id) && (id <=? TotalProducts)) with true
      by (symmetry; apply andb_true_iff; split; apply Z.leb_le; lia).
    destruct (lookup_lt_is_Some_2 seeds _ (seed_index_lt seeds Hne id)) as [seed Hs].
    exists seed. rewrite Hs. auto.
  - intros id Hid. rewrite Get_catalog by assumption.
    destruct ((1 <=? id) && (id <=? TotalProducts)) eqn:E; [| reflexivity].
    apply andb_true_iff in E as [E1 E2]. apply Z.leb_le in E1, E2. lia.
Qed.

Lemma Populate_fills_store_witness :
  seeddata.Load (Some {| seeddata.StatusCode := 200; seeddata.Body := Some "{...}"%string |})
                (fun _ => Some seeddata.sample_catalog)
  = seeddata.Returned seeddata.sample_seeds /\
  exists s,
    Populate (Some {| seeddata.StatusCode := 200; seeddata.Body := Some "{...}"%string |})
             (fun _ => Some seeddata.sample_catalog) New = Completed s /\
    Count s = 100000 /\
    (exists seed, seeddata.sample_seeds !! seed_index seeddata.sample_seeds 100000 = Some seed /\
                  Get s 100000 = (edition_of seed 100000 (edition seeddata.sample_seeds 100000), true)) /\
    Get s 100001 = (zero, false).
Proof.
  assert (HL : seeddata.Load
                 (Some {| seeddata.StatusCode := 200; seeddata.Body := Some "{...}"%string |})
                 (fun _ => Some seeddata.sample_catalog)
               = seeddata.Returned seeddata.sample_seeds) by reflexivity.
  split; [exact HL |].
  destruct (Populate_fills_store _ _ _ HL) as (s & HP & Hc & _ & _ & Hin & Hout).
  exists s. split; [exact HP |]. split; [exact Hc |].
  split; [apply Hin; unfold TotalProducts; lia | apply Hout; unfold TotalProducts; lia].
Defined.

(** X6.  Every product found in the store after [Populate] is stored
    under its own id, between 1 and 100000, and comes from one of the
    seeds [Load] returned: it has the seed's category, description and
    brand, hence never an empty brand, and its name begins with the seed's
    name and is the seed's name unchanged in the first cycle over the
    seeds. *)
Theorem Populate_products_from_seeds (get : option seeddata.response)
    (unmarshal : string -> option seeddata.dummyJSONResponse)
    (seeds : list seeddata.SeedProduct) :
  seeddata.Load get unmarshal = seeddata.Returned seeds ->
  exists s,
    Populate get unmarshal New = Completed s /\
    forall id p, Get s id = (p, true) ->
      1 <= id <= TotalProducts /\ ID p = id /\ Brand p <> EmptyString /\
      exists seed,
        In seed seeds /\
        Category p = seeddata.Category seed /\
        Description p = seeddata.Description seed /\
        Brand p = seeddata.Brand seed /\
        String.prefix (seeddata.Name seed) (Name p) = true /\
        (id <= Z.of_nat (length seeds) -> Name p = seeddata.Name seed).
Proof.
  intros HL. pose proof (Load_nonempty _ _ _ HL) as Hne.
  exists (after_puts (catalog seeds TotalProducts)).
  split; [apply Populate_New; exact HL |].
  intros id p. rewrite Get_catalog by (exact Hne || apply TotalProducts_small).
  destruct ((1 <=? id) && (id <=? TotalProducts)) eqn:E; [| discriminate].
  apply andb_true_iff in E as [E1 E2]. apply Z.leb_le in E1, E2.
  destruct (seeds !! seed_index seeds id) as [seed |] eqn:Hs; [| discriminate].
  intros [= <-]. split; [lia |]. split; [reflexivity |].
  assert (Hin : In seed seeds).
  { apply list_elem_of_In. eapply list_elem_of_lookup_2. exact Hs. }
  split.
  { simpl. apply seeddata_facts.Load_Returned in HL
      as (resp & body & apiResp & _ & _ & _ & _ & _ & ->).
    apply in_map_iff in Hin as (q & <- & _). apply seeddata_facts.seed_of_Brand. }
  exists seed. split; [exact Hin |]. simpl.
  split; [reflexivity |]. split; [reflexivity |]. split; [reflexivity |].
  pose proof (numSeeds_pos seeds Hne) as Hn.
  split.
  - destruct (1 <? edition seeds id).
    + apply search_facts.prefix_split. eexists. reflexivity.
    + apply search_facts.prefix_split. exists EmptyString.
      generalize (seeddata.Name seed). clear.
      intros n. induction n as [| a n IH]; [reflexivity | exact (f_equal (String a) IH)].
  - intros Hfirst. unfold edition.
    rewrite Z.div_small by lia. reflexivity.
Qed.

Lemma Populate_products_from_seeds_witness :
  seeddata.Load (Some {| seeddata.StatusCode := 200; seeddata.Body := Some "[]"%string |})
                (fun _ => Some seeddata.sample_catalog)
  = seeddata.Returned seeddata.sample_seeds /\
  exists s,
    Populate (Some {| seeddata.StatusCode := 200; seeddata.Body := Some "[]"%string |})
             (fun _ => Some seeddata.sample_catalog) New = Completed s /\
    forall id p, Get s id = (p, true) -> Brand p <> EmptyString.
Proof.
  assert (HL : seeddata.Load
                 (Some {| seeddata.StatusCode := 200; seeddata.Body := Some "[]"%string |})
                 (fun _ => Some seeddata.sample_catalog)
               = seeddata.Returned seeddata.sample_seeds) by reflexivity.
  split; [exact HL |].
  destruct (Populate_products_from_seeds _ _ _ HL) as (s & HP & H).
  exists s. split; [exact HP |].
  intros id p Hg. exact (proj1 (proj2 (proj2 (H id p Hg)))).
Defined.

(** The second product of the second cycle over two seeds. *)
Example variant_second_edition :
  variant seeddata.sample_seeds 2 4
  = Some {| ID := 4; Name := "Apple Edition 2"; Category := "groceries";
            Description := "fresh"; Brand := "Generic"; Price := GoFloat.zero |}.
Proof. reflexivity. Qed.

(** The price drift on binary64 values: a seed priced 9.99 costs
    [9.99 * (1.0 + 2*0.01)], that is 10.1898 to the nearest float, in its
    third edition. *)
Example variant_price_drift :
  option_map Price
    (variant [ {| seeddata.Name := "Mascara"; seeddata.Category := "beauty";
                  seeddata.Description := "black"; seeddata.Brand := "Essence";
                  seeddata.Price := S754_finite false 5623870034678907 (-49) |} ] 1 3)
  = Some (S754_finite false 5736347435372485 (-49)).
Proof. vm_compute. reflexivity. Qed.

End generator_facts.

(* ===================================================================== *)
(** ** More on the search *)
(* ===================================================================== *)

Module search_extra.
Import model store store_history search generator.
Import GoInt_facts store_facts store_extra search_facts generator_facts.

(** The result of [Execute], in closed form. *)
Lemma Execute_eq ToLower s query searchTime :
  count s < GoInt.max_int ->
  Execute ToLower s query searchTime =
  {| Products :=
       take (Z.to_nat MaxResults)
         (List.filter (is_match ToLower (ToLower query))
            (take (Z.to_nat MaxCheck) (present s 1)));
     TotalFound :=
       Z.of_nat (length (List.filter (is_match ToLower (ToLower query))
                           (take (Z.to_nat MaxCheck) (present s 1))));
     SearchTime := searchTime;
     Checked := Z.of_nat (length (take (Z.to_nat MaxCheck) (present s 1))) |}.
Proof.
  intros Hc. unfold Execute.
  rewrite Iterate_visit
    by (try exact Hc; unfold GoInt.min_int, GoInt.max_int, MaxCheck; lia).
  rewrite visit_callback.
  - cbn zeta. simpl app. rewrite !Z.add_0_l.
    replace (MaxCheck - 0) with MaxCheck by lia.
    replace (MaxResults - Z.of_nat (length (@nil Product))) with MaxResults by (simpl; lia).
    reflexivity.
  - lia.
  - pose proof (length_present s 1). unfold GoInt.max_int in *. lia.
Qed.

Lemma sublist_List_filter {X : Type} (f : X -> bool) (l : list X) :
  List.filter f l `sublist_of` l.
Proof.
  induction l as [| x l IH]; simpl; [constructor |].
  destruct (f x); [apply sublist_skip | apply sublist_cons]; exact IH.
Qed.

Lemma sublist_omap_keys (f : Z -> option Product) (l : list Z) :
  (forall k p, f k = Some p -> ID p = k) ->
  map ID (omap f l) `sublist_of` l.
Proof.
  intros Hf. induction l as [| k l IH]; [constructor |].
  change (omap f (k :: l)) with (match f k with Some y => y :: omap f l | None => omap f l end).
  destruct (f k) as [p |] eqn:E.
  - simpl map. rewrite (Hf k p E). apply sublist_skip. exact IH.
  - apply sublist_cons. exact IH.
Qed.

Lemma StronglySorted_seqZ m n : StronglySorted Z.lt (seqZ m n).
Proof.
  destruct (Z_le_gt_dec n 0) as [Hn | Hn]; [rewrite seqZ_nil by lia; constructor |].
  replace n with (Z.of_nat (Z.to_nat n)) by lia.
  generalize (Z.to_nat n) as k. clear. intros k. revert m.
  induction k as [| k IH]; intros m.
  - rewrite seqZ_nil by lia. constructor.
  - rewrite seqZ_cons by lia. constructor.
    + replace (Z.pred (Z.of_nat (S k))) with (Z.of_nat k) by lia. apply IH.
    + apply List.Forall_forall. intros x Hx.
      apply list_elem_of_In, elem_of_seqZ in Hx. lia.
Qed.

Lemma StronglySorted_sublist (l k : list Z) :
  l `sublist_of` k -> StronglySorted Z.lt k -> StronglySorted Z.lt l.
Proof.
  induction 1 as [| x l k Hs IH | x l k Hs IH]; intros Hk.
  - constructor.
  - apply StronglySorted_inv in Hk as [Hk Hx]. constructor; [apply IH; exact Hk |].
    apply List.Forall_forall. intros y Hy.
    rewrite List.Forall_forall in Hx. apply Hx.
    apply list_elem_of_In. eapply elem_of_sublist; [| exact Hs].
    apply list_elem_of_In. exact Hy.
  - apply StronglySorted_inv in Hk as [Hk _]. apply IH. exact Hk.
Qed.

Lemma StronglySorted_NoDup (l : list Z) : StronglySorted Z.lt l -> NoDup l.
Proof.
  induction 1 as [| x l Hl IH Hx]; constructor; [| exact IH].
  intros Hin. apply list_elem_of_In in Hin.
  rewrite List.Forall_forall in Hx. specialize (Hx x Hin). lia.
Qed.

(** An entry of the store is kept under its own id. *)
Lemma data_key ps id p : data (after_puts ps) !! id = Some p -> ID p = id.
Proof.
  rewrite data_last_put. unfold last_put. intros H.
  apply last_Some_elem_of, list_elem_of_In, filter_In in H as [_ H].
  apply Z.eqb_eq in H. exact H.
Qed.

(** X7.  Whatever sequence of [Put] calls filled the store and whatever
    the query, the products [Execute] returns are current entries of the
    store ([Get] finds each under its id), and they are listed in
    strictly increasing order of id, so none is listed twice. *)
Theorem Execute_results_ordered (ToLower : string -> string)
    (ps : list Product) (query searchTime : string) :
  Z.of_nat (length ps) < GoInt.max_int ->
  let s := after_puts ps in
  let r := Execute ToLower s query searchTime in
  StronglySorted Z.lt (map ID (Products r)) /\
  NoDup (Products r) /\
  (forall p, In p (Products r) -> Get s (ID p) = (p, true) /\ 1 <= ID p <= Count s).
Proof.
  intros Hlen s r.
  assert (Hc : count s < GoInt.max_int).
  { pose proof (count_after_puts ps ltac:(lia)) as Hc. unfold Count in Hc. unfold s. lia. }
  assert (Hsub : Products r `sublist_of` present s 1).
  { unfold r. rewrite Execute_eq by exact Hc. simpl Products.
    etransitivity; [apply sublist_take |].
    etransitivity; [apply sublist_List_filter |]. apply sublist_take. }
  assert (Hsorted : StronglySorted Z.lt (map ID (Products r))).
  { apply (StronglySorted_sublist _ (seqZ 1 (count s - 1 + 1))); [| apply StronglySorted_seqZ].
    etransitivity; [apply fmap_sublist; exact Hsub |].
    apply sublist_omap_keys. intros k p. apply data_key. }
  split; [exact Hsorted |]. split.
  - apply (NoDup_fmap_1 ID), StronglySorted_NoDup, Hsorted.
  - intros p Hp.
    assert (Hin : In p (present s 1)).
    { apply list_elem_of_In. eapply elem_of_sublist; [| exact Hsub].
      apply list_elem_of_In. exact Hp. }
    apply present_spec in Hin as (id & Hid & Hd).
    pose proof (data_key ps id p Hd) as Hk. subst id.
    split; [| exact Hid]. unfold Get. fold s. rewrite Hd. reflexivity.
Qed.

Lemma Execute_results_ordered_witness :
  Z.of_nat (length [widget; gadget; widget_v2; stray]) < GoInt.max_int /\
  Products (Execute ascii_ToLower (after_puts [widget; gadget; widget_v2; stray]) "G" "1ms")
  = [widget_v2; gadget] /\
  StronglySorted Z.lt
    (map ID (Products (Execute ascii_ToLower
                         (after_puts [widget; gadget; widget_v2; stray]) "G" "1ms"))).
Proof.
  assert (H : Z.of_nat (length [widget; gadget; widget_v2; stray]) < GoInt.max_int)
    by (vm_compute; reflexivity).
  split; [exact H |]. split; [vm_compute; reflexivity |].
  exact (proj1 (Execute_results_ordered ascii_ToLower [widget; gadget; widget_v2; stray]
                  "G" "1ms" H)).
Defined.

(** X25.  An empty query matches every product: when lower-casing
    leaves the empty string empty (as [strings.ToLower] does), [Execute]
    on the empty query counts every product it checks as found and
    returns the first [MaxResults] of the products checked.  ([Search]
    answers 400 before calling [Execute] with an empty query.) *)
Theorem Execute_empty_query (ToLower : string -> string)
    (s : ProductStore) (searchTime : string) :
  ToLower EmptyString = EmptyString ->
  count s < GoInt.max_int ->
  let r := Execute ToLower s EmptyString searchTime in
  TotalFound r = Checked r /\
  Products r = take (Z.to_nat MaxResults) (take (Z.to_nat MaxCheck) (present s 1)) /\
  Z.of_nat (length (Products r)) = Z.min MaxResults (Checked r).
Proof.
  intros Hlow Hc r. unfold r. rewrite Execute_eq by exact Hc. rewrite Hlow.
  assert (Hall : forall l : list Product, List.filter (is_match ToLower EmptyString) l = l).
  { induction l as [| p l IH]; simpl; [reflexivity |].
    unfold is_match at 1.
    replace (Contains (ToLower (Name p)) EmptyString) with true
      by (symmetry; apply Contains_split; exists EmptyString, (ToLower (Name p)); reflexivity).
    simpl. rewrite IH. reflexivity. }
  rewrite Hall. simpl.
  split; [reflexivity |]. split; [reflexivity |].
  rewrite !length_take. unfold MaxResults. lia.
Qed.

Lemma Execute_empty_query_witness :
  ascii_ToLower EmptyString = EmptyString /\
  count (after_puts [widget; gadget; stray]) < GoInt.max_int /\
  Execute ascii_ToLower (after_puts [widget; gadget; stray]) EmptyString "1ms"
  = {| Products := [widget; gadget]; TotalFound := 2; SearchTime := "1ms"; Checked := 2 |} /\
  TotalFound (Execute ascii_ToLower (after_puts [widget; gadget; stray]) EmptyString "1ms")
  = Checked (Execute ascii_ToLower (after_puts [widget; gadget; stray]) EmptyString "1ms").
Proof.
  assert (H1 : ascii_ToLower EmptyString = EmptyString) by reflexivity.
  assert (H2 : count (after_puts [widget; gadget; stray]) < GoInt.max_int)
    by (vm_compute; reflexivity).
  split; [exact H1 |]. split; [exact H2 |]. split; [vm_compute; reflexivity |].
  exact (proj1 (Execute_empty_query ascii_ToLower (after_puts [widget; gadget; stray])
                  "1ms" H1 H2)).
Defined.

(** The ids of a numbered catalog. *)
Lemma numbered_IDs ps : numbered ps -> map ID ps = seqZ 1 (Z.of_nat (length ps)).
Proof.
  intros Hn. apply list_eq. intros k. rewrite list_lookup_fmap.
  destruct (ps !! k) as [p |] eqn:E; simpl.
  - symmetry. apply lookup_seqZ. rewrite (Hn k p E).
    apply lookup_lt_Some in E. lia.
  - symmetry. apply lookup_seqZ_ge. apply lookup_ge_None in E. lia.
Qed.

(** A search over a catalog numbered 1, 2, 3, ... of at least a hundred
    products. *)
Lemma Execute_numbered ToLower ps query searchTime :
  numbered ps -> 100 <= Z.of_nat (length ps) < GoInt.max_int ->
  let r := Execute ToLower (after_puts ps) query searchTime in
  let checked := take 100 ps in
  map ID checked = seqZ 1 100 /\
  (forall p, In p checked -> Get (after_puts ps) (ID p) = (p, true)) /\
  Checked r = 100 /\
  TotalFound r = Z.of_nat (length (List.filter (is_match ToLower (ToLower query)) checked)) /\
  0 <= TotalFound r <= 100 /\
  Products r = take 20 (List.filter (is_match ToLower (ToLower query)) checked) /\
  (forall p, In p (Products r) -> 1 <= ID p <= 100).
Proof.
  intros Hnum Hlen r checked.
  assert (Hc : count (after_puts ps) < GoInt.max_int).
  { pose proof (count_after_puts ps ltac:(lia)) as Hc. unfold Count in Hc. lia. }
  assert (Hp : take (Z.to_nat MaxCheck) (present (after_puts ps) 1) = checked).
  { rewrite present_numbered by (try exact Hnum; unfold GoInt.max_int in *; lia).
    change (Z.to_nat (1 - 1)) with 0%nat. rewrite drop_0. reflexivity. }
  assert (Hl : length checked = 100%nat).
  { unfold checked. rewrite length_take. lia. }
  assert (Hids : map ID checked = seqZ 1 100).
  { assert (Hnc : numbered checked).
    { intros k p Hk. apply Hnum. unfold checked in Hk.
      apply lookup_take_Some in Hk as [Hk _]. exact Hk. }
    rewrite (numbered_IDs checked Hnc), Hl. reflexivity. }
  assert (Hr : r = {| Products := take 20 (List.filter (is_match ToLower (ToLower query)) checked);
                      TotalFound := Z.of_nat (length (List.filter
                                       (is_match ToLower (ToLower query)) checked));
                      SearchTime := searchTime;
                      Checked := 100 |}).
  { unfold r. rewrite Execute_eq by exact Hc. rewrite Hp, Hl. reflexivity. }
  assert (Hf : (length (List.filter (is_match ToLower (ToLower query)) checked) <= 100)%nat).
  { rewrite <- Hl. apply sublist_length, sublist_List_filter. }
  split; [exact Hids |]. split.
  { intros p Hin. apply list_elem_of_In, list_elem_of_lookup in Hin as [k Hk].
    unfold checked in Hk. apply lookup_take_Some in Hk as [Hk Hk100].
    pose proof (Hnum k p Hk) as Hid. unfold Get.
    rewrite data_numbered by exact Hnum.
    pose proof (lookup_lt_Some _ _ _ Hk) as Hlt.
    replace ((1 <=? ID p) && (ID p <=? Z.of_nat (length ps))) with true
      by (symmetry; apply andb_true_iff; split; apply Z.leb_le; lia).
    replace (Z.to_nat (ID p - 1)) with k by lia. rewrite Hk. reflexivity. }
  rewrite Hr. simpl Products. simpl TotalFound. simpl Checked.
  split; [reflexivity |]. split; [reflexivity |]. split; [lia |].
  split; [reflexivity |].
  intros p Hin.
  assert (Hin' : In (ID p) (map ID checked)).
  { apply in_map. apply list_elem_of_In.
    eapply elem_of_sublist; [| apply sublist_List_filter].
    eapply elem_of_sublist; [| apply sublist_take].
    apply list_elem_of_In. exact Hin. }
  rewrite Hids in Hin'. apply list_elem_of_In, elem_of_seqZ in Hin'. lia.
Qed.

(** X8.  On the store [Populate] fills, every search examines exactly
    [MaxCheck] = 100 products, whatever the query: the products numbered
    1 to 100, the first hundred of the catalog.  It reports the number of
    matches among them and returns the first [MaxResults] = 20 of these
    matches; products numbered above 100 are never examined. *)
Theorem Execute_after_Populate (ToLower : string -> string)
    (get : option seeddata.response)
    (unmarshal : string -> option seeddata.dummyJSONResponse)
    (seeds : list seeddata.SeedProduct) (query searchTime : string) :
  seeddata.Load get unmarshal = seeddata.Returned seeds ->
  exists s,
    Populate get unmarshal New = Completed s /\
    let r := Execute ToLower s query searchTime in
    let checked := take 100 (catalog seeds TotalProducts) in
    map ID checked = seqZ 1 100 /\
    (forall p, In p checked -> Get s (ID p) = (p, true)) /\
    Checked r = 100 /\
    TotalFound r = Z.of_nat (length (List.filter (is_match ToLower (ToLower query)) checked)) /\
    0 <= TotalFound r <= 100 /\
    Products r = take 20 (List.filter (is_match ToLower (ToLower query)) checked) /\
    (forall p, In p (Products r) -> 1 <= ID p <= 100).
Proof.
  intros HL. pose proof (Load_nonempty _ _ _ HL) as Hne.
  pose proof TotalProducts_small as Ht.
  pose proof (catalog_length seeds Hne TotalProducts Ht) as Hlen.
  pose proof (catalog_numbered seeds Hne TotalProducts ltac:(lia)) as Hnum.
  exists (after_puts (catalog seeds TotalProducts)).
  split; [apply Populate_New; exact HL |].
  apply (Execute_numbered ToLower (catalog seeds TotalProducts) query searchTime Hnum).
  rewrite Hlen. unfold TotalProducts, GoInt.max_int. lia.
Qed.

Lemma Execute_after_Populate_witness :
  seeddata.Load (Some {| seeddata.StatusCode := 200; seeddata.Body := Some "{}"%string |})
                (fun _ => Some seeddata.sample_catalog)
  = seeddata.Returned seeddata.sample_seeds /\
  exists s,
    Populate (Some {| seeddata.StatusCode := 200; seeddata.Body := Some "{}"%string |})
             (fun _ => Some seeddata.sample_catalog) New = Completed s /\
    Checked (Execute ascii_ToLower s "apple" "1ms") = 100.
Proof.
  assert (HL : seeddata.Load
                 (Some {| seeddata.StatusCode := 200; seeddata.Body := Some "{}"%string |})
                 (fun _ => Some seeddata.sample_catalog)
               = seeddata.Returned seeddata.sample_seeds) by reflexivity.
  split; [exact HL |].
  destruct (Execute_after_Populate ascii_ToLower _ _ _ "apple" "1ms" HL) as (s & HP & H).
  exists s. split; [exact HP |]. exact (proj1 (proj2 (proj2 H))).
Defined.

End search_extra.

(* ===================================================================== *)
(** ** The HTTP handlers of the search service *)
(* ===================================================================== *)

Module handler_facts.
Import model store store_history search generator handler.
Import GoInt_facts store_facts store_extra search_facts generator_facts search_extra.

Lemma forallb_false {X : Type} (f : X -> bool) (l : list X) :
  forallb f l = false -> exists x, In x l /\ f x = false.
Proof.
  induction l as [| x l IH]; simpl; [discriminate |].
  destruct (f x) eqn:E; simpl.
  - intros H. destruct (IH H) as (y & Hy & Hf). exists y. auto.
  - intros _. exists x. auto.
Qed.

(** A result is encoded exactly when all its prices are finite. *)
Lemma encodable_result (res : Result) :
  (encodable (JSONResult res) = true <->
   forall p, In p (Products res) -> finite (Price p) = true) /\
  (encodable (JSONResult res) = false <->
   exists p, In p (Products res) /\ finite (Price p) = false).
Proof.
  simpl. split.
  - apply forallb_forall.
  - split.
    + apply forallb_false.
    + intros (p & Hp & Hf). destruct (forallb _ _) eqn:E; [| reflexivity].
      rewrite forallb_forall in E. rewrite (E p Hp) in Hf. discriminate Hf.
Qed.

(** A [GET] with a query: the store is searched and the result encoded. *)
Lemma Search_GET (ToLower : string -> string) (h : ProductStore)
    (searchTime : string) (r : Request) :
  Method r = "GET"%string -> query_get (Query r) "q" <> EmptyString ->
  Search ToLower h searchTime new_writer r
  = Encode (JSONResult (Execute ToLower h (query_get (Query r) "q") searchTime))
      (Header_Set "Content-Type" "application/json" new_writer).
Proof.
  intros Hm Hq. unfold Search, MethodGet. rewrite Hm.
  destruct (String.eqb_spec (query_get (Query r) "q") EmptyString) as [E | _];
    [contradiction | reflexivity].
Qed.

Lemma Encode_result (res : Result) :
  let w := Encode (JSONResult res)
             (Header_Set "Content-Type" "application/json" new_writer) in
  header w = [("Content-Type", "application/json")]%string /\
  sent_status w = 200 /\
  ((forall p, In p (Products res) -> finite (Price p) = true) ->
     written w = [JSONResult res] /\ status w = Some 200) /\
  ((exists p, In p (Products res) /\ finite (Price p) = false) ->
     written w = [] /\ status w = None).
Proof.
  destruct (encodable_result res) as [Hfin Hinf]. unfold Encode.
  destruct (encodable (JSONResult res)) eqn:E; cbv zeta.
  - assert (Hall : forall p, In p (Products res) -> finite (Price p) = true)
      by (apply Hfin; reflexivity).
    split; [reflexivity |]. split; [reflexivity |]. split; [intros _; split; reflexivity |].
    intros (p & Hp & Hf). rewrite (Hall p Hp) in Hf. discriminate Hf.
  - assert (Hex : exists p, In p (Products res) /\ finite (Price p) = false)
      by (apply Hinf; reflexivity).
    split; [reflexivity |]. split; [reflexivity |]. split; [| intros _; split; reflexivity].
    intros Hall. destruct Hex as (p & Hp & Hf). rewrite (Hall p Hp) in Hf. discriminate Hf.
Qed.

(** X9.  [Search] sets the header [Content-Type: application/json] and
    writes at most one JSON value.  The method is tested first: any
    method other than [GET] (compared byte for byte) is answered 405,
    even when the query is missing too; a [GET] whose first [q]
    parameter is absent or empty is answered 400; for every other
    request, and only then, the store is searched with the value of [q].
    When the price of every product returned is finite, the answer is
    200 with the result of [Execute] as its body.  When one of them is
    an infinity or NaN the result cannot be encoded: the handler writes
    neither a status nor a body, and the server sends 200 with an empty
    body. *)
Theorem Search_responses (ToLower : string -> string) (h : ProductStore)
    (searchTime : string) (r : Request) :
  let w := Search ToLower h searchTime new_writer r in
  let q := query_get (Query r) "q" in
  let res := Execute ToLower h q searchTime in
  header w = [("Content-Type", "application/json")]%string /\
  (length (written w) <= 1)%nat /\
  (Method r <> "GET"%string ->
     status w = Some 405 /\
     written w = [JSONMap [("error", "only GET is supported")]%string]) /\
  (Method r = "GET"%string -> q = EmptyString ->
     status w = Some 400 /\
     written w = [JSONMap [("error", "query parameter 'q' is required")]%string]) /\
  (Method r = "GET"%string -> q <> EmptyString ->
     (forall p, In p (Products res) -> finite (Price p) = true) ->
     status w = Some 200 /\ written w = [JSONResult res]) /\
  (Method r = "GET"%string -> q <> EmptyString ->
     (exists p, In p (Products res) /\ finite (Price p) = false) ->
     status w = None /\ written w = [] /\ sent_status w = 200) /\
  (forall res', In (JSONResult res') (written w) ->
     Method r = "GET"%string /\ q <> EmptyString /\ res' = res /\
     forall p, In p (Products res) -> finite (Price p) = true) /\
  (written w = [] ->
     Method r = "GET"%string /\ q <> EmptyString /\
     exists p, In p (Products res) /\ finite (Price p) = false).
Proof.
  intros w q res.
  destruct (String.eqb_spec (Method r) "GET") as [Hm | Hm];
    [destruct (String.eqb_spec q EmptyString) as [Hq | Hq] |].
  - assert (Hw : w = {| header := [("Content-Type", "application/json")]%string;
                        status := Some 400;
                        written := [JSONMap [("error", "query parameter 'q' is required")]%string] |}).
    { unfold w, Search, MethodGet. rewrite Hm. fold q. rewrite Hq. reflexivity. }
    rewrite Hw. simpl.
    split; [reflexivity |]. split; [lia |].
    split; [intros; congruence |]. split; [intros; split; reflexivity |].
    split; [intros; congruence |]. split; [intros; congruence |].
    split; [intros res' [H | []]; discriminate H | intros H; discriminate H].
  - assert (Hw : w = Encode (JSONResult res)
                       (Header_Set "Content-Type" "application/json" new_writer))
      by (apply Search_GET; assumption).
    destruct (Encode_result res) as (Hhead & Hsent & Hfin & Hinf).
    destruct (encodable_result res) as [Hfin' Hinf'].
    rewrite Hw.
    split; [exact Hhead |].
    destruct (encodable (JSONResult res)) eqn:E.
    + assert (Hall : forall p, In p (Products res) -> finite (Price p) = true)
        by (apply Hfin'; reflexivity).
      destruct (Hfin Hall) as [Hwr Hst]. rewrite Hwr, Hst.
      split; [simpl; lia |].
      split; [intros; congruence |]. split; [intros; congruence |].
      split; [intros; split; reflexivity |].
      split; [intros _ _ (p & Hp & Hf); rewrite (Hall p Hp) in Hf; discriminate Hf |].
      split; [| intros H; discriminate H].
      intros res' [H | []]. injection H as <-. auto.
    + assert (Hex : exists p, In p (Products res) /\ finite (Price p) = false)
        by (apply Hinf'; reflexivity).
      destruct (Hinf Hex) as [Hwr Hst]. rewrite Hwr, Hst.
      split; [simpl; lia |].
      split; [intros; congruence |]. split; [intros; congruence |].
      split; [intros _ _ Hall; destruct Hex as (p & Hp & Hf);
              rewrite (Hall p Hp) in Hf; discriminate Hf |].
      split; [intros; split; [reflexivity | split; [reflexivity | exact Hsent]] |].
      split; [intros res' [] | intros _; auto].
  - assert (Hw : w = {| header := [("Content-Type", "application/json")]%string;
                        status := Some 405;
                        written := [JSONMap [("error", "only GET is supported")]%string] |}).
    { unfold w, Search, MethodGet.
      destruct (String.eqb_spec (Method r) "GET") as [E | _]; [contradiction | reflexivity]. }
    rewrite Hw. simpl.
    split; [reflexivity |]. split; [lia |].
    split; [intros; split; reflexivity |]. split; [intros; congruence |].
    split; [intros; congruence |]. split; [intros; congruence |].
    split; [intros res' [H | []]; discriminate H | intros H; discriminate H].
Qed.

(** A product priced [+Inf] that matches the query: the search finds it,
    the encoder refuses the result, and the answer is the header alone. *)
Example Search_infinite_price :
  Search ascii_ToLower
    (after_puts [ {| ID := 1; Name := "Widget"; Category := "Tools";
                     Description := "A widget"; Brand := "Acme";
                     Price := S754_infinity false |} ])
    "1ms" new_writer {| Method := "GET"; Query := [("q", "wid")]%string |}
  = {| header := [("Content-Type", "application/json")]%string;
       status := None; written := [] |}.
Proof. vm_compute. reflexivity. Qed.

(** One seed priced [1e308]: from the edition 81 on the price of its
    products overflows to [+Inf].  Of the first hundred products the
    query [edition 2] finds the editions 2 and 20 to 29, which are
    encoded, and the query [edition 9] the editions 9 and 90 to 99, which
    are not: the answer to it is the header alone. *)
Example Search_price_overflow :
  let seed := {| seeddata.Name := "Lamp"; seeddata.Category := "home";
                 seeddata.Description := "brass"; seeddata.Brand := "Lux";
                 seeddata.Price := S754_finite false 5010420900022432 971 |} in
  let h := after_puts (catalog [seed] 100) in
  let get q := Search ascii_ToLower h "1ms" new_writer
                 {| Method := "GET"; Query := [("q", q)]%string |} in
  map (fun p => finite (Price p)) (catalog [seed] 100)
  = repeat true 80 ++ repeat false 20 /\
  status (get "edition 2"%string) = Some 200 /\
  map (fun v => match v with
                | JSONResult res => map ID (Products res)
                | JSONMap _ => []
                end) (written (get "edition 2"%string))
  = [[2; 20; 21; 22; 23; 24; 25; 26; 27; 28; 29]] /\
  get "edition 9"%string
  = {| header := [("Content-Type", "application/json")]%string;
       status := None; written := [] |}.
Proof. vm_compute. repeat split; reflexivity. Qed.

(** X10.  [Health] answers any request, whatever its method, with status
    200 and the number of [Put] calls the store has received, in decimal;
    products put again under an id already present are counted again. *)
Theorem Health_reports_Put_calls (ps : list Product) (r : Request) :
  Z.of_nat (length ps) <= GoInt.max_int ->
  Health (after_puts ps) new_writer r =
  {| header := [("Content-Type", "application/json")]%string;
     status := Some 200;
     written := [JSONMap [("status", "healthy");
                          ("products", GoFmt.Itoa (Z.of_nat (length ps)))]%string] |}.
Proof.
  intros H. unfold Health. rewrite (count_after_puts ps H). reflexivity.
Qed.

Lemma Health_reports_Put_calls_witness :
  Z.of_nat (length [widget; widget_v2]) <= GoInt.max_int /\
  Health (after_puts [widget; widget_v2]) new_writer {| Method := "POST"; Query := [] |} =
  {| header := [("Content-Type", "application/json")]%string;
     status := Some 200;
     written := [JSONMap [("status", "healthy"); ("products", "2")]%string] |}.
Proof.
  assert (H : Z.of_nat (length [widget; widget_v2]) <= GoInt.max_int)
    by (vm_compute; discriminate).
  split; [exact H |].
  exact (Health_reports_Put_calls [widget; widget_v2] {| Method := "POST"; Query := [] |} H).
Defined.

(** X11.  The service once [main] has filled the store: when [Load]
    returns the seeds, [Populate] completes, after which [/health]
    reports [100000] products, and for every well-formed search request
    exactly 100 products are checked and at most 20 are found to
    return, all with ids from 1 to 100, and the status sent is 200.  The
    body is that result when all the prices in it are finite; when one
    of them is not (among the products checked a seed's price is
    multiplied by up to 1.99, and the product can overflow to an
    infinity) the body is empty. *)
Theorem service_after_Populate (ToLower : string -> string)
    (get : option seeddata.response)
    (unmarshal : string -> option seeddata.dummyJSONResponse)
    (seeds : list seeddata.SeedProduct) :
  seeddata.Load get unmarshal = seeddata.Returned seeds ->
  exists s,
    Populate get unmarshal New = Completed s /\
    (forall r,
       written (Health s new_writer r)
       = [JSONMap [("status", "healthy"); ("products", "100000")]%string] /\
       status (Health s new_writer r) = Some 200) /\
    (forall r searchTime,
       Method r = "GET"%string -> query_get (Query r) "q" <> EmptyString ->
       let res := Execute ToLower s (query_get (Query r) "q") searchTime in
       let w := Search ToLower s searchTime new_writer r in
       Checked res = 100 /\
       (length (Products res) <= 20)%nat /\
       (forall p, In p (Products res) -> 1 <= ID p <= 100) /\
       sent_status w = 200 /\
       ((forall p, In p (Products res) -> finite (Price p) = true) ->
          written w = [JSONResult res] /\ status w = Some 200) /\
       ((exists p, In p (Products res) /\ finite (Price p) = false) ->
          written w = [] /\ status w = None)).
Proof.
  intros HL. pose proof (Load_nonempty _ _ _ HL) as Hne.
  pose proof TotalProducts_small as Ht.
  pose proof (catalog_length seeds Hne TotalProducts Ht) as Hlen.
  pose proof (catalog_numbered seeds Hne TotalProducts ltac:(lia)) as Hnum.
  exists (after_puts (catalog seeds TotalProducts)).
  split; [apply Populate_New; exact HL |]. split.
  - intros r. unfold Health.
    rewrite (count_after_puts (catalog seeds TotalProducts))
      by (rewrite Hlen; unfold TotalProducts, GoInt.max_int; lia).
    rewrite Hlen. split; reflexivity.
  - intros r searchTime Hm Hq.
    assert (H100 : 100 <= Z.of_nat (length (catalog seeds TotalProducts)) < GoInt.max_int)
      by (rewrite Hlen; unfold TotalProducts, GoInt.max_int; lia).
    destruct (Execute_numbered ToLower (catalog seeds TotalProducts)
                (query_get (Query r) "q") searchTime Hnum H100)
      as (_ & _ & Hchk & _ & _ & Hprod & Hids).
    cbv zeta. rewrite (Search_GET ToLower _ searchTime r Hm Hq).
    destruct (Encode_result (Execute ToLower (after_puts (catalog seeds TotalProducts))
                               (query_get (Query r) "q") searchTime))
      as (_ & Hsent & Hfin & Hinf).
    split; [exact Hchk |].
    split; [rewrite Hprod, length_take; lia |].
    split; [exact Hids |].
    split; [exact Hsent |].
    split; [exact Hfin | exact Hinf].
Qed.

Lemma service_after_Populate_witness :
  seeddata.Load (Some {| seeddata.StatusCode := 200; seeddata.Body := Some "{ }"%string |})
                (fun _ => Some seeddata.sample_catalog)
  = seeddata.Returned seeddata.sample_seeds /\
  exists s,
    Populate (Some {| seeddata.StatusCode := 200; seeddata.Body := Some "{ }"%string |})
             (fun _ => Some seeddata.sample_catalog) New = Completed s /\
    status (Health s new_writer {| Method := "GET"; Query := [] |}) = Some 200 /\
    sent_status (Search ascii_ToLower s "1ms" new_writer
                   {| Method := "GET"; Query := [("q", "a")]%string |}) = 200.
Proof.
  assert (HL : seeddata.Load
                 (Some {| seeddata.StatusCode := 200; seeddata.Body := Some "{ }"%string |})
                 (fun _ => Some seeddata.sample_catalog)
               = seeddata.Returned seeddata.sample_seeds) by reflexivity.
  split; [exact HL |].
  destruct (service_after_Populate ascii_ToLower _ _ _ HL) as (s & HP & HH & HS).
  exists s. split; [exact HP |].
  split; [exact (proj2 (HH {| Method := "GET"; Query := [] |})) |].
  refine (proj1 (proj2 (proj2 (proj2
            (HS {| Method := "GET"; Query := [("q", "a")]%string |} "1ms"%string
                eq_refl _))))).
  discriminate.
Defined.

End handler_facts.

(* ===================================================================== *)
(** ** HW-5: the product API *)
(* ===================================================================== *)

Module api_facts.
Import api.

Lemma validateProduct_None p : validateProduct p = None <-> valid p.
Proof.
  unfold validateProduct, valid.
  destruct (ProductId p <? 1) eqn:E1;
    [apply Z.ltb_lt in E1; split; [discriminate | lia] | apply Z.ltb_ge in E1].
  destruct (len (Sku p) =? 0) eqn:E2;
    [apply Z.eqb_eq in E2; split; [discriminate | lia] | apply Z.eqb_neq in E2].
  destruct (100 <? len (Sku p)) eqn:E3;
    [apply Z.ltb_lt in E3; split; [discriminate | lia] | apply Z.ltb_ge in E3].
  destruct (len (Manufacturer p) =? 0) eqn:E4;
    [apply Z.eqb_eq in E4; split; [discriminate | lia] | apply Z.eqb_neq in E4].
  destruct (200 <? len (Manufacturer p)) eqn:E5;
    [apply Z.ltb_lt in E5; split; [discriminate | lia] | apply Z.ltb_ge in E5].
  destruct (CategoryId p <? 1) eqn:E6;
    [apply Z.ltb_lt in E6; split; [discriminate | lia] | apply Z.ltb_ge in E6].
  destruct (Weight p <? 0) eqn:E7;
    [apply Z.ltb_lt in E7; split; [discriminate | lia] | apply Z.ltb_ge in E7].
  destruct (SomeOtherId p <? 1) eqn:E8;
    [apply Z.ltb_lt in E8; split; [discriminate | lia] | apply Z.ltb_ge in E8].
  split; [intros _ | reflexivity].
  unfold len in *. lia.
Qed.

Lemma validateProduct_Some p err :
  validateProduct p = Some err ->
  error err = "INVALID_INPUT"%string /\ Details err <> None.
Proof.
  unfold validateProduct.
  repeat match goal with
         | |- context [if ?b then _ else _] => destruct b
         end; intros [= <-]; split; (reflexivity || discriminate).
Qed.

(** X12.  [validateProduct] returns [nil] exactly for the products that
    meet all six constraints (product_id >= 1, sku of 1 to 100 bytes,
    manufacturer of 1 to 200 bytes, category_id >= 1, weight >= 0,
    some_other_id >= 1); every error it returns is an [INVALID_INPUT]
    with details, and the constraints are tested in this order, so a
    product with a bad product_id is reported for it whatever else is
    wrong. *)
Theorem validateProduct_accepts_valid (p : Product) :
  (validateProduct p = None <-> valid p) /\
  (forall err, validateProduct p = Some err ->
     error err = "INVALID_INPUT"%string /\ Details err <> None) /\
  (ProductId p < 1 ->
     exists err, validateProduct p = Some err /\ Message err = "Invalid product_id"%string) /\
  (1 <= ProductId p -> Sku p = EmptyString ->
     exists err, validateProduct p = Some err /\ Message err = "Missing sku"%string).
Proof.
  split; [apply validateProduct_None |].
  split; [apply validateProduct_Some |]. split.
  - intros H. unfold validateProduct. apply Z.ltb_lt in H. rewrite H.
    eexists. split; reflexivity.
  - intros H Hs. unfold validateProduct.
    apply Z.ltb_ge in H. rewrite H, Hs. simpl. eexists. split; reflexivity.
Qed.

(** What [AddProductDetails] does, by cases. *)
Lemma AddProductDetails_cases s bound productId :
  (exists p, 1 <= productId /\ bound = Some p /\ valid p /\ ProductId p = productId /\
             AddProductDetails s bound productId
             = ({| code := StatusNoContent; body := NoContent |},
                {| products := <[productId := p]> (products s) |})) \/
  (~ (exists p, 1 <= productId /\ bound = Some p /\ valid p /\ ProductId p = productId) /\
   exists err, AddProductDetails s bound productId
               = ({| code := StatusBadRequest; body := JSONError err |}, s) /\
               error err = "INVALID_INPUT"%string).
Proof.
  unfold AddProductDetails.
  destruct (productId <? 1) eqn:E1.
  { apply Z.ltb_lt in E1. right. split; [intros (p & H & _); lia |].
    eexists. split; reflexivity. }
  apply Z.ltb_ge in E1.
  destruct bound as [p |].
  2: { right. split; [intros (p & _ & H & _); discriminate H |].
       eexists. split; reflexivity. }
  destruct (validateProduct p) as [err |] eqn:Ev.
  { right. split.
    - intros (q & _ & [= <-] & Hv & _). apply validateProduct_None in Hv. congruence.
    - exists err. split; [reflexivity |]. apply (validateProduct_Some p err Ev). }
  apply validateProduct_None in Ev.
  destruct (ProductId p =? productId) eqn:Eid; simpl negb; cbv iota.
  - apply Z.eqb_eq in Eid. left. exists p. repeat split; try assumption; apply Ev.
  - apply Z.eqb_neq in Eid. right. split.
    + intros (q & _ & [= <-] & _ & H). contradiction.
    + eexists. split; reflexivity.
Qed.

(** X13.  [AddProductDetails] answers 204 or 400 and nothing else.  It
    answers 204 exactly when the path id is positive, the body decodes to
    a product, the product meets the six constraints and its product_id
    equals the path id; the product is then stored under that id,
    replacing what was there.  In every other case the answer is 400 with
    an [INVALID_INPUT] error and the store is left as it was. *)
Theorem AddProductDetails_stores_valid_only (s : ProductServer)
    (bound : option Product) (productId : Z) :
  let accepted :=
    exists p, 1 <= productId /\ bound = Some p /\ valid p /\ ProductId p = productId in
  let '(r, s') := AddProductDetails s bound productId in
  (code r = 204 \/ code r = 400) /\
  (code r = 204 <-> accepted) /\
  (code r = 204 ->
     body r = NoContent /\
     exists p, bound = Some p /\ products s' = <[productId := p]> (products s)) /\
  (code r = 400 ->
     s' = s /\ exists err, body r = JSONError err /\ error err = "INVALID_INPUT"%string).
Proof.
  intros accepted.
  destruct (AddProductDetails_cases s bound productId)
    as [(p & H1 & Hb & Hv & Hid & ->) | (Hno & err & -> & Herr)]; simpl.
  - split; [left; reflexivity |]. split.
    + split; [intros _; exists p; auto | reflexivity].
    + split; [intros _; split; [reflexivity | exists p; auto] | discriminate].
  - split; [right; reflexivity |]. split.
    + split; [discriminate | intros H; contradiction].
    + split; [discriminate | intros _; split; [reflexivity | exists err; auto]].
Qed.

(** X14.  A product stored is found again: after a call of
    [AddProductDetails] answered 204, [GetProduct] on the same id answers
    200 with the product that was sent, and answers for every other id as
    it did before the call. *)
Theorem GetProduct_after_AddProductDetails (s s' : ProductServer)
    (p : Product) (productId : Z) (r : response) :
  AddProductDetails s (Some p) productId = (r, s') ->
  code r = 204 ->
  GetProduct s' productId = {| code := StatusOK; body := JSONProduct p |} /\
  (forall id, id <> productId -> GetProduct s' id = GetProduct s id).
Proof.
  intros Hadd Hcode.
  destruct (AddProductDetails_cases s (Some p) productId)
    as [(q & H1 & [= <-] & Hv & Hid & E) | (_ & err & E & _)];
    rewrite E in Hadd; injection Hadd as <- <-; [| discriminate Hcode].
  unfold GetProduct. simpl products. split.
  - replace (productId <? 1) with false by (symmetry; apply Z.ltb_ge; lia).
    rewrite lookup_insert_eq. reflexivity.
  - intros id Hne. rewrite lookup_insert_ne by congruence. reflexivity.
Qed.

Lemma GetProduct_after_AddProductDetails_witness :
  AddProductDetails NewProductServer (Some example_product) 1
  = ({| code := StatusNoContent; body := NoContent |},
     {| products := {[ 1 := example_product ]} |}) /\
  GetProduct {| products := {[ 1 := example_product ]} |} 1
  = {| code := StatusOK; body := JSONProduct example_product |}.
Proof.
  assert (H : AddProductDetails NewProductServer (Some example_product) 1
              = ({| code := StatusNoContent; body := NoContent |},
                 {| products := {[ 1 := example_product ]} |})) by reflexivity.
  split; [exact H |].
  exact (proj1 (GetProduct_after_AddProductDetails _ _ _ _ _ H eq_refl)).
Defined.

Lemma serve_store_ok req s :
  store_ok s -> store_ok (snd (serve req s)).
Proof.
  intros Hs. destruct req as [id | id bound | | | id | id | |]; simpl; try exact Hs.
  destruct (AddProductDetails_cases s bound id)
    as [(p & H1 & Hb & Hv & Hid & ->) | (_ & err & -> & _)]; simpl; [| exact Hs].
  intros k q Hk. simpl in Hk.
  destruct (decide (k = id)) as [-> | Hne].
  - rewrite lookup_insert_eq in Hk. injection Hk as <-. auto.
  - rewrite lookup_insert_ne in Hk by congruence. apply (Hs k q Hk).
Qed.

Lemma serve_all_store_ok reqs : forall s,
  store_ok s -> store_ok (snd (serve_all reqs s)).
Proof.
  induction reqs as [| req reqs IH]; intros s Hs; simpl; [exact Hs |].
  pose proof (serve_store_ok req s Hs) as H1.
  destruct (serve req s) as [r s1]. simpl in H1.
  specialize (IH s1 H1). destruct (serve_all reqs s1) as [rs s2]. exact IH.
Qed.

(** X15.  Whatever requests the server has served since it started,
    every product it holds meets the six constraints and is stored under
    its own product_id, a positive number.  Hence [GetProduct] never
    answers 200 with an invalid product or with a product of another id;
    it answers 400 exactly for the ids below 1, and 404 for the ids no
    accepted request has stored. *)
Theorem server_holds_valid_products (reqs : list request) (productId : Z) :
  let s := snd (serve_all reqs NewProductServer) in
  let r := GetProduct s productId in
  (forall id p, products s !! id = Some p -> valid p /\ ProductId p = id /\ 1 <= id) /\
  (code r = 400 <-> productId < 1) /\
  (code r = 404 <-> 1 <= productId /\ products s !! productId = None) /\
  (code r = 200 <->
     exists p, body r = JSONProduct p /\ valid p /\ ProductId p = productId) /\
  (code r = 200 \/ code r = 400 \/ code r = 404).
Proof.
  intros s r.
  assert (Hok : store_ok s).
  { apply serve_all_store_ok. intros id p H. simpl in H. rewrite lookup_empty in H.
    discriminate H. }
  split.
  { intros id p H. destruct (Hok id p H) as [Hv Hid].
    split; [exact Hv |]. split; [exact Hid |]. destruct Hv as [H1 _]. lia. }
  unfold r, GetProduct.
  destruct (productId <? 1) eqn:E1; [apply Z.ltb_lt in E1 | apply Z.ltb_ge in E1].
  - simpl. split; [split; [intros _; exact E1 | reflexivity] |].
    split; [split; [discriminate | lia] |].
    split; [split; [discriminate | intros (p & H & _); discriminate H] |].
    right; left; reflexivity.
  - destruct (products s !! productId) as [p |] eqn:El; simpl.
    + destruct (Hok productId p El) as [Hv Hid].
      split; [split; [discriminate | lia] |].
      split; [split; [discriminate | intros [_ H]; discriminate H] |].
      split; [split; [intros _; exists p; auto | reflexivity] |].
      left; reflexivity.
    + split; [split; [discriminate | lia] |].
      split; [split; [intros _; split; [lia | reflexivity] | reflexivity] |].
      split; [split; [discriminate | intros (p & H & _); discriminate H] |].
      right; right; reflexivity.
Qed.

(** The stub endpoints answer 501 and leave the store alone. *)
Example stubs_not_implemented s :
  map (fun req => code (fst (serve req s)))
      [ReqProcessPayment; ReqCreateShoppingCart; ReqCheckoutCart 7; ReqAddItemsToCart 7;
       ReqReserveInventory; ReqShipProduct]
  = [501; 501; 501; 501; 501; 501].
Proof. reflexivity. Qed.

(** The README's invalid request: an empty sku is refused. *)
Example empty_sku_refused :
  AddProductDetails NewProductServer
    (Some {| ProductId := 1; Sku := EmptyString; Manufacturer := "Acme";
             CategoryId := 1; Weight := 100; SomeOtherId := 1 |}) 1
  = ({| code := 400;
        body := JSONError {| error := "INVALID_INPUT"; Message := "Missing sku";
                             Details := Some "sku is required"%string |} |},
     NewProductServer).
Proof. reflexivity. Qed.

End api_facts.

(* ===================================================================== *)
(** ** The text splitter service *)
(* ===================================================================== *)

Module split_facts.
Import split GoInt_facts.

Section Chunks.
Variable words : list string.
Variable numChunks : Z.
Hypothesis numChunks_pos : 1 <= numChunks <= GoInt.max_int.
Hypothesis words_int : Z.of_nat (length words) <= GoInt.max_int.

Lemma chunk_bounds k :
  0 <= k < numChunks ->
  0 <= k * (Z.of_nat (length words) / numChunks)
    <= (k + 1) * (Z.of_nat (length words) / numChunks) /\
  (k + 1) * (Z.of_nat (length words) / numChunks) <= Z.of_nat (length words).
Proof.
  intros Hk.
  assert (H0 : 0 <= Z.of_nat (length words) / numChunks) by (apply Z.div_pos; lia).
  assert (H1 : numChunks * (Z.of_nat (length words) / numChunks) <= Z.of_nat (length words))
    by (apply Z.mul_div_le; lia).
  nia.
Qed.



(** The handler's loop ends for lack of memory at the first chunk that
    cannot be appended, and otherwise builds what [chunk_loop] builds. *)
Lemma chunk_loop_heap_spec (heap : allocation -> bool) n : forall i chunks,
  n = Z.to_nat (numChunks - i) -> 0 <= i <= numChunks ->
  chunk_loop_heap heap words numChunks (Z.quot (Z.of_nat (length words)) numChunks)
    (Z.of_nat (length words)) n i chunks
  = if forallb (fun k => heap (AppendChunk k)) (seqZ i (numChunks - i))
    then Chunked (chunks ++ map (fun k => Join (part words numChunks k) " ")
                                (seqZ i (numChunks - i)))
    else ChunksExhausted.
Proof.
  rewrite Z.quot_div_nonneg by lia.
  induction n as [| n IH]; intros i chunks Hn Hi.
  - rewrite seqZ_nil by lia. simpl. rewrite app_nil_r. reflexivity.
  - assert (Hlt : i < numChunks) by lia.
    pose proof (chunk_bounds i ltac:(lia)) as Hb.
    simpl chunk_loop_heap. apply Z.ltb_lt in Hlt. rewrite Hlt. apply Z.ltb_lt in Hlt.
    unfold GoInt.max_int in *.
    rewrite (wrap_id (i * _)) by (unfold GoInt.in_range, GoInt.min_int, GoInt.max_int; lia).
    rewrite (wrap_id (i + 1)) by (unfold GoInt.in_range, GoInt.min_int, GoInt.max_int; lia).
    rewrite (wrap_id ((i + 1) * _)) by (unfold GoInt.in_range, GoInt.min_int, GoInt.max_int; lia).
    rewrite (wrap_id (numChunks - 1)) by (unfold GoInt.in_range, GoInt.min_int, GoInt.max_int; lia).
    assert (Hs : slice words (i * (Z.of_nat (length words) / numChunks))
                   (if i =? numChunks - 1 then Z.of_nat (length words)
                    else (i + 1) * (Z.of_nat (length words) / numChunks))
                 = Some (part words numChunks i)).
    { unfold slice, part. cbv zeta.
      destruct (i =? numChunks - 1);
        (replace (_ && _ && _) with true
           by (symmetry; rewrite !andb_true_iff; repeat split; apply Z.leb_le; lia));
        reflexivity. }
    rewrite Hs. rewrite (seqZ_cons i) by lia. simpl forallb. simpl map.
    replace (Z.succ i) with (i + 1) by lia.
    replace (Z.pred (numChunks - i)) with (numChunks - (i + 1)) by lia.
    destruct (heap (AppendChunk i)); [| reflexivity].
    rewrite IH by lia. simpl andb. rewrite <- app_assoc. reflexivity.
Qed.

Lemma parts_length : Z.of_nat (length (parts words numChunks)) = numChunks.
Proof. unfold parts. rewrite length_map, length_seqZ. lia. Qed.





End Chunks.

(** With memory for every chunk the handler's loop is [chunk_loop]. *)
Lemma chunk_loop_heap_ample (heap : allocation -> bool)
    (words : list string) (numChunks chunkSize totalWords : Z) (n : nat) :
  (forall k, heap (AppendChunk k) = true) ->
  forall i chunks,
    chunk_loop_heap heap words numChunks chunkSize totalWords n i chunks
    = match chunk_loop words numChunks chunkSize totalWords n i chunks with
      | Some chunks' => Chunked chunks'
      | None => BoundsPanic
      end.
Proof.
  intros Hheap. induction n as [| n IH]; intros i chunks; simpl; [reflexivity |].
  destruct (i <? numChunks); [| reflexivity].
  destruct (slice words _ _) as [ws |]; [| reflexivity].
  rewrite Hheap. apply IH.
Qed.

Lemma forallb_seqZ_false (f : Z -> bool) (i n : Z) :
  forallb f (seqZ i n) = false <-> exists k, i <= k < i + n /\ f k = false.
Proof.
  split.
  - intros H. destruct (forallb f (seqZ i n)) eqn:E; [discriminate |]. clear H.
    assert (Hex : exists k, In k (seqZ i n) /\ f k = false).
    { induction (seqZ i n) as [| x l IH]; simpl in E; [discriminate |].
      destruct (f x) eqn:Ex; simpl in E.
      - destruct (IH E) as (k & Hk & Hf). exists k. split; [right; exact Hk | exact Hf].
      - exists x. split; [left; reflexivity | exact Ex]. }
    destruct Hex as (k & Hk & Hf). exists k. split; [| exact Hf].
    apply list_elem_of_In, elem_of_seqZ in Hk. lia.
  - intros (k & Hk & Hf). destruct (forallb f (seqZ i n)) eqn:E; [| reflexivity].
    rewrite forallb_forall in E. rewrite E in Hf; [discriminate |].
    apply list_elem_of_In, elem_of_seqZ. lia.
Qed.



Lemma objects_lookup bucket chunks : forall i k u,
  objects bucket chunks i !! k = Some u ->
  up_bucket u = bucket /\ up_key u = chunkKey (i + Z.of_nat k) /\
  chunks !! k = Some (up_body u).
Proof.
  induction chunks as [| c rest IH]; intros i k u Hk; simpl in Hk; [discriminate |].
  destruct k as [| k].
  - injection Hk as <-. simpl. rewrite Z.add_0_r. auto.
  - simpl in Hk. apply IH in Hk as (Hb & Hkey & Hc).
    split; [exact Hb |]. split; [rewrite Hkey; f_equal; lia | exact Hc].
Qed.

Lemma objects_bodies bucket chunks : forall i,
  map up_body (objects bucket chunks i) = chunks.
Proof. induction chunks as [| c rest IH]; intros i; simpl; [| rewrite IH]; reflexivity. Qed.

Lemma objects_length bucket chunks : forall i,
  length (objects bucket chunks i) = length chunks.
Proof. induction chunks as [| c rest IH]; intros i; simpl; [| rewrite IH]; reflexivity. Qed.

Section HandlerFacts.
Variable GetObject : string -> string -> fetched.
Variable Fields : string -> list string.
Variable PutObject : Z -> upload -> option string.
Variable heap : allocation -> bool.

(** The upload loop writes the objects in order; it stops at the first
    [PutObject] that fails, or where memory runs out, keeping what it has
    written. *)
Lemma upload_loop_spec bucket chunks : forall i urls ups,
  exists n : nat,
    (n <= length chunks)%nat /\
    match upload_loop PutObject heap bucket chunks i urls ups with
    | Uploaded urls' ups' =>
        n = length chunks /\
        ups' = ups ++ objects bucket chunks i /\
        urls' = urls ++ map (chunkURL bucket) (seqZ i (Z.of_nat (length chunks)))
    | UploadFailed r ups' =>
        (n < length chunks)%nat /\
        ups' = ups ++ take n (objects bucket chunks i) /\
        status r = 500 /\
        exists err obj,
          objects bucket chunks i !! n = Some obj /\
          PutObject (i + Z.of_nat n) obj = Some err /\
          body r = H_error ("failed to upload chunk " ++ GoFmt.Itoa (i + Z.of_nat n)
                            ++ ": " ++ err)
    | UploadExhausted ups' =>
        ups' = ups ++ take n (objects bucket chunks i) /\
        exists k, i <= k < i + Z.of_nat (length chunks) /\
                  (heap (UploadChunk k) = false \/ heap (AppendURL k) = false)
    end.
Proof.
  induction chunks as [| c rest IH]; intros i urls ups.
  - exists 0%nat. simpl. rewrite !app_nil_r. auto.
  - simpl upload_loop.
    destruct (heap (UploadChunk i)) eqn:Eh.
    2: { exists 0%nat. simpl. rewrite app_nil_r. split; [lia |]. split; [reflexivity |].
         exists i. split; [lia | left; exact Eh]. }
    destruct (PutObject i {| up_bucket := bucket; up_key := chunkKey i; up_body := c |})
      as [err |] eqn:Ep.
    + exists 0%nat. simpl. rewrite app_nil_r, Z.add_0_r.
      split; [lia |]. split; [lia |]. split; [reflexivity |]. split; [reflexivity |].
      exists err. eexists. split; [reflexivity |]. split; [exact Ep | reflexivity].
    + destruct (heap (AppendURL i)) eqn:Eu.
      2: { exists 1%nat. simpl. split; [lia |]. split; [rewrite take_0; reflexivity |].
           exists i. split; [lia | right; exact Eu]. }
      destruct (IH (i + 1) (urls ++ [chunkURL bucket i])
                  (ups ++ [{| up_bucket := bucket; up_key := chunkKey i; up_body := c |}]))
        as (n & Hn & Hspec).
      exists (S n). split; [simpl; lia |].
      destruct (upload_loop PutObject heap bucket rest (i + 1) _ _) as [urls' ups' | r ups' | ups'].
      * destruct Hspec as (-> & -> & ->).
        split; [reflexivity |]. split; [rewrite <- app_assoc; reflexivity |].
        rewrite <- app_assoc. simpl app. f_equal.
        simpl length. rewrite (seqZ_cons i) by lia. simpl map. f_equal. f_equal.
        f_equal; lia.
      * destruct Hspec as (Hlt & -> & Hst & err & obj & Ho & Hp & Hb).
        split; [simpl; lia |]. split; [rewrite <- app_assoc; reflexivity |].
        split; [exact Hst |]. exists err, obj.
        replace (i + Z.of_nat (S n)) with (i + 1 + Z.of_nat n) by lia. auto.
      * destruct Hspec as (-> & k & Hk & Hheap).
        split; [rewrite <- app_assoc; reflexivity |].
        exists k. split; [simpl length; lia | exact Hheap].
Qed.

End HandlerFacts.

(** [Atoi] yields an [int]. *)
Lemma Atoi_int (s : string) (n : Z) : Atoi s = Some n -> n <= GoInt.max_int.
Proof.
  unfold Atoi. intros Ea.
  destruct (match s with
            | String "-"%char s' => (true, s')
            | String "+"%char s' => (false, s')
            | _ => (false, s)
            end) as [neg ds].
  destruct ds; [discriminate |].
  destruct (digits _ 0) as [m |]; [| discriminate].
  destruct ((GoInt.min_int <=? (if neg then - m else m))
            && ((if neg then - m else m) <=? GoInt.max_int)) eqn:Er; [| discriminate].
  injection Ea as <-. apply andb_true_iff in Er as [_ Er]. apply Z.leb_le in Er. exact Er.
Qed.

(** The handler on a request that names a bucket and a key, for a text
    that is fetched and a valid [num_chunks]. *)
Lemma splitHandler_valid (GetObject : string -> string -> fetched)
    (Fields : string -> list string) (PutObject : Z -> upload -> option string)
    (heap : allocation -> bool) (query : list (string * string)) text numChunks :
  Z.of_nat (length (Fields text)) <= GoInt.max_int ->
  Query query "bucket" <> EmptyString -> Query query "key" <> EmptyString ->
  GetObject (Query query "bucket") (Query query "key") = Text text ->
  Atoi (DefaultQuery query "num_chunks" "3") = Some numChunks ->
  1 <= numChunks ->
  splitHandler GetObject Fields PutObject heap query
  = if negb (heap SplitWords) then OutOfMemory []
    else if forallb (fun k => heap (AppendChunk k)) (seqZ 0 numChunks) then
      let chunks := map (fun ws => Join ws " ") (parts (Fields text) numChunks) in
      match upload_loop PutObject heap (Query query "bucket") chunks 0 [] [] with
      | UploadFailed r uploads => Responded r uploads
      | UploadExhausted uploads => OutOfMemory uploads
      | Uploaded chunkURLs uploads =>
          if heap EncodeAnswer then
            Responded {| status := 200;
                         body := H_split "split complete" chunkURLs numChunks
                                   (Query query "bucket") |} uploads
          else OutOfMemory uploads
      end
    else OutOfMemory [].
Proof.
  intros HF Hb Hk Eg Ea En. unfold splitHandler.
  destruct (String.eqb_spec (Query query "bucket") EmptyString) as [E | _]; [contradiction |].
  destruct (String.eqb_spec (Query query "key") EmptyString) as [E | _]; [contradiction |].
  simpl orb. cbv iota. rewrite Eg, Ea.
  replace (numChunks <? 1) with false by (symmetry; apply Z.ltb_ge; lia).
  destruct (heap SplitWords); simpl negb; cbv iota; [| reflexivity].
  pose proof (Atoi_int _ _ Ea) as Hmax.
  cbv zeta.
  rewrite (chunk_loop_heap_spec (Fields text) numChunks) by (try exact HF; lia).
  rewrite Z.sub_0_r.
  destruct (forallb _ (seqZ 0 numChunks)); [| reflexivity].
  simpl app. unfold parts. rewrite map_map.
  destruct (upload_loop _ _ _ _ _ _ _) as [urls ups | r ups | ups]; try reflexivity.
  rewrite length_map, length_seqZ.
  replace (Z.of_nat (Z.to_nat numChunks)) with numChunks by lia. reflexivity.
Qed.

(** The outcomes that write nothing: of the properties of an outcome,
    those of the objects written hold at once. *)
Ltac nothing_written Hnone Ho :=
  let H1 := fresh "H1" in
  let H7 := fresh "H7" in
  let H8 := fresh "H8" in
  let Hempty := fresh "Hempty" in
  let Hnot200 := fresh "Hnot200" in
  destruct (Hnone _ Ho ltac:(simpl; auto)) as (H1 & H7 & H8 & Hempty & Hnot200);
  refine (conj H1 (conj _ (conj _ (conj _ (conj _ (conj _ (conj H7 (conj H8 _))))))));
  [ | | | | |
    let Hne := fresh in let r := fresh in let Hr := fresh in let Hs := fresh in
    intros [Hne | (r & Hr & Hs)]; [contradiction | destruct (Hnot200 r Hr Hs)] ].

(** X17.  [splitHandler] never panics, and answers with status 200, 400
    or 500 unless the process runs out of memory: it always answers when
    memory suffices, and always answers 400, writing nothing, a request
    without bucket or key, or one for a fetched text whose [num_chunks]
    is not a positive [int].  When the text is fetched and [num_chunks]
    is valid but memory lacks for the words or for one of the
    [numChunks] chunks, the process ends in the loop that builds the
    chunks, with no answer and nothing written.  Whatever the outcome,
    each object written goes to the requested bucket under the key
    [chunks/chunk_k.txt] of its position [k], and the objects written are
    the first chunks of the fetched text, in order.  An answer comes with
    all [numChunks] objects written exactly when it is 200, with fewer
    when a [PutObject] failed (what was written before the failure
    stays); a 200 answer lists the [numChunks] chunk URLs and reports
    [numChunks]. *)
Theorem splitHandler_outcomes (GetObject : string -> string -> fetched)
    (Fields : string -> list string) (PutObject : Z -> upload -> option string)
    (heap : allocation -> bool) (query : list (string * string)) :
  (forall text, Z.of_nat (length (Fields text)) <= GoInt.max_int) ->
  let bucket := Query query "bucket" in
  let key := Query query "key" in
  let out := splitHandler GetObject Fields PutObject heap query in
  let uploads := written_objects out in
  out <> Panic /\
  (GetObject bucket key <> Exhausted -> (forall a, heap a = true) ->
     exists r, out = Responded r uploads) /\
  (bucket = EmptyString \/ key = EmptyString ->
     out = Responded {| status := 400;
                        body := H_error "bucket and key query params required" |} []) /\
  (forall text, bucket <> EmptyString -> key <> EmptyString ->
     GetObject bucket key = Text text ->
     (forall n, Atoi (DefaultQuery query "num_chunks" "3") = Some n -> n < 1) ->
     out = Responded {| status := 400;
                        body := H_error "num_chunks must be a positive integer" |} []) /\
  (forall text numChunks, bucket <> EmptyString -> key <> EmptyString ->
     GetObject bucket key = Text text ->
     Atoi (DefaultQuery query "num_chunks" "3") = Some numChunks -> 1 <= numChunks ->
     heap SplitWords = false \/
     (exists i, 0 <= i < numChunks /\ heap (AppendChunk i) = false) ->
     out = OutOfMemory []) /\
  (forall ups, out = OutOfMemory ups ->
     bucket <> EmptyString /\ key <> EmptyString /\
     (GetObject bucket key = Exhausted \/
      exists text numChunks a,
        GetObject bucket key = Text text /\
        Atoi (DefaultQuery query "num_chunks" "3") = Some numChunks /\
        1 <= numChunks /\ heap a = false)) /\
  (forall r ups, out = Responded r ups ->
     (status r = 200 \/ status r = 400 \/ status r = 500) /\
     (status r = 400 -> ups = [])) /\
  (forall k u, uploads !! k = Some u ->
     up_bucket u = bucket /\ up_key u = chunkKey (Z.of_nat k)) /\
  (uploads <> [] \/ (exists r, out = Responded r uploads /\ status r = 200) ->
     exists text numChunks,
       GetObject bucket key = Text text /\
       Atoi (DefaultQuery query "num_chunks" "3") = Some numChunks /\
       1 <= numChunks /\
       map up_body uploads
       = take (length uploads)
           (map (fun ws => Join ws " ") (parts (Fields text) numChunks)) /\
       Z.of_nat (length uploads) <= numChunks /\
       forall r, out = Responded r uploads ->
         (status r = 200 <-> Z.of_nat (length uploads) = numChunks) /\
         (status r = 200 ->
            body r = H_split "split complete"
                       (map (chunkURL bucket) (seqZ 0 numChunks)) numChunks bucket)).
Proof.
  intros HF bucket key out uploads.
  (* the outcomes that write nothing and depend on no chunk *)
  assert (Hnone : forall o,
            out = o ->
            match o with
            | Responded r [] => status r = 400 \/ status r = 500
            | OutOfMemory [] => True
            | _ => False
            end ->
            out <> Panic /\
            (forall r ups, out = Responded r ups ->
               (status r = 200 \/ status r = 400 \/ status r = 500) /\
               (status r = 400 -> ups = [])) /\
            (forall k u, uploads !! k = Some u ->
               up_bucket u = bucket /\ up_key u = chunkKey (Z.of_nat k)) /\
            uploads = [] /\
            (forall r, out = Responded r uploads -> status r <> 200)).
  { intros o Ho Hshape. unfold uploads. rewrite Ho.
    destruct o as [r [| u us] | | [| u us]]; try contradiction; simpl.
    - split; [discriminate |]. split.
      + intros r' ups E. injection E as <- <-. split; [tauto | reflexivity].
      + split; [intros k u H; discriminate H |]. split; [reflexivity |].
        intros r' E. injection E as <-. destruct Hshape as [-> | ->]; discriminate.
    - split; [discriminate |]. split; [intros r ups E; discriminate E |].
      split; [intros k u H; discriminate H |]. split; [reflexivity |].
      intros r E. discriminate E. }
  destruct (String.eqb_spec bucket EmptyString) as [Hb | Hb].
  { assert (Ho : out = Responded {| status := 400;
                   body := H_error "bucket and key query params required" |} []).
    { unfold out, splitHandler. fold bucket. rewrite Hb. reflexivity. }
    nothing_written Hnone Ho.
    - intros _ _. exists {| status := 400; body := H_error "bucket and key query params required" |}.
      unfold uploads. rewrite Ho. reflexivity.
    - intros _. exact Ho.
    - intros; contradiction.
    - intros; contradiction.
    - intros ups E. rewrite Ho in E. discriminate E. }
  destruct (String.eqb_spec key EmptyString) as [Hk | Hk].
  { assert (Ho : out = Responded {| status := 400;
                   body := H_error "bucket and key query params required" |} []).
    { unfold out, splitHandler. fold key. rewrite Hk.
      rewrite orb_true_r. reflexivity. }
    nothing_written Hnone Ho.
    - intros _ _. exists {| status := 400; body := H_error "bucket and key query params required" |}.
      unfold uploads. rewrite Ho. reflexivity.
    - intros _. exact Ho.
    - intros; contradiction.
    - intros; contradiction.
    - intros ups E. rewrite Ho in E. discriminate E. }
  assert (Hnot : bucket = EmptyString \/ key = EmptyString -> False) by (intros [H | H]; auto).
  assert (Hout : out = match GetObject bucket key with
                       | GetFailed err =>
                           Responded {| status := 500;
                                        body := H_error ("failed to get S3 object: " ++ err) |} []
                       | ReadFailed err =>
                           Responded {| status := 500;
                                        body := H_error ("failed to read body: " ++ err) |} []
                       | Exhausted => OutOfMemory []
                       | Text text =>
                           match Atoi (DefaultQuery query "num_chunks" "3") with
                           | None =>
                               Responded {| status := 400;
                                 body := H_error "num_chunks must be a positive integer" |} []
                           | Some numChunks =>
                               if numChunks <? 1 then
                                 Responded {| status := 400;
                                   body := H_error "num_chunks must be a positive integer" |} []
                               else out
                           end
                       end).
  { unfold out at 1. unfold splitHandler. fold bucket. fold key.
    destruct (String.eqb_spec bucket EmptyString) as [E | _]; [contradiction |].
    destruct (String.eqb_spec key EmptyString) as [E | _]; [contradiction |].
    simpl orb. cbv iota.
    destruct (GetObject bucket key) as [err | err | text |] eqn:Eg; try reflexivity.
    destruct (Atoi _) as [numChunks |] eqn:Ea; [| reflexivity].
    destruct (numChunks <? 1) eqn:En; [reflexivity |].
    unfold out, splitHandler. fold bucket. fold key.
    destruct (String.eqb_spec bucket EmptyString) as [E | _]; [contradiction |].
    destruct (String.eqb_spec key EmptyString) as [E | _]; [contradiction |].
    simpl orb. cbv iota. rewrite Eg, Ea, En. reflexivity. }
  destruct (GetObject bucket key) as [err | err | text |] eqn:Eg.
  1, 2: nothing_written Hnone Hout;
    [ intros _ _; eexists; unfold uploads; rewrite Hout; reflexivity
    | intros H; destruct (Hnot H)
    | intros text _ _ E; discriminate E
    | intros text numChunks _ _ E; discriminate E
    | intros ups E; rewrite Hout in E; discriminate E ].
  2: { nothing_written Hnone Hout.
       - intros H; contradiction.
       - intros H; destruct (Hnot H).
       - intros text _ _ E; discriminate E.
       - intros text numChunks _ _ E; discriminate E.
       - intros ups _. split; [exact Hb |]. split; [exact Hk |]. left. reflexivity. }
  destruct (Atoi (DefaultQuery query "num_chunks" "3")) as [numChunks |] eqn:Ea.
  2: { nothing_written Hnone Hout.
       - intros _ _; eexists; unfold uploads; rewrite Hout; reflexivity.
       - intros H; destruct (Hnot H).
       - intros text' _ _ _ _. exact Hout.
       - intros text' numChunks _ _ _ E; discriminate E.
       - intros ups E; rewrite Hout in E; discriminate E. }
  destruct (numChunks <? 1) eqn:En; [apply Z.ltb_lt in En | apply Z.ltb_ge in En].
  { nothing_written Hnone Hout.
    - intros _ _; eexists; unfold uploads; rewrite Hout; reflexivity.
    - intros H; destruct (Hnot H).
    - intros text' _ _ _ _. exact Hout.
    - intros text' n _ _ _ E Hn. injection E as <-. lia.
    - intros ups E; rewrite Hout in E; discriminate E. }
  clear Hout.
  pose proof (splitHandler_valid GetObject Fields PutObject heap query text numChunks
                (HF text) Hb Hk Eg Ea En) as Hout.
  fold out in Hout. fold bucket in Hout.
  assert (Hinvalid : forall n, Some numChunks = Some n -> n < 1 -> False)
    by (intros n E Hn; injection E as <-; lia).
  assert (Hdied : forall a, heap a = false ->
            bucket <> EmptyString /\ key <> EmptyString /\
            (Text text = Exhausted \/
             exists text' numChunks' a',
               Text text = Text text' /\ Some numChunks = Some numChunks' /\
               1 <= numChunks' /\ heap a' = false)).
  { intros a Ha. split; [exact Hb |]. split; [exact Hk |]. right.
    exists text, numChunks, a. auto. }
  destruct (heap SplitWords) eqn:Es; simpl negb in Hout; cbv iota in Hout.
  2: { nothing_written Hnone Hout.
       - intros _ Hall. rewrite Hall in Es. discriminate Es.
       - intros H. destruct (Hnot H).
       - intros text' _ _ _ Hn. destruct (Hinvalid numChunks eq_refl (Hn _ eq_refl)).
       - intros. exact Hout.
       - intros ups _. exact (Hdied _ Es). }
  destruct (forallb (fun k => heap (AppendChunk k)) (seqZ 0 numChunks)) eqn:Ef.
  2: { apply forallb_seqZ_false in Ef as (i & Hi & Hf).
       nothing_written Hnone Hout.
       - intros _ Hall. rewrite Hall in Hf. discriminate Hf.
       - intros H. destruct (Hnot H).
       - intros text' _ _ _ Hn. destruct (Hinvalid numChunks eq_refl (Hn _ eq_refl)).
       - intros. exact Hout.
       - intros ups _. exact (Hdied _ Hf). }
  (* the chunks are built *)
  assert (Hnolack : true = false \/
                    (exists i, 0 <= i < numChunks /\ heap (AppendChunk i) = false) -> False).
  { intros [Hs | (i & Hi & Hf)]; [discriminate Hs |].
    assert (E : forallb (fun k => heap (AppendChunk k)) (seqZ 0 numChunks) = false)
      by (apply forallb_seqZ_false; exists i; split; [lia | exact Hf]).
    rewrite E in Ef. discriminate Ef. }
  cbv zeta in Hout.
  pose proof (Atoi_int _ _ Ea) as Hmax.
  set (chunks := map (fun ws => Join ws " ") (parts (Fields text) numChunks)) in *.
  assert (Hlen : Z.of_nat (length chunks) = numChunks).
  { unfold chunks. rewrite length_map. apply parts_length. lia. }
  assert (Hwritten : forall n : nat,
            (n <= length chunks)%nat -> uploads = take n (objects bucket chunks 0) ->
            length uploads = n /\
            (forall k u, uploads !! k = Some u ->
               up_bucket u = bucket /\ up_key u = chunkKey (Z.of_nat k)) /\
            map up_body uploads = take (length uploads) chunks /\
            Z.of_nat (length uploads) <= numChunks).
  { intros n Hn ->.
    assert (Hl : length (take n (objects bucket chunks 0)) = n)
      by (rewrite length_take, objects_length; lia).
    split; [exact Hl |]. split.
    - intros k u Hu. apply lookup_take_Some in Hu as [Hu _].
      apply objects_lookup in Hu as (H1 & H2 & _). rewrite Z.add_0_l in H2. auto.
    - rewrite Hl. split; [| lia].
      transitivity (take n (map up_body (objects bucket chunks 0)));
        [apply (fmap_take up_body) | rewrite objects_bodies; reflexivity]. }
  destruct (upload_loop_spec PutObject heap bucket chunks 0 [] []) as (n & Hn & Hspec).
  destruct (upload_loop PutObject heap bucket chunks 0 [] []) as [urls ups | r ups | ups].
  - (* every chunk is uploaded *)
    destruct Hspec as (-> & -> & ->). simpl app in Hout.
    assert (Hups : uploads = take (length chunks) (objects bucket chunks 0)).
    { unfold uploads. rewrite Hout. rewrite take_ge by (rewrite objects_length; lia).
      destruct (heap EncodeAnswer); reflexivity. }
    destruct (Hwritten _ Hn Hups) as (Hl & H8 & Hbodies & Hle).
    rewrite take_ge in Hups by (rewrite objects_length; lia).
    split; [rewrite Hout; destruct (heap EncodeAnswer); discriminate |].
    split; [intros _ Hall; rewrite Hall in Hout; eexists; rewrite Hups; exact Hout |].
    split; [intros H; destruct (Hnot H) |].
    split; [intros text' _ _ _ Hi; destruct (Hinvalid numChunks eq_refl (Hi _ eq_refl)) |].
    split; [intros text' n' _ _ _ E _ H; injection E as <-; destruct (Hnolack H) |].
    split.
    { intros ups' E. destruct (heap EncodeAnswer) eqn:Ee.
      - rewrite Hout in E. discriminate E.
      - exact (Hdied _ Ee). }
    split.
    { intros r ups' E. rewrite Hout in E. destruct (heap EncodeAnswer); [| discriminate E].
      injection E as <- <-. simpl. split; [auto | discriminate]. }
    split; [exact H8 |].
    intros _. exists text, numChunks.
    split; [reflexivity |]. split; [reflexivity |]. split; [exact En |].
    split; [exact Hbodies |]. split; [exact Hle |].
    intros r E. rewrite Hout in E. destruct (heap EncodeAnswer); [| discriminate E].
    injection E as <- _. simpl.
    split; [split; [intros _; lia | reflexivity] |].
    intros _. rewrite Hlen. reflexivity.
  - (* a [PutObject] fails *)
    destruct Hspec as (Hlt & -> & Hst & err & obj & Ho & Hp & Hbody). simpl app in Hout.
    assert (Hups : uploads = take n (objects bucket chunks 0))
      by (unfold uploads; rewrite Hout; reflexivity).
    destruct (Hwritten _ Hn Hups) as (Hl & H8 & Hbodies & Hle).
    split; [rewrite Hout; discriminate |].
    split; [intros _ _; eexists; rewrite Hups; exact Hout |].
    split; [intros H; destruct (Hnot H) |].
    split; [intros text' _ _ _ Hi; destruct (Hinvalid numChunks eq_refl (Hi _ eq_refl)) |].
    split; [intros text' n' _ _ _ E _ H; injection E as <-; destruct (Hnolack H) |].
    split; [intros ups' E; rewrite Hout in E; discriminate E |].
    split.
    { intros r' ups' E. rewrite Hout in E. injection E as <- <-. rewrite Hst.
      split; [auto | discriminate]. }
    split; [exact H8 |].
    intros _. exists text, numChunks.
    split; [reflexivity |]. split; [reflexivity |]. split; [exact En |].
    split; [exact Hbodies |]. split; [exact Hle |].
    intros r' E. rewrite Hout in E. injection E as <- _. rewrite Hst.
    split; [split; [discriminate | lia] | discriminate].
  - (* memory runs out while uploading *)
    destruct Hspec as (-> & k & Hk' & Hheap). simpl app in Hout.
    assert (Hups : uploads = take n (objects bucket chunks 0))
      by (unfold uploads; rewrite Hout; reflexivity).
    destruct (Hwritten _ Hn Hups) as (Hl & H8 & Hbodies & Hle).
    split; [rewrite Hout; discriminate |].
    split; [intros _ Hall; rewrite !Hall in Hheap; destruct Hheap as [H | H]; discriminate H |].
    split; [intros H; destruct (Hnot H) |].
    split; [intros text' _ _ _ Hi; destruct (Hinvalid numChunks eq_refl (Hi _ eq_refl)) |].
    split; [intros text' n' _ _ _ E _ H; injection E as <-; destruct (Hnolack H) |].
    split; [intros ups' _; destruct Hheap as [H | H]; exact (Hdied _ H) |].
    split; [intros r' ups' E; rewrite Hout in E; discriminate E |].
    split; [exact H8 |].
    intros _. exists text, numChunks.
    split; [reflexivity |]. split; [reflexivity |]. split; [exact En |].
    split; [exact Hbodies |]. split; [exact Hle |].
    intros r' E. rewrite Hout in E. discriminate E.
Qed.

(** Seven words in three chunks with memory to spare; and a request for
    three thousand million chunks in a process that can hold a million. *)
Lemma splitHandler_outcomes_witness :
  (forall text : string, Z.of_nat (length ((fun _ => sample_words) text)) <= GoInt.max_int) /\
  (exists r,
     splitHandler (fun _ _ => Text "a b c d e f g") (fun _ => sample_words) (fun _ _ => None)
       ample sample_query
     = Responded r
         (written_objects
            (splitHandler (fun _ _ => Text "a b c d e f g") (fun _ => sample_words)
               (fun _ _ => None) ample sample_query))) /\
  splitHandler (fun _ _ => Text "a b c d e f g") (fun _ => sample_words) (fun _ _ => None)
    (chunks_limit 1000000)
    [("bucket", "texts"); ("key", "poem.txt"); ("num_chunks", "3000000000")]%string
  = OutOfMemory [].
Proof.
  assert (H : forall text : string,
            Z.of_nat (length ((fun _ => sample_words) text)) <= GoInt.max_int)
    by (intros text; vm_compute; discriminate).
  split; [exact H |]. split.
  - destruct (splitHandler_outcomes (fun _ _ => Text "a b c d e f g") (fun _ => sample_words)
                (fun _ _ => None) ample sample_query H) as (_ & Hanswer & _).
    apply Hanswer; [discriminate | reflexivity].
  - destruct (splitHandler_outcomes (fun _ _ => Text "a b c d e f g") (fun _ => sample_words)
                (fun _ _ => None) (chunks_limit 1000000)
                [("bucket", "texts"); ("key", "poem.txt"); ("num_chunks", "3000000000")]%string
                H) as (_ & _ & _ & _ & Hlack & _).
    apply (Hlack "a b c d e f g"%string 3000000000).
    + discriminate.
    + discriminate.
    + reflexivity.
    + vm_compute. reflexivity.
    + lia.
    + right. exists 1000000. split; [lia | reflexivity].
Defined.

(** Seven words in three chunks: the last chunk takes the remainder. *)
Example split_seven_words :
  splitHandler (fun _ _ => Text "a b c d e f g") (fun _ => sample_words) (fun _ _ => None)
    ample sample_query
  = Responded
      {| status := 200;
         body := H_split "split complete"
                   ["s3://texts/chunks/chunk_0.txt"; "s3://texts/chunks/chunk_1.txt";
                    "s3://texts/chunks/chunk_2.txt"]%string 3 "texts" |}
      [ {| up_bucket := "texts"; up_key := "chunks/chunk_0.txt"; up_body := "a b" |};
        {| up_bucket := "texts"; up_key := "chunks/chunk_1.txt"; up_body := "c d" |};
        {| up_bucket := "texts"; up_key := "chunks/chunk_2.txt"; up_body := "e f g" |} ].
Proof. reflexivity. Qed.

(** The object is fetched before [num_chunks] is looked at: a request for
    a missing object is answered 500 even when [num_chunks] is invalid; and
    an upload that fails leaves the earlier chunks written. *)
Example split_missing_object :
  splitHandler (fun _ _ => GetFailed "NoSuchKey") (fun _ => sample_words) (fun _ _ => None)
    ample [("bucket", "texts"); ("key", "poem.txt"); ("num_chunks", "zero")]%string
  = Responded {| status := 500; body := H_error "failed to get S3 object: NoSuchKey" |} [].
Proof. reflexivity. Qed.

Example split_upload_fails :
  splitHandler (fun _ _ => Text "a b c d e f g") (fun _ => sample_words)
    (fun i _ => if i =? 1 then Some "AccessDenied"%string else None) ample sample_query
  = Responded {| status := 500; body := H_error "failed to upload chunk 1: AccessDenied" |}
      [ {| up_bucket := "texts"; up_key := "chunks/chunk_0.txt"; up_body := "a b" |} ].
Proof. reflexivity. Qed.

(** A process that can hold two chunks and is asked for three ends
    before anything is written; one that runs out of memory for the
    second URL has written two objects. *)
Example split_out_of_memory :
  splitHandler (fun _ _ => Text "a b c d e f g") (fun _ => sample_words) (fun _ _ => None)
    (chunks_limit 2) sample_query
  = OutOfMemory [] /\
  splitHandler (fun _ _ => Text "a b c d e f g") (fun _ => sample_words) (fun _ _ => None)
    (fun a => match a with AppendURL 1 => false | _ => true end) sample_query
  = OutOfMemory
      [ {| up_bucket := "texts"; up_key := "chunks/chunk_0.txt"; up_body := "a b" |};
        {| up_bucket := "texts"; up_key := "chunks/chunk_1.txt"; up_body := "c d" |} ].
Proof. split; reflexivity. Qed.

Example Atoi_examples :
  map Atoi ["3"; "+12"; "-7"; "007"; ""; "+"; "1e3"; " 3"; "9223372036854775807";
            "9223372036854775808"; "-9223372036854775808"]%string
  = [Some 3; Some 12; Some (-7); Some 7; None; None; None; None;
     Some 9223372036854775807; None; Some (-9223372036854775808)].
Proof. reflexivity. Qed.

End split_facts.

(* ===================================================================== *)
(** ** More on the concurrent map harness *)
(* ===================================================================== *)

Module harness_extra.
Import goroutines harness GoInt_facts goroutines_facts harness_facts.

Lemma total_written_bound strat I l :
  (forall g w, l !! g = Some w -> worker_ok strat I w) ->
  0 <= total_written l <= Z.of_nat (length l) * I.
Proof.
  induction l as [| a l IH]; intros H; simpl total_written; simpl length; [lia |].
  pose proof (written_bounds strat I a (H 0%nat a eq_refl)) as Ha.
  assert (Hl : 0 <= total_written l <= Z.of_nat (length l) * I)
    by (apply IH; intros g w Hg; apply (H (S g) w Hg)).
  lia.
Qed.

(** X18.  During the write phase of the sync.Map program, under every
    schedule and at every moment, the map holds exactly the entries
    stored so far: for each goroutine [g] that has completed [i]
    iterations, the entries [g*1000+j := j] for [j < i], and nothing
    else.  No [Store] overwrites the entry of another, so the number of
    entries is the number of [Store] calls made, and counting with
    [Range] gives this number. *)
Theorem syncmap_holds_entries_stored (W : nat) (I : Z) (schedule : list nat) :
  GoInt.in_range (1000 * Z.of_nat W) -> 0 <= I <= 1000 ->
  let c := run SyncMap W I schedule in
  length (threads c) = W /\
  (forall g w, threads c !! g = Some w -> w_pc w = AtLoop /\ 0 <= w_i w <= I) /\
  (forall k v, m (mem c) !! k = Some v <->
     exists g w, threads c !! g = Some w /\ 0 <= v < w_i w /\
                 k = Z.of_nat g * 1000 + v) /\
  Z.of_nat (size (m (mem c))) = total_written (threads c) /\
  Z.of_nat (size (m (mem c))) <= Z.of_nat W * I /\
  range_count (m (mem c)) = Z.of_nat (size (m (mem c))).
Proof.
  intros HW HI c.
  destruct (inv_run SyncMap W I HW HI schedule) as [Hlen Hok [Hmap Hsize] _ _].
  fold c in Hlen, Hok, Hmap, Hsize.
  assert (Hpc : forall g w, threads c !! g = Some w -> w_pc w = AtLoop /\ 0 <= w_i w <= I).
  { intros g w Hl. destruct (Hok g w Hl) as [Hi Hp]. split; [| exact Hi].
    destruct (w_pc w); try reflexivity; destruct (Hp ltac:(discriminate)) as [_ H];
      contradiction. }
  assert (Hbound : Z.of_nat (size (m (mem c))) <= Z.of_nat W * I).
  { rewrite Hsize, <- Hlen. apply (total_written_bound SyncMap I). exact Hok. }
  split; [exact Hlen |]. split; [exact Hpc |]. split.
  { intros k v. rewrite Hmap. split.
    - intros (g & w & j & Hl & Hj & -> & ->). exists g, w.
      destruct (Hpc g w Hl) as [Hp Hi]. unfold written in Hj. rewrite Hp in Hj.
      split; [exact Hl |]. split; [lia |].
      apply lookup_lt_Some in Hl.
      apply (key_no_overflow (Z.of_nat W) I); (assumption || lia).
    - intros (g & w & Hl & Hv & ->). exists g, w, v.
      destruct (Hpc g w Hl) as [Hp Hi]. unfold written. rewrite Hp.
      split; [exact Hl |]. split; [lia |]. split; [| reflexivity].
      apply lookup_lt_Some in Hl. symmetry.
      apply (key_no_overflow (Z.of_nat W) I); (assumption || lia). }
  split; [exact Hsize |]. split; [exact Hbound |].
  apply range_count_size. destruct HW as [_ HW]. unfold GoInt.max_int in *. nia.
Qed.

Lemma syncmap_holds_entries_stored_witness :
  GoInt.in_range (1000 * Z.of_nat 2) /\ 0 <= 3 <= 1000 /\
  m (mem (run SyncMap 2 3 [1; 0; 1]%nat)) = {[ 1000 := 0; 1001 := 1; 0 := 0 ]} /\
  range_count (m (mem (run SyncMap 2 3 [1; 0; 1]%nat)))
  = Z.of_nat (size (m (mem (run SyncMap 2 3 [1; 0; 1]%nat)))).
Proof.
  assert (H1 : GoInt.in_range (1000 * Z.of_nat 2)) by (split; vm_compute; discriminate).
  assert (H2 : 0 <= 3 <= 1000) by lia.
  split; [exact H1 |]. split; [exact H2 |]. split; [vm_compute; reflexivity |].
  exact (proj2 (proj2 (proj2 (proj2 (proj2
    (syncmap_holds_entries_stored 2 3 [1; 0; 1]%nat H1 H2)))))).
Defined.

(** The second [Range] of [main] prints the entries it is handed while
    its counter is below five. *)
Lemma range_list_print_entry (l : list (Z * Z)) : forall n out,
  0 <= n <= 5 ->
  snd (range_list print_entry l (n, out))
  = out ++ map (fun kv => Printf ("  Key: %v, Value: %v" ++ nl) [VAny (fst kv); VAny (snd kv)])
               (take (Z.to_nat (5 - n)) l).
Proof.
  induction l as [| [k v] l IH]; intros n out Hn.
  - rewrite take_nil. simpl. rewrite app_nil_r. reflexivity.
  - simpl range_list. destruct (n <? 5) eqn:E.
    + apply Z.ltb_lt in E.
      rewrite wrap_succ by (unfold GoInt.min_int, GoInt.max_int; lia).
      rewrite IH by lia.
      replace (Z.to_nat (5 - n)) with (S (Z.to_nat (5 - (n + 1)))) by lia.
      rewrite firstn_cons. simpl map. rewrite <- app_assoc. reflexivity.
    + apply Z.ltb_ge in E. replace (Z.to_nat (5 - n)) with 0%nat by lia.
      rewrite take_0. simpl. rewrite app_nil_r. reflexivity.
Qed.

(** X19.  The sample [main] prints after the measurements: the heading,
    then one line for each of the first five entries [Range] enumerates,
    or for all entries when the map holds fewer than five.  The entries
    printed are distinct entries of the map; the callback stops the
    enumeration, so no sixth entry is printed however large the map. *)
Theorem examples_prints_first_five (mp : gmap Z Z) :
  let sample := take 5 (map_to_list mp) in
  examples mp
  = Printf (nl ++ "Example: First few entries:" ++ nl) []
    :: map (fun kv => Printf ("  Key: %v, Value: %v" ++ nl) [VAny (fst kv); VAny (snd kv)])
           sample /\
  length sample = Nat.min 5 (size mp) /\
  NoDup sample /\
  (forall k v, In (k, v) sample -> mp !! k = Some v).
Proof.
  intros sample. split; [| split; [| split]].
  - unfold examples, Range. rewrite range_list_print_entry by lia. reflexivity.
  - unfold sample. rewrite length_take, length_map_to_list. reflexivity.
  - unfold sample. eapply sublist_NoDup; [apply NoDup_map_to_list | apply sublist_take].
  - intros k v Hin. apply elem_of_map_to_list.
    eapply elem_of_sublist; [| apply sublist_take]. apply list_elem_of_In. exact Hin.
Qed.

(** X20.  Everything the sync.Map program prints once all goroutines
    have returned, for [W] goroutines of [I] iterations: the count
    [W*I], the elapsed time, the heading of the sample, and one line for
    each of [min(5, W*I)] distinct entries, every one of the form
    [g*1000+i := i] for a goroutine [g] and an iteration [i]. *)
Theorem report_after_barrier (W : nat) (I : Z) (schedule : list nat) (elapsed : Z) :
  GoInt.in_range (1000 * Z.of_nat W) -> 0 <= I <= 1000 ->
  all_done I (run SyncMap W I schedule) = true ->
  exists sample : list (Z * Z),
    report (m (mem (run SyncMap W I schedule))) elapsed
    = [ Printf ("Length of map: %d" ++ nl) [VInt (Z.of_nat W * I)];
        Printf ("Total time taken: %v" ++ nl) [VDuration elapsed];
        Printf (nl ++ "Example: First few entries:" ++ nl) [] ]
      ++ map (fun kv => Printf ("  Key: %v, Value: %v" ++ nl) [VAny (fst kv); VAny (snd kv)])
             sample /\
    Z.of_nat (length sample) = Z.min 5 (Z.of_nat W * I) /\
    NoDup sample /\
    (forall k v, In (k, v) sample ->
       exists g, 0 <= g < Z.of_nat W /\ 0 <= v < I /\ k = g * 1000 + v).
Proof.
  intros HW HI Hd.
  destruct (after_barrier SyncMap W I schedule HW HI Hd) as (_ & _ & _ & Hsize & _ & Honly).
  set (mp := m (mem (run SyncMap W I schedule))) in *.
  exists (take 5 (map_to_list mp)).
  split; [| split; [| split]].
  - unfold mp, report. rewrite (summary_after_barrier W I schedule elapsed HW HI Hd).
    unfold examples, Range. rewrite range_list_print_entry by lia. reflexivity.
  - rewrite length_take, length_map_to_list. lia.
  - eapply sublist_NoDup; [apply NoDup_map_to_list | apply sublist_take].
  - intros k v Hin.
    assert (Hkv : mp !! k = Some v).
    { apply elem_of_map_to_list.
      eapply elem_of_sublist; [| apply sublist_take]. apply list_elem_of_In. exact Hin. }
    apply Honly in Hkv as (g & i & Hg & Hi & -> & ->).
    exists g. split; [exact Hg |]. split; [exact Hi |].
    apply (key_no_overflow (Z.of_nat W) I); (assumption || lia).
Qed.

Lemma report_after_barrier_witness :
  GoInt.in_range (1000 * Z.of_nat 2) /\ 0 <= 1 <= 1000 /\
  all_done 1 (run SyncMap 2 1 [0; 1]%nat) = true /\
  exists sample : list (Z * Z),
    report (m (mem (run SyncMap 2 1 [0; 1]%nat))) 2870000
    = [ Printf ("Length of map: %d" ++ nl) [VInt (Z.of_nat 2 * 1)];
        Printf ("Total time taken: %v" ++ nl) [VDuration 2870000];
        Printf (nl ++ "Example: First few entries:" ++ nl) [] ]
      ++ map (fun kv => Printf ("  Key: %v, Value: %v" ++ nl) [VAny (fst kv); VAny (snd kv)])
             sample /\
    Z.of_nat (length sample) = Z.min 5 (Z.of_nat 2 * 1).
Proof.
  assert (H1 : GoInt.in_range (1000 * Z.of_nat 2)) by (split; vm_compute; discriminate).
  assert (H2 : 0 <= 1 <= 1000) by lia.
  assert (H3 : all_done 1 (run SyncMap 2 1 [0; 1]%nat) = true) by reflexivity.
  split; [exact H1 |]. split; [exact H2 |]. split; [exact H3 |].
  destruct (report_after_barrier 2 1 [0; 1]%nat 2870000 H1 H2 H3) as (sample & E & Hl & _).
  exists sample. split; [exact E | exact Hl].
Defined.

End harness_extra.

(* ===================================================================== *)
(** ** More on the atomic counter experiment *)
(* ===================================================================== *)

Module atomic_counter_extra.
Import goroutines atomic_counter atomic_counter_history.
Import GoInt_facts goroutines_facts atomic_counter_facts.

Lemma sum_of_le f h l :
  (forall g w, l !! g = Some w -> f w <= h w) -> sum_of f l <= sum_of h l.
Proof.
  induction l as [| a l IH]; intros H; simpl sum_of; [lia |].
  pose proof (H 0%nat a eq_refl).
  assert (sum_of f l <= sum_of h l) by (apply IH; intros g w Hg; apply (H (S g) w Hg)).
  lia.
Qed.

(** X21.  Under every schedule and at every moment of the run, not only
    at the end: the atomic counter equals the number of [Add] calls made
    so far, the plain counter never exceeds it, and neither exceeds the
    [W*I] increments requested. *)
Theorem plain_counter_never_ahead (W : nat) (I : Z) (schedule : list nat) :
  0 <= I -> Z.of_nat W * I < 2 ^ 63 ->
  let c := run W I schedule in
  atomicOps (mem c) = sum_of adds (threads c) /\
  0 <= nonAtomicOps (mem c) <= atomicOps (mem c) /\
  atomicOps (mem c) <= Z.of_nat W * I.
Proof.
  intros HI Hs c.
  pose proof (counter_inv_run W I HI Hs schedule) as Hinv. fold c in Hinv.
  pose proof (sums_bounded W I c Hinv) as [Hn Ha].
  destruct Hinv as [Hlen Hok Hat Hpl _].
  assert (Hle : sum_of w_n (threads c) <= sum_of adds (threads c)).
  { apply sum_of_le. intros g w _. unfold adds. destruct (w_pc w); lia. }
  split; [exact Hat |]. split; lia.
Qed.

Lemma plain_counter_never_ahead_witness :
  0 <= 2 /\ Z.of_nat 2 * 2 < 2 ^ 63 /\
  mem (run 2 2 [0; 1; 1; 0; 1; 0]%nat) = {| atomicOps := 2; nonAtomicOps := 1 |} /\
  0 <= nonAtomicOps (mem (run 2 2 [0; 1; 1; 0; 1; 0]%nat))
    <= atomicOps (mem (run 2 2 [0; 1; 1; 0; 1; 0]%nat)).
Proof.
  assert (H1 : 0 <= 2) by lia.
  assert (H2 : Z.of_nat 2 * 2 < 2 ^ 63) by (vm_compute; reflexivity).
  split; [exact H1 |]. split; [exact H2 |]. split; [reflexivity |].
  exact (proj1 (proj2 (plain_counter_never_ahead 2 2 [0; 1; 1; 0; 1; 0]%nat H1 H2))).
Defined.

Section LostUpdates.
Variable W : nat.
Variable I : Z.
Hypothesis I_nonneg : 0 <= I.
Hypothesis total_small : Z.of_nat W * I < 2 ^ 63.

(** Once the plain counter is behind, no step catches up. *)
Lemma behind_step d c g c' :
  inv W I c -> behind d c -> step_thread (worker_step I) g c = Some c' -> behind d c'.
Proof.
  intros Hinv [Hb Hr] Hstep. pose proof (sums_bounded W I c Hinv) as [Hbn _].
  destruct Hinv as [Hlen Hok _ Hpl Hreg].
  apply step_thread_inv in Hstep as (w & w' & sh' & Hg & Hstep & ->).
  apply counter_worker_step_wstep in Hstep.
  destruct (Hok g w Hg) as [Hn Hp].
  assert (HW : 0 < Z.of_nat W) by (apply lookup_lt_Some in Hg; lia).
  assert (HI : I < 2 ^ 63) by nia.
  assert (H64 : 2 ^ 63 < 2 ^ 64) by (vm_compute; reflexivity).
  inversion Hstep; subst; simpl in Hn, Hp, Hb; unfold behind; simpl mem; simpl threads;
    rewrite (sum_of_set _ _ g _ _ Hg); simpl.
  - split; [lia |].
    intros g1 w1 Hl Hw. apply (lookup_set _ g _ _ _ _ Hg) in Hl as [[-> ->] | [Hne Hl]].
    + discriminate Hw.
    + pose proof (Hr g1 w1 Hl Hw). lia.
  - split; [lia |].
    intros g1 w1 Hl Hw. apply (lookup_set _ g _ _ _ _ Hg) in Hl as [[-> ->] | [Hne Hl]].
    + simpl. lia.
    + pose proof (Hr g1 w1 Hl Hw). lia.
  - specialize (Hp ltac:(discriminate)).
    pose proof (Hreg g _ Hg eq_refl) as Hr0. simpl in Hr0.
    pose proof (Hr g _ Hg eq_refl) as Hr1. simpl in Hr1.
    rewrite wrap_succ by (unfold GoInt.min_int, GoInt.max_int; lia).
    rewrite wrapu_id by lia.
    split; [lia |].
    intros g1 w1 Hl Hw. apply (lookup_set _ g _ _ _ _ Hg) in Hl as [[-> ->] | [Hne Hl]].
    + discriminate Hw.
    + pose proof (Hr g1 w1 Hl Hw). lia.
Qed.

Lemma behind_exec d rest c :
  inv W I c -> behind d c ->
  inv W I (exec (worker_step I) rest c) /\ behind d (exec (worker_step I) rest c).
Proof.
  intros Hinv Hb.
  apply (exec_invariant (worker_step I) (fun c => inv W I c /\ behind d c)); [| auto].
  intros c0 g c' [H1 H2] Hstep. split.
  - apply (counter_inv_step W I total_small c0 g c' H1 Hstep).
  - apply (behind_step d c0 g c' H1 H2 Hstep).
Qed.

(** From any configuration of a run, some schedule lets every goroutine
    return. *)
Lemma wait_returns_from c :
  inv W I c -> exists rest, all_done I (exec (worker_step I) rest c) = true.
Proof.
  apply (exec_reaches _ (inv W I) (fun c => sum_of (remaining I) (threads c))).
  - intros c0 [Hlen Hok _ _ _].
    pose proof (sum_of_bounds (remaining I) (threads c0) 0 (3 * I)) as H.
    rewrite Z.mul_0_r in H. apply H. intros g w Hl.
    destruct (Hok g w Hl) as [Hn Hp]. unfold remaining.
    destruct (w_pc w); try lia; specialize (Hp ltac:(discriminate)); lia.
  - apply (counter_progress W I).
  - intros c0 g c' Hinv Hstep. split.
    + apply (counter_inv_step W I total_small c0 g c' Hinv Hstep).
    + apply (counter_step_decreases W I total_small c0 g c'); assumption.
Qed.

End LostUpdates.

(** The configuration the race leaves: two [Add] calls counted, two
    increments of the plain counter completed, and the plain counter
    at 1. *)
Lemma run_race (W : nat) (p : positive) :
  run (S (S W)) (Z.pos p) race
  = {| mem := {| atomicOps := 2; nonAtomicOps := 1 |};
       threads := {| w_n := 1; w_pc := AtAdd; w_reg := 0 |}
                  :: {| w_n := 1; w_pc := AtAdd; w_reg := 0 |}
                  :: replicate W {| w_n := 0; w_pc := AtAdd; w_reg := 0 |} |}.
Proof. reflexivity. Qed.

Lemma behind_after_race (W : nat) (I : Z) :
  (2 <= W)%nat -> 1 <= I -> behind 1 (run W I race).
Proof.
  intros HW HI. destruct W as [| [| W]]; try lia.
  destruct I as [| p | p]; try lia.
  rewrite run_race. unfold behind. simpl mem. simpl threads. simpl sum_of.
  rewrite sum_of_replicate. simpl w_n. simpl nonAtomicOps. split; [lia |].
  intros [| [| g]] w Hl Hw; simpl in Hl.
  - injection Hl as <-. discriminate Hw.
  - injection Hl as <-. discriminate Hw.
  - apply lookup_replicate in Hl as [-> _]. discriminate Hw.
Qed.

(** X22.  The plain counter can lose an increment, and a lost increment
    is never made up.  With at least two goroutines of at least one pass
    each: after the interleaving in which goroutines 0 and 1 both read
    the plain counter before either writes it back, some continuation
    lets every goroutine return, and under every continuation that does,
    the atomic counter holds all [W*I] increments while the plain counter
    holds fewer.  For the 500 goroutines of 1000 passes of [main], the
    program then reports no atomic increment lost and at least one plain
    increment lost. *)
Theorem lost_update_possible (W : nat) (I : Z) :
  (2 <= W)%nat -> 1 <= I -> Z.of_nat W * I < 2 ^ 63 ->
  (exists rest, all_done I (run W I (race ++ rest)) = true) /\
  (forall rest,
     all_done I (run W I (race ++ rest)) = true ->
     let sh := mem (run W I (race ++ rest)) in
     atomicOps sh = Z.of_nat W * I /\
     0 <= nonAtomicOps sh < Z.of_nat W * I /\
     (W = goroutines_started -> I = increments_each ->
      atomicLost sh = 0 /\ 1 <= nonAtomicLost sh <= expected)).
Proof.
  intros HW HI Hs.
  assert (HI0 : 0 <= I) by lia.
  pose proof (counter_inv_run W I HI0 Hs race) as Hinv.
  pose proof (behind_after_race W I HW HI) as Hb.
  assert (Happ : forall rest,
            run W I (race ++ rest) = exec (worker_step I) rest (run W I race)).
  { intros rest. unfold run. apply exec_app. }
  split.
  - destruct (wait_returns_from W I) with (c := run W I race) as [rest Hd];
      try assumption.
    exists rest. rewrite Happ. exact Hd.
  - intros rest Hd sh.
    destruct (final_counters W I HI0 Hs (race ++ rest) Hd) as [Hat Hpl]. fold sh in Hat, Hpl.
    destruct (behind_exec W I) with (d := 1) (rest := rest) (c := run W I race)
      as [Hinv' [Hb' _]]; try assumption.
    rewrite <- Happ in Hinv', Hb'.
    pose proof (sums_bounded W I _ Hinv') as [Hbn _]. fold sh in Hb'.
    split; [exact Hat |]. split; [lia |].
    intros -> ->.
    assert (He : Z.of_nat goroutines_started * increments_each = expected) by reflexivity.
    rewrite He in *. unfold atomicLost, nonAtomicLost. rewrite Hat, Z.sub_diag.
    split; [reflexivity |].
    rewrite wrapu_id by (unfold expected in *; lia). lia.
Qed.

Lemma lost_update_possible_witness :
  (2 <= 2)%nat /\ 1 <= 1 /\ Z.of_nat 2 * 1 < 2 ^ 63 /\
  all_done 1 (run 2 1 (race ++ [])) = true /\
  mem (run 2 1 (race ++ [])) = {| atomicOps := 2; nonAtomicOps := 1 |} /\
  0 <= nonAtomicOps (mem (run 2 1 (race ++ []))) < Z.of_nat 2 * 1.
Proof.
  assert (H1 : (2 <= 2)%nat) by lia.
  assert (H2 : 1 <= 1) by lia.
  assert (H3 : Z.of_nat 2 * 1 < 2 ^ 63) by (vm_compute; reflexivity).
  assert (H4 : all_done 1 (run 2 1 (race ++ [])) = true) by reflexivity.
  split; [exact H1 |]. split; [exact H2 |]. split; [exact H3 |]. split; [exact H4 |].
  split; [reflexivity |].
  exact (proj1 (proj2 (proj2 (lost_update_possible 2 1 H1 H2 H3) [] H4))).
Defined.

(** *** Without interleaving nothing is lost *)

Lemma sched_step_at I c g w w' sh' :
  threads c !! g = Some w -> worker_step I g w (mem c) = Some (w', sh') ->
  sched_step (worker_step I) c g = {| mem := sh'; threads := <[g := w']> (threads c) |}.
Proof.
  intros Hg Hstep. unfold sched_step, step_thread. rewrite Hg, Hstep. reflexivity.
Qed.

(** One pass of goroutine [g] run without interruption: the [Add], the
    read and the write. *)
Lemma exec_pass I c g n r :
  threads c !! g = Some {| w_n := n; w_pc := AtAdd; w_reg := r |} ->
  0 <= n < I -> I < 2 ^ 63 ->
  0 <= atomicOps (mem c) < 2 ^ 63 -> 0 <= nonAtomicOps (mem c) < 2 ^ 63 ->
  exec (worker_step I) [g; g; g] c =
  {| mem := {| atomicOps := atomicOps (mem c) + 1;
               nonAtomicOps := nonAtomicOps (mem c) + 1 |};
     threads := <[g := {| w_n := n + 1; w_pc := AtAdd; w_reg := nonAtomicOps (mem c) |}]>
                  (threads c) |}.
Proof.
  intros Hg Hn HI Ha Hp.
  assert (H64 : 2 ^ 63 < 2 ^ 64) by (vm_compute; reflexivity).
  assert (Hlt : (g < length (threads c))%nat) by (eapply lookup_lt_Some; exact Hg).
  unfold exec. simpl fold_left.
  rewrite (sched_step_at I c g _
             {| w_n := n; w_pc := AtRead; w_reg := r |}
             {| atomicOps := atomicOps (mem c) + 1; nonAtomicOps := nonAtomicOps (mem c) |} Hg).
  2: { unfold worker_step. simpl.
       replace (n <? I) with true by (symmetry; apply Z.ltb_lt; lia).
       rewrite wrapu_id by lia. reflexivity. }
  rewrite (sched_step_at I
             {| mem := {| atomicOps := atomicOps (mem c) + 1;
                          nonAtomicOps := nonAtomicOps (mem c) |};
                threads := <[g := {| w_n := n; w_pc := AtRead; w_reg := r |}]> (threads c) |}
             g {| w_n := n; w_pc := AtRead; w_reg := r |}
             {| w_n := n; w_pc := AtWrite; w_reg := nonAtomicOps (mem c) |}
             {| atomicOps := atomicOps (mem c) + 1; nonAtomicOps := nonAtomicOps (mem c) |}).
  2: { simpl threads. apply list_lookup_insert_eq. exact Hlt. }
  2: { reflexivity. }
  simpl threads. rewrite list_insert_insert_eq.
  rewrite (sched_step_at I _ g {| w_n := n; w_pc := AtWrite; w_reg := nonAtomicOps (mem c) |}
             {| w_n := n + 1; w_pc := AtAdd; w_reg := nonAtomicOps (mem c) |}
             {| atomicOps := atomicOps (mem c) + 1;
                nonAtomicOps := nonAtomicOps (mem c) + 1 |}).
  2: { simpl threads. apply list_lookup_insert_eq. exact Hlt. }
  2: { unfold worker_step. simpl.
       rewrite wrapu_id by lia.
       rewrite wrap_succ by (unfold GoInt.min_int, GoInt.max_int; lia). reflexivity. }
  simpl threads. rewrite list_insert_insert_eq. reflexivity.
Qed.

(** [j] passes of goroutine [g] run without interruption. *)
Lemma exec_passes I g (j : nat) : forall c n r,
  threads c !! g = Some {| w_n := n; w_pc := AtAdd; w_reg := r |} ->
  0 <= n -> n + Z.of_nat j <= I -> I < 2 ^ 63 ->
  0 <= atomicOps (mem c) -> atomicOps (mem c) + Z.of_nat j < 2 ^ 63 ->
  0 <= nonAtomicOps (mem c) -> nonAtomicOps (mem c) + Z.of_nat j < 2 ^ 63 ->
  exists r',
    exec (worker_step I) (repeat g (3 * j)) c =
    {| mem := {| atomicOps := atomicOps (mem c) + Z.of_nat j;
                 nonAtomicOps := nonAtomicOps (mem c) + Z.of_nat j |};
       threads := <[g := {| w_n := n + Z.of_nat j; w_pc := AtAdd; w_reg := r' |}]>
                    (threads c) |}.
Proof.
  induction j as [| j IH]; intros c n r Hg Hn Hj HI Ha Ha' Hp Hp'.
  - exists r. simpl. unfold exec. simpl. rewrite !Z.add_0_r.
    rewrite list_insert_id by exact Hg. destruct c as [[a p] ws]. reflexivity.
  - replace (3 * S j)%nat with (3 + 3 * j)%nat by lia.
    rewrite repeat_app. simpl repeat at 1. rewrite exec_app.
    rewrite (exec_pass I c g n r Hg) by lia.
    assert (Hlt : (g < length (threads c))%nat) by (eapply lookup_lt_Some; exact Hg).
    destruct (IH {| mem := {| atomicOps := atomicOps (mem c) + 1;
                              nonAtomicOps := nonAtomicOps (mem c) + 1 |};
                    threads := <[g := {| w_n := n + 1; w_pc := AtAdd;
                                         w_reg := nonAtomicOps (mem c) |}]> (threads c) |}
                 (n + 1) (nonAtomicOps (mem c))) as [r' E];
      simpl mem; simpl atomicOps; simpl nonAtomicOps; try lia.
    { simpl threads. apply list_lookup_insert_eq. exact Hlt. }
    exists r'. rewrite E. simpl. rewrite list_insert_insert_eq.
    f_equal; [f_equal; lia |]. f_equal. f_equal. lia.
Qed.

(** The goroutines [0 .. g-1] run to completion one after the other. *)
Lemma exec_sequential (W : nat) (I : Z) (g : nat) :
  0 <= I -> Z.of_nat W * I < 2 ^ 63 -> (g <= W)%nat ->
  exists finished_workers,
    length finished_workers = g /\
    Forall (fun w => w_n w = I /\ w_pc w = AtAdd) finished_workers /\
    exec (worker_step I) (flat_map (fun k => repeat k (Z.to_nat (3 * I))) (seq 0 g)) (init W)
    = {| mem := {| atomicOps := Z.of_nat g * I; nonAtomicOps := Z.of_nat g * I |};
         threads := finished_workers
                    ++ replicate (W - g) {| w_n := 0; w_pc := AtAdd; w_reg := 0 |} |}.
Proof.
  intros HI Hs. induction g as [| g IH]; intros Hg.
  - exists []. split; [reflexivity |]. split; [constructor |].
    simpl. rewrite Nat.sub_0_r. reflexivity.
  - destruct (IH ltac:(lia)) as (fw & Hlen & Hall & E).
    rewrite seq_S, flat_map_app, exec_app, E. simpl flat_map. rewrite app_nil_r.
    assert (HgW : Z.of_nat g * I + I <= Z.of_nat W * I) by nia.
    assert (HI63 : I < 2 ^ 63) by nia.
    replace (Z.to_nat (3 * I)) with (3 * Z.to_nat I)%nat by lia.
    edestruct (exec_passes I g (Z.to_nat I)
                 {| mem := {| atomicOps := Z.of_nat g * I; nonAtomicOps := Z.of_nat g * I |};
                    threads := fw ++ replicate (W - g) {| w_n := 0; w_pc := AtAdd; w_reg := 0 |} |}
                 0 0) as [r' E'].
    { simpl threads. rewrite lookup_app_r by lia. rewrite Hlen, Nat.sub_diag.
      apply lookup_replicate. split; [reflexivity | lia]. }
    all: simpl mem; simpl atomicOps; simpl nonAtomicOps; try nia.
    rewrite E'. simpl threads. simpl mem. simpl atomicOps. simpl nonAtomicOps.
    exists (fw ++ [{| w_n := 0 + Z.of_nat (Z.to_nat I); w_pc := AtAdd; w_reg := r' |}]).
    split; [rewrite length_app; simpl; lia |]. split.
    { apply Forall_app. split; [exact Hall |]. constructor; [| constructor].
      simpl. split; [lia | reflexivity]. }
    f_equal; [f_equal; lia |].
    replace (W - g)%nat with (S (W - S g)) by lia. simpl replicate.
    rewrite insert_app_r_alt by lia. rewrite Hlen, Nat.sub_diag. simpl.
    rewrite <- app_assoc. reflexivity.
Qed.

(** X26.  When the goroutines happen to run one after the other, each to
    completion, nothing is lost: every goroutine returns and both
    counters hold [W*I], so that for the 500 goroutines of 1000 passes of
    [main] the program reports no increment lost by either counter.  With
    the race above, the same program reports a loss: what
    [nonAtomicLost] is depends on the schedule. *)
Theorem sequential_run_loses_nothing (W : nat) (I : Z) :
  0 <= I -> Z.of_nat W * I < 2 ^ 63 ->
  let c := run W I (harness.sequential W (Z.to_nat (3 * I))) in
  all_done I c = true /\
  atomicOps (mem c) = Z.of_nat W * I /\
  nonAtomicOps (mem c) = Z.of_nat W * I /\
  (W = goroutines_started -> I = increments_each ->
   atomicLost (mem c) = 0 /\ nonAtomicLost (mem c) = 0).
Proof.
  intros HI Hs c.
  destruct (exec_sequential W I W HI Hs (le_n W)) as (fw & Hlen & Hall & E).
  assert (Hc : c = {| mem := {| atomicOps := Z.of_nat W * I; nonAtomicOps := Z.of_nat W * I |};
                      threads := fw |}).
  { unfold c, run, harness.sequential. rewrite E, Nat.sub_diag. simpl replicate.
    rewrite app_nil_r. reflexivity. }
  rewrite Hc. simpl mem. simpl atomicOps. simpl nonAtomicOps.
  split.
  - unfold all_done. simpl threads. apply forallb_forall. intros w Hw.
    rewrite List.Forall_forall in Hall. destruct (Hall w Hw) as [Hn Hp].
    unfold finished. rewrite Hp, Hn. rewrite Z.ltb_irrefl. reflexivity.
  - split; [reflexivity |]. split; [reflexivity |].
    intros -> ->. unfold atomicLost, nonAtomicLost. simpl atomicOps. simpl nonAtomicOps.
    split; reflexivity.
Qed.

Lemma sequential_run_loses_nothing_witness :
  0 <= 2 /\ Z.of_nat 3 * 2 < 2 ^ 63 /\
  mem (run 3 2 (harness.sequential 3 (Z.to_nat (3 * 2))))
  = {| atomicOps := 6; nonAtomicOps := 6 |} /\
  all_done 2 (run 3 2 (harness.sequential 3 (Z.to_nat (3 * 2)))) = true.
Proof.
  assert (H1 : 0 <= 2) by lia.
  assert (H2 : Z.of_nat 3 * 2 < 2 ^ 63) by (vm_compute; reflexivity).
  split; [exact H1 |]. split; [exact H2 |]. split; [vm_compute; reflexivity |].
  exact (proj1 (sequential_run_loses_nothing 3 2 H1 H2)).
Defined.

End atomic_counter_extra.

(* ===================================================================== *)
(** ** The store under concurrent callers *)
(* ===================================================================== *)

Module store_concurrent_facts.
Import model store store_history goroutines store_concurrent.
Import GoInt_facts store_facts store_extra goroutines_facts.

Lemma completed_set l : forall g w w',
  l !! g = Some w ->
  completed (<[g := w']> l) = completed l - Z.of_nat (done w) + Z.of_nat (done w').
Proof.
  induction l as [| a l IH]; intros [| g] w w' Hg; simpl in *; try discriminate.
  - injection Hg as ->. lia.
  - rewrite (IH g w w' Hg). lia.
Qed.

Lemma stores_made_set l : forall g w w',
  l !! g = Some w ->
  stores_made (<[g := w']> l) = stores_made l - Z.of_nat (stored w) + Z.of_nat (stored w').
Proof.
  induction l as [| a l IH]; intros [| g] w w' Hg; simpl in *; try discriminate.
  - injection Hg as ->. lia.
  - rewrite (IH g w w' Hg). lia.
Qed.

Lemma completed_le_stores l : completed l <= stores_made l.
Proof. induction l as [| a l IH]; simpl; [lia |]. unfold stored. lia. Qed.

Lemma stores_made_bound (ws : list putter) : forall jobs : list (list Product),
  length ws = length jobs ->
  (forall g w job, ws !! g = Some w -> jobs !! g = Some job -> (stored w <= length job)%nat) ->
  0 <= stores_made ws <= Z.of_nat (length (concat jobs)).
Proof.
  induction ws as [| w ws IH]; intros [| job jobs] Hlen H; simpl in Hlen;
    try discriminate Hlen; simpl; [lia |].
  rewrite length_app.
  pose proof (H 0%nat w job eq_refl eq_refl).
  assert (0 <= stores_made ws <= Z.of_nat (length (concat jobs))).
  { apply IH; [lia |]. intros g w1 job1 H1 H2. apply (H (S g) w1 job1 H1 H2). }
  lia.
Qed.

Lemma completed_all (ws : list putter) : forall jobs : list (list Product),
  length ws = length jobs ->
  (forall g w job, ws !! g = Some w -> jobs !! g = Some job -> done w = length job) ->
  completed ws = Z.of_nat (length (concat jobs)).
Proof.
  induction ws as [| w ws IH]; intros [| job jobs] Hlen H; simpl in Hlen;
    try discriminate Hlen; simpl; [lia |].
  rewrite length_app, (H 0%nat w job eq_refl eq_refl).
  rewrite (IH jobs); [lia | lia |].
  intros g w1 job1 H1 H2. apply (H (S g) w1 job1 H1 H2).
Qed.

Lemma not_all_returned (ws : list putter) : forall jobs : list (list Product),
  length ws = length jobs -> ~ Forall2 returned ws jobs ->
  exists g w job, ws !! g = Some w /\ jobs !! g = Some job /\ (done w < length job)%nat.
Proof.
  induction ws as [| w ws IH]; intros [| job jobs] Hlen Hn; simpl in Hlen;
    try discriminate Hlen.
  - destruct Hn. constructor.
  - destruct (le_lt_dec (length job) (done w)) as [Hle | Hlt].
    + destruct (IH jobs ltac:(lia)) as (g & w1 & job1 & Hg & Hj & Hl).
      { intros Hf. apply Hn. constructor; assumption. }
      exists (S g), w1, job1. auto.
    + exists 0%nat, w, job. auto.
Qed.

Section Putters.
Variable jobs : list (list Product).
Hypothesis jobs_int : Z.of_nat (length (concat jobs)) <= GoInt.max_int.

Lemma has_stored_set c g w w' sh' p :
  threads c !! g = Some w -> (stored w <= stored w')%nat ->
  has_stored jobs c p ->
  has_stored jobs {| mem := sh'; threads := <[g := w']> (threads c) |} p.
Proof.
  intros Hg Hle (g1 & w1 & job & k & Hl & Hj & Hk & Hlt).
  destruct (decide (g1 = g)) as [-> | Hne].
  - exists g, w', job, k. simpl. rewrite list_lookup_insert_eq by (eapply lookup_lt_Some; eauto).
    assert (w1 = w) by congruence. subst w1. repeat split; auto; lia.
  - exists g1, w1, job, k. simpl. rewrite list_lookup_insert_ne by congruence. auto.
Qed.

Lemma has_stored_inv c g w w' sh' p :
  threads c !! g = Some w ->
  has_stored jobs {| mem := sh'; threads := <[g := w']> (threads c) |} p ->
  has_stored jobs c p \/
  exists job k, jobs !! g = Some job /\ job !! k = Some p /\
                (stored w <= k < stored w')%nat.
Proof.
  intros Hg (g1 & w1 & job & k & Hl & Hj & Hk & Hlt). simpl in Hl.
  apply (lookup_set _ g _ _ _ _ Hg) in Hl as [[-> ->] | [Hne Hl]];
    [| left; exists g1, w1, job, k; auto].
  destruct (decide (k < stored w)%nat) as [Hold | Hnew].
  - left. exists g, w, job, k. auto.
  - right. exists job, k. repeat split; auto; lia.
Qed.

Lemma putters_inv_init : inv jobs (init jobs).
Proof.
  unfold init. split; simpl.
  - apply length_replicate.
  - intros g w job Hl _. apply lookup_replicate in Hl as [-> _]. unfold stored. simpl. lia.
  - induction (length jobs) as [| n IH]; simpl; [reflexivity | rewrite <- IH; reflexivity].
  - intros id p H. rewrite lookup_empty in H. discriminate H.
  - intros p (g & w & job & k & Hl & _ & _ & Hlt). simpl in Hl.
    apply lookup_replicate in Hl as [-> _]. unfold stored in Hlt. simpl in Hlt. lia.
Qed.

Lemma putters_inv_step c g c' :
  inv jobs c -> step_thread (putter_step jobs) g c = Some c' -> inv jobs c'.
Proof.
  intros [Hlen Hb Hcount Hent Hpres] Hstep.
  apply step_thread_inv in Hstep as (w & w' & sh' & Hg & Hstep & ->).
  unfold putter_step in Hstep.
  destruct (jobs !! g) as [job |] eqn:Hj; [| discriminate].
  destruct (job !! done w) as [product |] eqn:Hp; [| discriminate].
  pose proof (lookup_lt_Some _ _ _ Hp) as Hdone.
  pose proof (Hb g w job Hg Hj) as Hbw.
  destruct w as [d [|]]; simpl in *; injection Hstep as <- <-.
  - (* the Store *)
    assert (Hbounds : forall g1 w1 job1,
              <[g := {| done := d; at_pc := AtAdd |}]> (threads c) !! g1 = Some w1 ->
              jobs !! g1 = Some job1 -> (stored w1 <= length job1)%nat).
    { intros g1 w1 job1 Hl Hj1.
      apply (lookup_set _ g _ _ _ _ Hg) in Hl as [[-> ->] | [Hne Hl]]; [| eauto].
      assert (job1 = job) by congruence. subst job1. unfold stored. simpl. lia. }
    split; simpl.
    + rewrite length_insert. exact Hlen.
    + exact Hbounds.
    + rewrite (completed_set _ g _ _ Hg). simpl. lia.
    + intros id p Hl. destruct (decide (ID product = id)) as [<- | Hne].
      * rewrite lookup_insert_eq in Hl. injection Hl as <-. split; [reflexivity |].
        exists g, {| done := d; at_pc := AtAdd |}, job, d. simpl.
        rewrite list_lookup_insert_eq by (eapply lookup_lt_Some; eauto).
        unfold stored. simpl. repeat split; auto; lia.
      * rewrite lookup_insert_ne in Hl by exact Hne.
        destruct (Hent id p Hl) as [Hid Hs]. split; [exact Hid |].
        apply (has_stored_set c g _ _ _ p Hg); [unfold stored; simpl; lia | exact Hs].
    + intros p Hs. apply lookup_insert_is_Some.
      destruct (decide (ID product = ID p)) as [E | E]; [left; exact E | right].
      split; [exact E |]. apply Hpres.
      apply (has_stored_inv c g _ _ _ p Hg) in Hs as [Hs | (job1 & k & Hj1 & Hk & Hlt)];
        [exact Hs |].
      unfold stored in Hlt. simpl in Hlt.
      assert (job1 = job) by congruence. subst job1.
      assert (k = d) by lia. subst k. congruence.
  - (* the Add *)
    assert (Hbounds : forall g1 w1 job1,
              <[g := {| done := S d; at_pc := AtStore |}]> (threads c) !! g1 = Some w1 ->
              jobs !! g1 = Some job1 -> (stored w1 <= length job1)%nat).
    { intros g1 w1 job1 Hl Hj1.
      apply (lookup_set _ g _ _ _ _ Hg) in Hl as [[-> ->] | [Hne Hl]]; [| eauto].
      assert (job1 = job) by congruence. subst job1. unfold stored. simpl. lia. }
    assert (Hnew : completed (<[g := {| done := S d; at_pc := AtStore |}]> (threads c))
                   = completed (threads c) + 1).
    { rewrite (completed_set _ g _ _ Hg). simpl done. lia. }
    pose proof (stores_made_bound _ jobs ltac:(rewrite length_insert; exact Hlen) Hbounds)
      as Hsm.
    pose proof (completed_le_stores (<[g := {| done := S d; at_pc := AtStore |}]> (threads c)))
      as Hcs.
    assert (H0 : 0 <= completed (threads c)).
    { clear. induction (threads c) as [| a l IH]; simpl; lia. }
    split; simpl.
    + rewrite length_insert. exact Hlen.
    + exact Hbounds.
    + rewrite Hnew, Hcount. apply wrap_succ. unfold GoInt.min_int, GoInt.max_int in *. lia.
    + intros id p Hl. destruct (Hent id p Hl) as [Hid Hs]. split; [exact Hid |].
      apply (has_stored_set c g _ _ _ p Hg); [unfold stored; simpl; lia | exact Hs].
    + intros p Hs. apply Hpres.
      apply (has_stored_inv c g _ _ _ p Hg) in Hs as [Hs | (job1 & k & _ & _ & Hlt)];
        [exact Hs |].
      unfold stored in Hlt. simpl in Hlt. lia.
Qed.

Lemma putters_inv_run schedule : inv jobs (run jobs schedule).
Proof.
  unfold run. apply exec_invariant; [| apply putters_inv_init].
  intros c g c'. apply putters_inv_step.
Qed.

Lemma putters_all_done c :
  inv jobs c -> all_done jobs c = true ->
  forall g w job, threads c !! g = Some w -> jobs !! g = Some job ->
    done w = length job /\ at_pc w = AtStore.
Proof.
  intros [_ Hb _ _ _] Hd g w job Hg Hj.
  unfold all_done in Hd. apply bool_decide_eq_true in Hd.
  pose proof (Forall2_lookup_lr _ _ _ _ _ _ Hd Hg Hj) as Hr. unfold returned in Hr.
  pose proof (Hb g w job Hg Hj) as Hs. unfold stored in Hs.
  destruct (at_pc w); [split; [lia | reflexivity] | lia].
Qed.

Lemma putters_progress c :
  inv jobs c -> all_done jobs c = false ->
  exists g c', step_thread (putter_step jobs) g c = Some c'.
Proof.
  intros [Hlen _ _ _ _] Hd. unfold all_done in Hd. apply bool_decide_eq_false in Hd.
  destruct (not_all_returned _ _ Hlen Hd) as (g & w & job & Hg & Hj & Hlt).
  destruct (lookup_lt_is_Some_2 job (done w) Hlt) as [p Hp].
  exists g. unfold step_thread, putter_step. rewrite Hg, Hj, Hp.
  destruct (at_pc w); eauto.
Qed.

Lemma putters_step_decreases c g c' :
  inv jobs c -> step_thread (putter_step jobs) g c = Some c' ->
  steps_left jobs c' < steps_left jobs c.
Proof.
  intros _ Hstep.
  apply step_thread_inv in Hstep as (w & w' & sh' & Hg & Hstep & ->).
  unfold putter_step in Hstep.
  destruct (jobs !! g) as [job |]; [| discriminate].
  destruct (job !! done w) as [product |]; [| discriminate].
  unfold steps_left. simpl threads.
  rewrite (completed_set _ g w w' Hg), (stores_made_set _ g w w' Hg).
  destruct w as [d [|]]; simpl in Hstep; injection Hstep as <- <-; unfold stored; simpl; lia.
Qed.

Lemma putters_return : exists schedule, all_done jobs (run jobs schedule) = true.
Proof.
  unfold run.
  apply (exec_reaches _ (inv jobs) (steps_left jobs)).
  - intros c [Hlen Hb _ _ _]. unfold steps_left.
    pose proof (stores_made_bound _ jobs Hlen Hb).
    pose proof (completed_le_stores (threads c)). lia.
  - apply putters_progress.
  - intros c g c' Hinv Hstep. split; [eapply putters_inv_step; eauto |].
    apply (putters_step_decreases c g c'); assumption.
  - apply putters_inv_init.
Qed.

End Putters.

Lemma last_put_NoDup ps id p :
  NoDup (map ID ps) -> In p ps -> ID p = id -> last_put id ps = Some p.
Proof.
  intros Hnd Hin Hid. unfold last_put.
  destruct (last (List.filter (fun q => ID q =? id) ps)) as [q |] eqn:E.
  - apply last_Some_elem_of, list_elem_of_In, filter_In in E as [Hq Hqid].
    apply Z.eqb_eq in Hqid. f_equal.
    apply list_elem_of_In in Hq, Hin.
    apply list_elem_of_lookup in Hq as [i Hi]. apply list_elem_of_lookup in Hin as [j Hj].
    assert (i = j).
    { eapply NoDup_lookup; [exact Hnd | |];
        rewrite list_lookup_fmap; [rewrite Hi | rewrite Hj]; simpl; [reflexivity |].
      congruence. }
    subst j. congruence.
  - exfalso. apply last_None in E.
    assert (Hf : In p (List.filter (fun q => ID q =? id) ps)).
    { apply filter_In. split; [exact Hin | apply Z.eqb_eq; exact Hid]. }
    rewrite E in Hf. destruct Hf.
Qed.

(** X23.  [Put] and [Count] under concurrent callers.  Goroutines put
    their products through the two atomic operations of [Put], in any
    interleaving.  At every moment [Count()] is the number of calls of
    [Put] completed, never more than the number of [Store] operations
    performed so far; every entry sits under its own id and was put by
    some goroutine.  Some schedule lets all goroutines return, and whenever
    they have, [Count()] is the total number of products put; if moreover
    the products have pairwise distinct ids, the store is the one the
    same calls leave when made one after the other. *)
Theorem concurrent_Put (jobs : list (list Product)) :
  Z.of_nat (length (concat jobs)) <= GoInt.max_int ->
  (forall schedule,
     let s := mem (run jobs schedule) in
     Count s = completed (threads (run jobs schedule)) /\
     0 <= Count s <= stores_made (threads (run jobs schedule)) /\
     stores_made (threads (run jobs schedule)) <= Z.of_nat (length (concat jobs)) /\
     (forall id p, Get s id = (p, true) -> ID p = id /\ In p (concat jobs))) /\
  (exists schedule, all_done jobs (run jobs schedule) = true) /\
  (forall schedule,
     all_done jobs (run jobs schedule) = true ->
     let s := mem (run jobs schedule) in
     Count s = Z.of_nat (length (concat jobs)) /\
     (forall p, In p (concat jobs) ->
        exists q, Get s (ID p) = (q, true) /\ ID q = ID p /\ In q (concat jobs)) /\
     (NoDup (map ID (concat jobs)) -> s = after_puts (concat jobs))).
Proof.
  intros Hint.
  assert (Hin_jobs : forall c p, has_stored jobs c p -> In p (concat jobs)).
  { intros c p (g & w & job & k & _ & Hj & Hk & _).
    apply in_concat. exists job. split.
    - apply list_elem_of_In. eapply list_elem_of_lookup_2. exact Hj.
    - apply list_elem_of_In. eapply list_elem_of_lookup_2. exact Hk. }
  split; [| split].
  - intros schedule s.
    destruct (putters_inv_run jobs Hint schedule) as [Hlen Hb Hcount Hent Hpres].
    fold s in Hcount, Hent, Hpres.
    pose proof (stores_made_bound _ jobs Hlen Hb) as Hsm.
    pose proof (completed_le_stores (threads (run jobs schedule))) as Hcs.
    assert (H0 : 0 <= completed (threads (run jobs schedule))).
    { clear. induction (threads (run jobs schedule)) as [| a l IH]; simpl; lia. }
    unfold Count. split; [exact Hcount |]. split; [lia |]. split; [lia |].
    intros id p Hp. unfold Get in Hp.
    destruct (data s !! id) as [q |] eqn:E; [| discriminate Hp].
    injection Hp as ->. destruct (Hent id p E) as [Hid Hs].
    split; [exact Hid | exact (Hin_jobs _ p Hs)].
  - apply putters_return. exact Hint.
  - intros schedule Hd s.
    pose proof (putters_inv_run jobs Hint schedule) as Hinv.
    pose proof (putters_all_done jobs _ Hinv Hd) as Hall.
    destruct Hinv as [Hlen Hb Hcount Hent Hpres]. fold s in Hcount, Hent, Hpres.
    assert (Hc : Count s = Z.of_nat (length (concat jobs))).
    { unfold Count. rewrite Hcount. apply completed_all; [exact Hlen |].
      intros g w job Hg Hj. apply (Hall g w job Hg Hj). }
    assert (Hall_stored : forall p, In p (concat jobs) ->
              has_stored jobs (run jobs schedule) p).
    { intros p Hp. apply in_concat in Hp as (job & Hjob & Hp).
      apply list_elem_of_In, list_elem_of_lookup in Hjob as [g Hj].
      apply list_elem_of_In, list_elem_of_lookup in Hp as [k Hk].
      destruct (lookup_lt_is_Some_2 (threads (run jobs schedule)) g) as [w Hg].
      { rewrite Hlen. eapply lookup_lt_Some. exact Hj. }
      destruct (Hall g w job Hg Hj) as [Hdone Hpc].
      exists g, w, job, k. unfold stored. rewrite Hdone, Hpc.
      apply lookup_lt_Some in Hk as Hlt. repeat split; auto; lia. }
    split; [exact Hc |]. split.
    { intros p Hp. destruct (Hpres p (Hall_stored p Hp)) as [q Hq].
      destruct (Hent (ID p) q Hq) as [Hid Hs].
      exists q. unfold Get. rewrite Hq.
      split; [reflexivity |]. split; [exact Hid | exact (Hin_jobs _ q Hs)]. }
    intros Hnd.
    assert (Hdata : data s = data (after_puts (concat jobs))).
    { apply map_eq. intros id. rewrite data_last_put.
      destruct (data s !! id) as [p |] eqn:E.
      - destruct (Hent id p E) as [Hid Hs]. symmetry.
        apply last_put_NoDup; [exact Hnd | exact (Hin_jobs _ p Hs) | exact Hid].
      - symmetry. unfold last_put.
        destruct (last (List.filter (fun q => ID q =? id) (concat jobs))) as [q |] eqn:El;
          [| reflexivity].
        apply last_Some_elem_of, list_elem_of_In, filter_In in El as [Hq Hqid].
        apply Z.eqb_eq in Hqid. destruct (Hpres q (Hall_stored q Hq)) as [x Hx].
        rewrite Hqid in Hx. congruence. }
    pose proof (count_after_puts (concat jobs) Hint) as Hc2. unfold Count in Hc, Hc2.
    assert (Hcnt : count s = count (after_puts (concat jobs))) by congruence.
    clearbody s. clear -Hdata Hcnt.
    destruct s as [sd sc], (after_puts (concat jobs)) as [ad ac]. simpl in *.
    congruence.
Qed.

Lemma concurrent_Put_witness :
  Z.of_nat (length (concat [[widget; stray]; [gadget]])) <= GoInt.max_int /\
  all_done [[widget; stray]; [gadget]]
    (run [[widget; stray]; [gadget]] [0; 1; 0; 1; 0; 0]%nat) = true /\
  Count (mem (run [[widget; stray]; [gadget]] [0; 1; 0; 1; 0; 0]%nat))
  = Z.of_nat (length (concat [[widget; stray]; [gadget]])).
Proof.
  assert (H : Z.of_nat (length (concat [[widget; stray]; [gadget]])) <= GoInt.max_int)
    by (vm_compute; discriminate).
  assert (Hd : all_done [[widget; stray]; [gadget]]
                 (run [[widget; stray]; [gadget]] [0; 1; 0; 1; 0; 0]%nat) = true)
    by (vm_compute; reflexivity).
  split; [exact H |]. split; [exact Hd |].
  exact (proj1 (proj2 (proj2 (concurrent_Put [[widget; stray]; [gadget]] H))
                 [0; 1; 0; 1; 0; 0]%nat Hd)).
Defined.

(** Between the two operations of a [Put], the entry is in the map and
    not yet counted. *)
Example Count_lags_behind :
  let s := mem (run [[widget]] [0%nat]) in
  Get s 1 = (widget, true) /\ Count s = 0.
Proof. vm_compute. split; reflexivity. Qed.

End store_concurrent_facts.

(* ===================================================================== *)
(** ** More on the seed data *)
(* ===================================================================== *)

Module seeddata_extra.
Import seeddata seeddata_facts.

(** X24.  [Load] either returns or ends the process.  It returns only
    when the fetch succeeded with status 200, the body was read and
    decoded, and the decoded catalog is not empty; what it returns is
    then never empty and holds one seed per decoded product, in order,
    with the product's title as name and its category, description and
    price unchanged.  It ends the process in every other case: a failed
    fetch, a status other than 200, an unreadable body, a body that does
    not decode, or an empty catalog. *)
Theorem Load_returns_or_exits (get : option response)
    (unmarshal : string -> option dummyJSONResponse) :
  match Load get unmarshal with
  | Returned seeds =>
      seeds <> [] /\
      exists resp body apiResp,
        get = Some resp /\ StatusCode resp = 200 /\ Body resp = Some body /\
        unmarshal body = Some apiResp /\
        length seeds = length (r_Products apiResp) /\
        forall k p, r_Products apiResp !! k = Some p ->
          exists sd, seeds !! k = Some sd /\
            Name sd = p_Title p /\ Category sd = p_Category p /\
            Description sd = p_Description p /\ Price sd = p_Price p
  | Fatal _ =>
      get = None \/
      exists resp, get = Some resp /\
        (StatusCode resp <> 200 \/ Body resp = None \/
         exists body, Body resp = Some body /\
           (unmarshal body = None \/
            exists apiResp, unmarshal body = Some apiResp /\ r_Products apiResp = []))
  end.
Proof.
  destruct (Load get unmarshal) as [seeds | msg] eqn:HL.
  - apply Load_Returned in HL as (resp & body & apiResp & Hg & Hs & Hb & Hu & Hne & ->).
    split; [destruct (r_Products apiResp); [contradiction | discriminate] |].
    exists resp, body, apiResp. repeat split; try assumption.
    + apply length_map.
    + intros k p Hk. exists (seed_of p). split; [| repeat split].
      change (map seed_of (r_Products apiResp)) with (seed_of <$> r_Products apiResp).
      rewrite list_lookup_fmap, Hk. reflexivity.
  - unfold Load in HL.
    destruct get as [resp |]; [right; exists resp; split; [reflexivity |] | left; reflexivity].
    destruct (StatusCode resp =? StatusOK) eqn:Hs;
      [| left; apply Z.eqb_neq in Hs; exact Hs].
    right. simpl in HL.
    destruct (Body resp) as [body |]; [right; exists body; split; [reflexivity |] | left; reflexivity].
    destruct (unmarshal body) as [apiResp |]; [right; exists apiResp; split; [reflexivity |] | left; reflexivity].
    destruct (r_Products apiResp); [reflexivity | discriminate HL].
Qed.

End seeddata_extra.
